(** * BYOA-regression: the statistical core of the teaching application

    The application draws synthetic medical datasets and renders five
    regression families.  The computations with algorithmic content are

    - the Kaplan-Meier estimator ([calculateKaplanMeier] in
      [src/components/CoxRegression.js], repeated inline in the home page
      component of [src/components/LogisticRegression.js]);
    - the sum-of-squares line fit of the linear and multiple regression
      components;
    - Knuth's Poisson sampler ([poissonSample] in
      [src/components/PoissonRegression.js]);
    - the dataset generators that feed them.

    JavaScript numbers are IEEE 754 binary64 values, and so are Rocq's
    primitive floats: every arithmetic operation of the source is embedded
    as the primitive operation of the same name, counters included, so the
    definitions below compute the very doubles the program computes.
    General statements are proved from the specification of the primitives
    ([FloatAxioms]) over [SpecFloat]. *)

From Stdlib Require Import ZArith List Bool Lia Sorted Permutation.
From Stdlib Require Import Uint63 Floats.
Import ListNotations.

Set Warnings "-inexact-float".

(** ** JavaScript numbers *)

Module JS.

(** The number that stands for an integer: the length of an array, or an
    integer of the specification.  The conversion is exact up to [2^53]. *)
Definition of_int (z : Z) : float :=
  if (z <? 0)%Z then PrimFloat.opp (PrimFloat.of_uint63 (Uint63.of_Z (- z)))
  else PrimFloat.of_uint63 (Uint63.of_Z z).

(** [ToBoolean] of a number: [0], [-0] and [NaN] are falsy. *)
Definition truthy (x : float) : bool :=
  negb (PrimFloat.is_zero x || PrimFloat.is_nan x).

(** [a || b] on properties that hold a number or are absent
    ([None] is [undefined]). *)
Definition or (a b : option float) : option float :=
  match a with
  | Some x => if truthy x then a else b
  | None => b
  end.

(** [ToNumber]: [undefined] becomes [NaN]. *)
Definition to_number (v : option float) : float :=
  match v with
  | Some x => x
  | None => PrimFloat.nan
  end.

Definition two52 : float := 4503599627370496%float.

(** [Math.floor].  Doubles of magnitude [2^52] and above are integers;
    below, adding and subtracting [2^52] rounds to the nearest integer,
    which is then moved down when it lies above the argument. *)
Definition Math_floor (x : float) : float :=
  if (PrimFloat.is_nan x || (two52 <=? PrimFloat.abs x))%float then x
  else if PrimFloat.is_zero x then x
  else if (x <? 0)%float then
    let a := PrimFloat.abs x in
    let t := ((a + two52) - two52)%float in
    (- (if (t <? a)%float then t + 1 else t))%float
  else
    let t := ((x + two52) - two52)%float in
    if (x <? t)%float then (t - 1)%float else t.

(** [Math.max] of two numbers: [NaN] if either is. *)
Definition Math_max (a b : float) : float :=
  if (PrimFloat.is_nan a || PrimFloat.is_nan b)%bool then PrimFloat.nan
  else if (a <? b)%float then b else a.

(** [Math.pow(x, 2)]: the square. *)
Definition Math_pow2 (x : float) : float := (x * x)%float.

End JS.

(** ** The Kaplan-Meier estimator *)

(** A record of a survival dataset, with the properties the estimator
    reads.  The cancer dataset carries [survivalTime], the heart-failure
    dataset [eventTime]. *)
Module Obs.
Record t := mk {
  survivalTime : option float;
  eventTime : option float;
  censored : bool
}.
End Obs.

Module Point.
Record t := mk {
  time : option float;
  probability : float;
  censored : bool
}.
End Point.

Module KM.

(** The variables the [forEach] callback closes over. *)
Record state := mk_state {
  n : float;
  survival : list Point.t;
  currentProb : float
}.

Section Estimator.
(** The two copies of the estimator differ only in the expression that
    reads a record's time. *)
Variable time_of : Obs.t -> option float.

(** One call of the callback of [data.forEach]. *)
Definition step (st : state) (d : Obs.t) : state :=
  let currentProb' :=
    if negb (Obs.censored d)
    then (currentProb st * ((n st - 1) / n st))%float
    else currentProb st in
  {| n := (n st - 1)%float;
     survival := survival st ++
       [ {| Point.time := time_of d;
            Point.probability := currentProb';
            Point.censored := Obs.censored d |} ];
     currentProb := currentProb' |}.

Definition init (data : list Obs.t) : state :=
  {| n := JS.of_int (Z.of_nat (length data)); survival := [];
     currentProb := 1%float |}.

Definition run (data : list Obs.t) : list Point.t :=
  survival (fold_left step data (init data)).

(** The point emitted for record [d] when [atRisk] records remain and
    the probability stands at [prev]. *)
Definition point_for (atRisk : Z) (prev : float) (d : Obs.t) : Point.t :=
  {| Point.time := time_of d;
     Point.probability :=
       if Obs.censored d then prev
       else (prev * (JS.of_int (atRisk - 1) / JS.of_int atRisk))%float;
     Point.censored := Obs.censored d |}.

(** The estimator as the specification words it: a recursion over the
    records that carries the number at risk, an integer, and the
    probability. *)
Fixpoint curve (atRisk : Z) (p : float) (data : list Obs.t) : list Point.t :=
  match data with
  | [] => []
  | d :: rest =>
      let p' :=
        if Obs.censored d then p
        else (p * (JS.of_int (atRisk - 1) / JS.of_int atRisk))%float in
      {| Point.time := time_of d; Point.probability := p';
         Point.censored := Obs.censored d |} :: curve (atRisk - 1) p' rest
  end.
End Estimator.

End KM.

(** The time of a point in [CoxRegression.js]:
    [d.survivalTime || d.eventTime]. *)
Definition Cox_time (d : Obs.t) : option float :=
  JS.or (Obs.survivalTime d) (Obs.eventTime d).

(** [calculateKaplanMeier] of [CoxRegression.js]. *)
Definition calculateKaplanMeier : list Obs.t -> list Point.t :=
  KM.run Cox_time.

(** The inline estimator of the home page: the time is [d.survivalTime]. *)
Definition Home_kaplanMeier : list Obs.t -> list Point.t :=
  KM.run Obs.survivalTime.

Definition uncensored_at (t : float) : Obs.t :=
  Obs.mk (Some t) None false.

Definition censored_at (t : float) : Obs.t :=
  Obs.mk (Some t) None true.

(** The order of a list of points by probability, later points lower. *)
Definition non_increasing (points : list Point.t) : Prop :=
  StronglySorted
    (fun a b => (Point.probability b <=? Point.probability a)%float = true) points.


(** ** The sum-of-squares line fit *)

(** [d3.mean] and [d3.sum] belong to d3-array, a dependency of the
    application.  They are embedded by their documented behaviour: the
    values are added from left to right starting from [0], [NaN] values are
    ignored, and the mean of no number at all is [undefined].  (That
    [d3.sum] also passes over zeros changes no sum.) *)
Module D3.

Definition numbers (values : list float) : list float :=
  filter (fun v => negb (PrimFloat.is_nan v)) values.

Definition sum (values : list float) : float :=
  fold_left PrimFloat.add (numbers values) 0%float.

Definition mean (values : list float) : option float :=
  match numbers values with
  | [] => None
  | vs => Some (fold_left PrimFloat.add vs 0 / JS.of_int (Z.of_nat (length vs)))%float
  end.

End D3.

Module Datum.
Record t := mk { x : float; y : float }.
End Datum.

Module Fit.
Record t := mk { slope : float; intercept : float }.
End Fit.

(** The array of points with the given coordinates. *)
Definition points (X Y : list float) : list Datum.t :=
  map (fun xy => Datum.mk (fst xy) (snd xy)) (combine X Y).

(** [array.map((v, i) => f v i)]. *)
Definition mapi {A B : Type} (f : A -> nat -> B) (l : list A) : list B :=
  map (fun iv => f (snd iv) (fst iv)) (combine (seq 0 (length l)) l).

(** The sum of squared deviations [ssxx] that both components compute from
    the predictor column. *)
Definition ssxx (xValues : list float) : float :=
  let xMean := JS.to_number (D3.mean xValues) in
  D3.sum (map (fun x => JS.Math_pow2 (x - xMean)) xValues).

(** The regression line of the [LinearRegression] component, computed from
    the array of [{x, y}] points it plots. *)
Definition LinearRegression_fit (data : list Datum.t) : Fit.t :=
  let xValues := map Datum.x data in
  let yValues := map Datum.y data in
  let xMean := JS.to_number (D3.mean xValues) in
  let yMean := JS.to_number (D3.mean yValues) in
  let ssxy := D3.sum (map (fun d => (Datum.x d - xMean) * (Datum.y d - yMean))%float data) in
  let slope := (ssxy / ssxx xValues)%float in
  let intercept := (yMean - slope * xMean)%float in
  {| Fit.slope := slope; Fit.intercept := intercept |}.

(** The regression line of the [MultipleRegression] component, computed
    from the column of the selected factor and the outcome column. *)
Definition MultipleRegression_fit (xValues yValues : list float) : Fit.t :=
  let xMean := JS.to_number (D3.mean xValues) in
  let yMean := JS.to_number (D3.mean yValues) in
  let ssxy :=
    D3.sum (mapi (fun x i => (x - xMean) * (JS.to_number (nth_error yValues i) - yMean))%float
                 xValues) in
  let slope := (ssxy / ssxx xValues)%float in
  let intercept := (yMean - slope * xMean)%float in
  {| Fit.slope := slope; Fit.intercept := intercept |}.

(** The fit as the specification words it: plain sums, arithmetic means. *)
Module LeastSquares.

Definition total (values : list float) : float :=
  fold_left PrimFloat.add values 0%float.

Definition arithmetic_mean (values : list float) : float :=
  (total values / JS.of_int (Z.of_nat (length values)))%float.

Definition ssxx (X : list float) : float :=
  total (map (fun x => (x - arithmetic_mean X) * (x - arithmetic_mean X))%float X).

Definition ssxy (X Y : list float) : float :=
  total (map (fun xy => (fst xy - arithmetic_mean X) * (snd xy - arithmetic_mean Y))%float
             (combine X Y)).

Definition slope (X Y : list float) : float := (ssxy X Y / ssxx X)%float.

Definition intercept (X Y : list float) : float :=
  (arithmetic_mean Y - slope X Y * arithmetic_mean X)%float.

(** The terms the sums range over. *)
Definition terms (X Y : list float) : list float :=
  X ++ Y
    ++ map (fun x => (x - arithmetic_mean X) * (x - arithmetic_mean X))%float X
    ++ map (fun xy => (fst xy - arithmetic_mean X) * (snd xy - arithmetic_mean Y))%float
           (combine X Y).

End LeastSquares.

(** ** The Poisson sampler *)

Module Poisson.

Section Sampler.
(** [Math.exp] is left to the engine by the language standard, which
    fixes its value at zero only; the sampler is stated over any
    implementation of it. *)
Variable Math_exp : float -> float.

(** The random source: [random i] is the value returned by the call
    number [i] to [Math.random()]. *)
Variable random : nat -> float.

(** The [do ... while (p > L)] loop, entered with [k] and [p] and with
    [i] calls already made.  It returns [k] at the exit and the number
    of calls made by then. *)
Fixpoint loop (fuel : nat) (L : float) (k : float) (p : float) (i : nat)
  : option (float * nat) :=
  match fuel with
  | O => None
  | S fuel' =>
      let k' := (k + 1)%float in
      let p' := (p * random i)%float in
      if (L <? p')%float then loop fuel' L k' p' (S i) else Some (k', S i)
  end.

Definition poissonSample (fuel : nat) (lambda : float) (i : nat)
  : option (float * nat) :=
  let L := Math_exp (- lambda)%float in
  match loop fuel L 0%float 1%float i with
  | Some (k, i') => Some ((k - 1)%float, i')
  | None => None
  end.

(** The running product of the draws: [p] after [j] more passes of a
    loop that holds [p] and has made [i] calls. *)
Fixpoint product (p : float) (i j : nat) : float :=
  match j with
  | O => p
  | S j' => product (p * random i)%float (S i) j'
  end.
End Sampler.

(** An evaluation of the exponential in doubles, by halving the argument
    ten times, summing the series and squaring back.  It stands for the
    engine's [Math.exp] in closed examples; it is exact at zero and
    accurate to about twelve digits elsewhere. *)
Fixpoint exp_series (n : nat) (x : float) (j : float) : float :=
  match n with
  | O => 1%float
  | S n' => (1 + x / j * exp_series n' x (j + 1))%float
  end.

Fixpoint squarings (n : nat) (v : float) : float :=
  match n with
  | O => v
  | S n' => squarings n' (v * v)%float
  end.

Definition exp_model (x : float) : float :=
  squarings 10 (exp_series 20 (x / 1024)%float 1%float).

End Poisson.

(** ** The dataset generators *)

(** [Array.from({length}, f)] for a callback that draws random numbers:
    the calls are made in index order, each starting where the previous
    one stopped in the random source. *)
Fixpoint Array_from {A : Type} (length : nat) (f : nat -> option (A * nat)) (i : nat)
  : option (list A * nat) :=
  match length with
  | O => Some ([], i)
  | S length' =>
      match f i with
      | None => None
      | Some (a, i') =>
          match Array_from length' f i' with
          | None => None
          | Some (rest, i'') => Some (a :: rest, i'')
          end
      end
  end.

(** [array.sort(compare)] for a comparator that orders the elements
    consistently: the stable sorted arrangement. *)
Fixpoint sort_insert {A : Type} (compare : A -> A -> float) (a : A) (l : list A) : list A :=
  match l with
  | [] => [a]
  | b :: rest =>
      if (0 <? compare a b)%float then b :: sort_insert compare a rest
      else a :: b :: rest
  end.

Definition Array_sort {A : Type} (compare : A -> A -> float) (l : list A) : list A :=
  fold_right (sort_insert compare) [] l.

Module Cancer.
Record t := mk {
  age : float;
  stage : float;
  survivalTime : float;
  censored : bool
}.

(** One callback of the cancer-survival generator, on its four draws. *)
Definition sample (u_age u_stage u_time u_censored : float) : t :=
  let age := (40 + u_age * 40)%float in
  let stage := (JS.Math_floor (u_stage * 4) + 1)%float in
  let baseTime := (60 - (age / 10) - (stage * 6))%float in
  let survivalTime := JS.Math_max 1 (baseTime + u_time * 20)%float in
  let censored := (0.3 <? u_censored)%float in
  {| age := age; stage := stage; survivalTime := survivalTime; censored := censored |}.

Definition data (random : nat -> float) : list t :=
  match
    Array_from 100
      (fun i => Some (sample (random i) (random (i + 1)) (random (i + 2)) (random (i + 3)),
                      i + 4)) 0
  with
  | Some (samples, _) =>
      Array_sort (fun a b => (survivalTime a - survivalTime b)%float) samples
  | None => []
  end.

Definition to_obs (s : t) : Obs.t :=
  Obs.mk (Some (survivalTime s)) None (censored s).

(** Ten equally likely draws, the midpoints of the tenths of the unit
    interval. *)
Definition midpoints : list float :=
  [0.05; 0.15; 0.25; 0.35; 0.45; 0.55; 0.65; 0.75; 0.85; 0.95]%float.

(** A random source for closed examples: the multiples of [37 / 101]
    reduced to the unit interval. *)
Definition example_source (i : nat) : float :=
  (JS.of_int (Z.of_nat ((i * 37) mod 101)) / 101)%float.

Fixpoint ascending (times : list float) : bool :=
  match times with
  | a :: (b :: _) as rest => (a <=? b)%float && ascending rest
  | _ => true
  end.
End Cancer.

Module Hospital.
Record t := mk {
  bedCount : float;
  staffRatio : float;
  infections : float
}.

Section Generators.
Variable Math_exp : float -> float.
Variable random : nat -> float.

Definition rate (bedCount staffRatio : float) : float :=
  ((bedCount / 20) * (1 - staffRatio))%float.

(** One callback of the generator of [PoissonRegression.js]. *)
Definition sample (fuel : nat) (i : nat) : option (t * nat) :=
  let bedCount := JS.Math_floor (10 + random i * 90)%float in
  let staffRatio := (0.2 + random (i + 1) * 0.5)%float in
  let lambda := rate bedCount staffRatio in
  match Poisson.poissonSample Math_exp random fuel lambda (i + 2) with
  | Some (infections, i') =>
      Some ({| bedCount := bedCount; staffRatio := staffRatio;
               infections := infections |}, i')
  | None => None
  end.

Definition data (fuel : nat) : option (list t * nat) :=
  Array_from 50 (sample fuel) 0.

(** One callback of the generator of the same name on the home page. *)
Definition Home_sample (i : nat) : option (t * nat) :=
  let bedCount := JS.Math_floor (10 + random i * 90)%float in
  let staffRatio := (0.2 + random (i + 1) * 0.5)%float in
  let lambda := rate bedCount staffRatio in
  let infections := JS.Math_floor (random (i + 2) * lambda * 10)%float in
  Some ({| bedCount := bedCount; staffRatio := staffRatio; infections := infections |},
        i + 3).

Definition Home_data : option (list t * nat) := Array_from 50 Home_sample 0.
End Generators.
End Hospital.


(** ** Auxiliary notions for the proofs about doubles *)

(** Nothing has been shifted out of a mantissa so far. *)
Definition nothing_lost (mrs : shr_record) : Prop :=
  shr_r mrs = false /\ shr_s mrs = false.

Definition SFzero : spec_float := S754_zero false.

Definition SFone : spec_float := S754_finite false 4503599627370496 (-52).

Definition SFis_finite (x : spec_float) : bool :=
  match x with
  | S754_zero _ | S754_finite _ _ _ => true
  | S754_infinity _ | S754_nan => false
  end.

(** A probability: a double of the closed unit interval. *)
Definition unit_interval (p : float) : Prop :=
  (0 <=? p)%float = true /\ (p <=? 1)%float = true.

(** ** More generators *)

(** The heart-failure dataset of [CoxRegression.js]. *)
Module HeartFailure.
Record t := mk {
  ejectionFraction : float;
  nyhaClass : float;
  eventTime : float;
  censored : bool
}.

(** One callback of the generator, on its four draws. *)
Definition sample (u_ef u_class u_time u_censored : float) : t :=
  let ejectionFraction := (20 + u_ef * 40)%float in
  let nyhaClass := (JS.Math_floor (u_class * 4) + 1)%float in
  let baseTime := (48 - (40 - ejectionFraction) / 2 - (nyhaClass * 4))%float in
  let eventTime := JS.Math_max 1 (baseTime + u_time * 15)%float in
  let censored := (0.25 <? u_censored)%float in
  {| ejectionFraction := ejectionFraction; nyhaClass := nyhaClass;
     eventTime := eventTime; censored := censored |}.

Definition data (random : nat -> float) : list t :=
  match
    Array_from 100
      (fun i => Some (sample (random i) (random (i + 1)) (random (i + 2)) (random (i + 3)),
                      i + 4)) 0
  with
  | Some (samples, _) =>
      Array_sort (fun a b => (eventTime a - eventTime b)%float) samples
  | None => []
  end.

(** The record as the estimator reads it: it has no [survivalTime]. *)
Definition to_obs (s : t) : Obs.t :=
  Obs.mk None (Some (eventTime s)) (censored s).
End HeartFailure.


(** The adverse-events dataset of [PoissonRegression.js]. *)
Module AdverseEvents.
Record t := mk {
  patientCount : float;
  medicationCount : float;
  events : float
}.

Section Generators.
Variable Math_exp : float -> float.
Variable random : nat -> float.

Definition rate (patientCount medicationCount : float) : float :=
  ((patientCount / 50) * (medicationCount / 2))%float.

Definition sample (fuel : nat) (i : nat) : option (t * nat) :=
  let patientCount := JS.Math_floor (50 + random i * 150)%float in
  let medicationCount := JS.Math_floor (2 + random (i + 1) * 8)%float in
  let lambda := rate patientCount medicationCount in
  match Poisson.poissonSample Math_exp random fuel lambda (i + 2) with
  | Some (events, i') =>
      Some ({| patientCount := patientCount; medicationCount := medicationCount;
               events := events |}, i')
  | None => None
  end.
End Generators.
End AdverseEvents.

(** The datasets of [LinearRegression] and the noise its slider adds. *)
Module Linear.
(** The callback of [bpAge] at index [i], on its two draws. *)
Definition bpAge (i : nat) (u_x u_y : float) : Datum.t :=
  {| Datum.x := (20 + u_x * 60)%float;
     Datum.y := (90 + (JS.of_int (Z.of_nat i) / 2) + u_y * 30)%float |}.

Definition heightWeight (i : nat) (u_x u_y : float) : Datum.t :=
  {| Datum.x := (150 + u_x * 40)%float;
     Datum.y := (50 + (JS.of_int (Z.of_nat i) / 3) + u_y * 20)%float |}.

(** The callback of the [map] that builds the plotted data, on its draw. *)
Definition noisy (noiseLevel : float) (d : Datum.t) (u : float) : Datum.t :=
  {| Datum.x := Datum.x d;
     Datum.y := (Datum.y d + (u - 0.5) * noiseLevel * 20)%float |}.
End Linear.

(** The datasets of [MultipleRegression]. *)
Module BmiFactors.
Record t := mk {
  height : float;
  weight : float;
  age : float;
  bmi : float
}.

(** The callback of [Array.from] followed by that of [map]. *)
Definition sample (u_height u_weight u_age : float) : t :=
  let height := (150 + u_height * 40)%float in
  let weight := (50 + u_weight * 50)%float in
  let age := (20 + u_age * 60)%float in
  let heightInM := (height / 100)%float in
  {| height := height; weight := weight; age := age;
     bmi := (weight / (heightInM * heightInM))%float |}.
End BmiFactors.

Module HospitalStay.
Record t := mk {
  age : float;
  severity : float;
  comorbidities : float;
  stayDuration : float
}.

(** The callback of [Array.from] on its three draws, followed by that of
    [map] on its own draw. *)
Definition sample (u_age u_severity u_comorbidities u_stay : float) : t :=
  let age := (20 + u_age * 60)%float in
  let severity := (u_severity * 10)%float in
  let comorbidities := JS.Math_floor (u_comorbidities * 5)%float in
  {| age := age; severity := severity; comorbidities := comorbidities;
     stayDuration :=
       (2 + (age / 20) + (severity * 1.5) + (comorbidities * 2) + (u_stay * 5))%float |}.
End HospitalStay.

(** The datasets of [LogisticRegression] and the decision boundary of the
    home page. *)
Module Logistic.
Record heart := mk_heart {
  age : float;
  cholesterol : float;
  outcome : float
}.

Record diabetes := mk_diabetes {
  bmi : float;
  glucoseLevel : float;
  diabetes_outcome : float
}.

Section Risk.
Variable Math_exp : float -> float.

(** [1 / (1 + Math.exp(-(age/20 + cholesterol/100 - 15)))]. *)
Definition heart_exponent (age cholesterol : float) : float :=
  (- (age / 20 + cholesterol / 100 - 15))%float.

Definition heart_risk (age cholesterol : float) : float :=
  (1 / (1 + Math_exp (heart_exponent age cholesterol)))%float.

Definition heartDisease (u_age u_cholesterol u_outcome : float) : heart :=
  let age := (30 + u_age * 50)%float in
  let cholesterol := (150 + u_cholesterol * 150)%float in
  let probability := heart_risk age cholesterol in
  let outcome := if (u_outcome <? probability)%float then 1%float else 0%float in
  {| age := age; cholesterol := cholesterol; outcome := outcome |}.

Definition diabetes_exponent (bmi glucoseLevel : float) : float :=
  (- (bmi / 10 + glucoseLevel / 50 - 8))%float.

Definition diabetes_risk (bmi glucoseLevel : float) : float :=
  (1 / (1 + Math_exp (diabetes_exponent bmi glucoseLevel)))%float.

Definition diabetesRisk (u_bmi u_glucose u_outcome : float) : diabetes :=
  let bmi := (18 + u_bmi * 22)%float in
  let glucoseLevel := (70 + u_glucose * 130)%float in
  let probability := diabetes_risk bmi glucoseLevel in
  let outcome := if (u_outcome <? probability)%float then 1%float else 0%float in
  {| bmi := bmi; glucoseLevel := glucoseLevel; diabetes_outcome := outcome |}.

(** The inner loop of the decision boundary,
    [for (chol = ...; chol <= cholMax; chol += 1)], entered with [chol]
    and the points pushed so far. *)
Fixpoint chol_loop (fuel : nat) (age chol cholMax : float)
    (curvePoints : list (float * float)) : option (list (float * float)) :=
  match fuel with
  | O => None
  | S fuel' =>
      if (chol <=? cholMax)%float then
        let prob := heart_risk age chol in
        let curvePoints' :=
          if (PrimFloat.abs (prob - 0.5) <? 0.01)%float
          then curvePoints ++ [(age, chol)]
          else curvePoints in
        chol_loop fuel' age (chol + 1)%float cholMax curvePoints'
      else Some curvePoints
  end.

(** The outer loop, [for (age = ...; age <= ageMax; age += 0.5)]; each
    of its passes runs the inner loop, with the fuel [inner]. *)
Fixpoint age_loop (inner fuel : nat) (age ageMax cholMin cholMax : float)
    (curvePoints : list (float * float)) : option (list (float * float)) :=
  match fuel with
  | O => None
  | S fuel' =>
      if (age <=? ageMax)%float then
        match chol_loop inner age cholMin cholMax curvePoints with
        | Some curvePoints' =>
            age_loop inner fuel' (age + 0.5)%float ageMax cholMin cholMax curvePoints'
        | None => None
        end
      else Some curvePoints
  end.

(** The points of the decision boundary, for the extremes of the ages
    and cholesterol levels of the dataset. *)
Definition decision_boundary (fuel : nat) (ageMin ageMax cholMin cholMax : float)
  : option (list (float * float)) :=
  age_loop fuel fuel ageMin ageMax cholMin cholMax [].
End Risk.
End Logistic.

(** ** Values of doubles *)

(** The value of a finite double in units of [2^-1074], the smallest
    positive double: an integer. *)
Definition SFval (x : spec_float) : Z :=
  match x with
  | S754_finite s m e => cond_Zopp s (Zpos m * 2 ^ (e + 1074))
  | _ => 0%Z
  end.

Definition Fval (x : float) : Z := SFval (Prim2SF x).

(** The value of the double [1]. *)
Definition ulp1 : Z := (2 ^ 1074)%Z.

Definition SFfinite_valid (P : spec_float) : Prop :=
  valid_binary P = true /\ SFis_finite P = true.

(** A double between two bounds. *)
Definition within (lo hi x : float) : Prop :=
  (lo <=? x)%float = true /\ (x <=? hi)%float = true.

Definition all_finite (l : list float) : bool := forallb PrimFloat.is_finite l.

(** A value returned by [Math.random()]: at least 0 and below 1. *)
Definition draw (u : float) : Prop :=
  (0 <=? u)%float = true /\ (u <? 1)%float = true.

(** The largest double below 1. *)
Definition below_one : float := 0x1.fffffffffffffp-1%float.

(** * Proofs *)

(** ** Rounding in binary64

    The facts about [SpecFloat]'s rounding that the estimator and the
    sampler rest on: a product or quotient that lies below a double is
    rounded to a double that is not above it. *)

Section Rounding.
Local Open Scope Z_scope.

(** A mantissa of [d] binary digits lies between [2^(d-1)] and [2^d]. *)
Lemma digits2_pos_bounds (m : positive) :
  2 ^ (Zpos (digits2_pos m) - 1) <= Zpos m < 2 ^ Zpos (digits2_pos m).
Proof.
  induction m as [m IH | m IH | ]; simpl digits2_pos.
  - rewrite Pos2Z.inj_succ.
    replace (Z.succ (Zpos (digits2_pos m)) - 1) with (Z.succ (Zpos (digits2_pos m) - 1)) by lia.
    rewrite !Z.pow_succ_r by lia. lia.
  - rewrite Pos2Z.inj_succ.
    replace (Z.succ (Zpos (digits2_pos m)) - 1) with (Z.succ (Zpos (digits2_pos m) - 1)) by lia.
    rewrite !Z.pow_succ_r by lia. lia.
  - simpl. lia.
Qed.

(** A mantissa bounded by a scaled mantissa has no more digits than it. *)
Lemma Zdigits2_le_scaled (m : Z) (M : positive) (k : Z) :
  0 <= m -> 0 <= k -> m <= Zpos M * 2 ^ k ->
  Zdigits2 m <= Zpos (digits2_pos M) + k.
Proof.
  intros Hm Hk Hle.
  destruct m as [ | q | q ]; cbn [Zdigits2]; try lia.
  destruct (digits2_pos_bounds q) as [Hlo _].
  destruct (digits2_pos_bounds M) as [_ Hhi].
  assert (H2k : 0 < 2 ^ k) by (apply Z.pow_pos_nonneg; lia).
  assert (Hlt : 2 ^ (Zpos (digits2_pos q) - 1) < 2 ^ (Zpos (digits2_pos M) + k)).
  { rewrite Z.pow_add_r by lia. nia. }
  apply Z.pow_lt_mono_r_iff in Hlt; lia.
Qed.

(** Shifting right by one bit halves the mantissa, and loses nothing when
    the bit shifted out is zero. *)
Lemma shr_1_spec (mrs : shr_record) :
  0 <= shr_m mrs ->
  shr_m (shr_1 mrs) = shr_m mrs / 2 /\
  (nothing_lost mrs -> shr_m mrs mod 2 = 0 -> nothing_lost (shr_1 mrs)).
Proof.
  destruct mrs as [m r s]; unfold nothing_lost; cbn [shr_m shr_r shr_s]; intros Hm.
  destruct m as [ | [ p | p | ] | p ]; try lia; cbn [shr_1 shr_m shr_r shr_s].
  - split; [ reflexivity | ]. intros [-> ->] _. split; reflexivity.
  - split.
    + rewrite (Pos2Z.inj_xI p). apply Z.div_unique with (r := 1); lia.
    + intros _ H. rewrite Pos2Z.inj_xI in H.
      rewrite Z.add_comm, Z.mul_comm, Z.mod_add in H by lia. discriminate.
  - split.
    + rewrite (Pos2Z.inj_xO p). apply Z.div_unique with (r := 0); lia.
    + intros [-> ->] _. split; reflexivity.
  - split; [ reflexivity | ]. intros _ H. discriminate.
Qed.

(** Shifting right by [p] bits divides the mantissa by [2^p], and loses
    nothing when the mantissa is a multiple of [2^p]. *)
Lemma iter_pos_shr_1 (p : positive) : forall mrs,
  0 <= shr_m mrs ->
  shr_m (iter_pos shr_1 p mrs) = shr_m mrs / 2 ^ Zpos p /\
  (nothing_lost mrs -> shr_m mrs mod 2 ^ Zpos p = 0 -> nothing_lost (iter_pos shr_1 p mrs)).
Proof.
  assert (Hhalf : forall q m, 0 <= m -> m mod (2 ^ Zpos q * 2 ^ Zpos q) = 0 ->
            m mod 2 ^ Zpos q = 0 /\ (m / 2 ^ Zpos q) mod 2 ^ Zpos q = 0).
  { intros q m Hm H.
    assert (0 < 2 ^ Zpos q) by (apply Z.pow_pos_nonneg; lia).
    rewrite Z.rem_mul_r in H by lia.
    assert (0 <= m mod 2 ^ Zpos q < 2 ^ Zpos q) by (apply Z.mod_pos_bound; lia).
    assert (0 <= (m / 2 ^ Zpos q) mod 2 ^ Zpos q < 2 ^ Zpos q) by (apply Z.mod_pos_bound; lia).
    nia. }
  induction p as [p IH | p IH | ]; intros mrs Hm; simpl iter_pos.
  - destruct (shr_1_spec mrs Hm) as [E1 X1].
    assert (H1 : 0 <= shr_m (shr_1 mrs)) by (rewrite E1; apply Z.div_pos; lia).
    destruct (IH _ H1) as [E2 X2].
    assert (H2 : 0 <= shr_m (iter_pos shr_1 p (shr_1 mrs))).
    { rewrite E2. apply Z.div_pos; [ lia | apply Z.pow_pos_nonneg; lia ]. }
    destruct (IH _ H2) as [E3 X3].
    assert (Hp : 0 < 2 ^ Zpos p) by (apply Z.pow_pos_nonneg; lia).
    assert (Epow : 2 ^ Zpos p~1 = 2 * (2 ^ Zpos p * 2 ^ Zpos p)).
    { rewrite Pos2Z.inj_xI.
      replace (2 * Zpos p + 1) with (1 + Zpos p + Zpos p) by lia.
      rewrite !Z.pow_add_r by lia. rewrite Z.pow_1_r. ring. }
    split.
    + rewrite E3, E2, E1, Epow, !Z.div_div by lia. reflexivity.
    + intros Hx Hmod. rewrite Epow in Hmod.
      rewrite Z.rem_mul_r in Hmod by lia.
      assert (0 <= shr_m mrs mod 2 < 2) by (apply Z.mod_pos_bound; lia).
      assert (0 <= (shr_m mrs / 2) mod (2 ^ Zpos p * 2 ^ Zpos p)) by (apply Z.mod_pos_bound; lia).
      assert (M1 : shr_m mrs mod 2 = 0) by lia.
      assert (M2 : (shr_m mrs / 2) mod (2 ^ Zpos p * 2 ^ Zpos p) = 0) by lia.
      rewrite <- E1 in M2. apply Hhalf in M2; [ | lia ]. destruct M2 as [M2 M3].
      rewrite <- E2 in M3.
      apply X3; [ apply X2; [ apply X1 | ] | ]; assumption.
  - destruct (IH _ Hm) as [E2 X2].
    assert (H2 : 0 <= shr_m (iter_pos shr_1 p mrs)).
    { rewrite E2. apply Z.div_pos; [ lia | apply Z.pow_pos_nonneg; lia ]. }
    destruct (IH _ H2) as [E3 X3].
    assert (Hp : 0 < 2 ^ Zpos p) by (apply Z.pow_pos_nonneg; lia).
    assert (Epow : 2 ^ Zpos p~0 = 2 ^ Zpos p * 2 ^ Zpos p).
    { rewrite (Pos2Z.inj_xO p). replace (2 * Zpos p) with (Zpos p + Zpos p) by lia.
      rewrite Z.pow_add_r by lia. reflexivity. }
    split.
    + rewrite E3, E2, Epow, !Z.div_div by lia. reflexivity.
    + intros Hx Hmod. rewrite Epow in Hmod.
      apply Hhalf in Hmod; [ | lia ]. destruct Hmod as [M2 M3].
      rewrite <- E2 in M3. apply X3; [ apply X2 | ]; assumption.
  - destruct (shr_1_spec mrs Hm) as [E1 X1]. split.
    + rewrite E1. reflexivity.
    + exact X1.
Qed.

Lemma fexp_eq (x : Z) : fexp prec emax x = Z.max (x - 53) (-1074).
Proof. reflexivity. Qed.

Lemma canonical_eq (m : positive) (e : Z) :
  canonical_mantissa prec emax m e = true ->
  Z.max (Zpos (digits2_pos m) + e - 53) (-1074) = e.
Proof. unfold canonical_mantissa. rewrite fexp_eq. apply Z.eqb_eq. Qed.

Lemma shr_record_of_loc_m (m : Z) (l : location) : shr_m (shr_record_of_loc m l) = m.
Proof. destruct l as [ | [ | | ] ]; reflexivity. Qed.

Lemma loc_of_shr_record_of_loc (m : Z) (l : location) :
  loc_of_shr_record (shr_record_of_loc m l) = l.
Proof. destruct l as [ | [ | | ] ]; reflexivity. Qed.

Lemma nothing_lost_loc (mrs : shr_record) : nothing_lost mrs <-> loc_of_shr_record mrs = loc_Exact.
Proof.
  destruct mrs as [m [ | ] [ | ]]; unfold nothing_lost; simpl; split;
    (intros [? ?] || intros ?); try discriminate; auto.
Qed.

Lemma pow2_split (a b : Z) : 0 <= a -> 0 <= b -> 2 ^ (a + b) = 2 ^ a * 2 ^ b.
Proof. intros; apply Z.pow_add_r; assumption. Qed.

(** Truncation to the format keeps a mantissa below a float of the
    format that bounds it, strictly so when bits were lost. *)
Lemma shr_fexp_le (m e : Z) (l : location) (mP : positive) (eP : Z) :
  0 <= m -> e <= eP -> canonical_mantissa prec emax mP eP = true ->
  m <= Zpos mP * 2 ^ (eP - e) ->
  (l <> loc_Exact -> m < Zpos mP * 2 ^ (eP - e)) ->
  forall mrs' e', shr_fexp prec emax m e l = (mrs', e') ->
  e' <= eP /\ 0 <= shr_m mrs' <= Zpos mP * 2 ^ (eP - e') /\
  (loc_of_shr_record mrs' <> loc_Exact -> shr_m mrs' < Zpos mP * 2 ^ (eP - e')).
Proof.
  intros Hm He Hcan Hle Hlt mrs' e'.
  unfold shr_fexp, shr. rewrite fexp_eq.
  pose proof (canonical_eq _ _ Hcan) as HeP.
  pose proof (Zdigits2_le_scaled m mP (eP - e) Hm ltac:(lia) Hle) as Hdig.
  destruct (Z.max (Zdigits2 m + e - 53) (-1074) - e) as [ | p | p ] eqn:En;
    intros E; inversion E; subst mrs' e'; clear E.
  - rewrite shr_record_of_loc_m, loc_of_shr_record_of_loc. repeat split; try lia; assumption.
  - assert (Hm' : 0 <= shr_m (shr_record_of_loc m l)) by (rewrite shr_record_of_loc_m; lia).
    destruct (iter_pos_shr_1 p _ Hm') as [Eq1 Ex1].
    rewrite shr_record_of_loc_m in Eq1, Ex1.
    set (e' := e + Zpos p) in *.
    assert (He' : e' <= eP) by lia.
    assert (H2p : 0 < 2 ^ Zpos p) by (apply Z.pow_pos_nonneg; lia).
    assert (Esplit : 2 ^ (eP - e) = 2 ^ (eP - e') * 2 ^ Zpos p).
    { rewrite <- pow2_split by lia. f_equal. lia. }
    rewrite Esplit in Hle, Hlt.
    set (N := Zpos mP * 2 ^ (eP - e')) in *.
    assert (HN : 0 <= N).
    { unfold N. apply Z.mul_nonneg_nonneg; [ lia | apply Z.pow_nonneg; lia ]. }
    rewrite Eq1. split; [ exact He' | ]. split.
    + split.
      * apply Z.div_pos; lia.
      * apply Z.div_le_upper_bound; lia.
    + intros Hinex.
      apply Z.div_lt_upper_bound; [ lia | ].
      destruct (Z.eq_dec m (N * 2 ^ Zpos p)) as [Em | Nm]; [ | lia ].
      destruct l as [ | c ].
      * exfalso. apply Hinex. apply nothing_lost_loc. apply Ex1.
        -- split; reflexivity.
        -- rewrite Em. apply Z.mod_mul. lia.
      * assert (m < N * 2 ^ Zpos p) by (rewrite Z.mul_assoc in Hlt; apply Hlt; discriminate). lia.
  - rewrite shr_record_of_loc_m, loc_of_shr_record_of_loc. repeat split; try lia; assumption.
Qed.

Lemma round_nearest_even_bounds (m : Z) (l : location) :
  m <= round_nearest_even m l <= m + 1 /\ (l = loc_Exact -> round_nearest_even m l = m).
Proof.
  destruct l as [ | [ | | ] ]; simpl; try destruct (Z.even m); split; try lia; try reflexivity;
    intros; discriminate.
Qed.

(** Rounding a value that lies below a float of the format yields a float
    that is not above it. *)
Lemma binary_round_aux_le (m e : Z) (l : location) (mP : positive) (eP : Z) :
  0 <= m -> e <= eP -> bounded prec emax mP eP = true ->
  m <= Zpos mP * 2 ^ (eP - e) ->
  (l <> loc_Exact -> m < Zpos mP * 2 ^ (eP - e)) ->
  SFleb (binary_round_aux prec emax false m e l) (S754_finite false mP eP) = true.
Proof.
  intros Hm He Hb Hle Hlt.
  unfold bounded in Hb. apply andb_true_iff in Hb. destruct Hb as [Hcan Hmax].
  apply Z.leb_le in Hmax.
  unfold binary_round_aux.
  destruct (shr_fexp prec emax m e l) as [mrs1 e1] eqn:E1.
  destruct (shr_fexp_le m e l mP eP Hm He Hcan Hle Hlt _ _ E1) as (He1 & [Hm1 Hle1] & Hlt1).
  destruct (round_nearest_even_bounds (shr_m mrs1) (loc_of_shr_record mrs1)) as [[Hr1 Hr2] Hr3].
  set (m2 := round_nearest_even (shr_m mrs1) (loc_of_shr_record mrs1)) in *.
  assert (Hle2 : m2 <= Zpos mP * 2 ^ (eP - e1)).
  { destruct (loc_of_shr_record mrs1) as [ | c ] eqn:El.
    - rewrite Hr3 by reflexivity. exact Hle1.
    - assert (shr_m mrs1 < Zpos mP * 2 ^ (eP - e1)) by (apply Hlt1; discriminate). lia. }
  destruct (shr_fexp prec emax m2 e1 loc_Exact) as [mrs2 e2] eqn:E2.
  assert (Hm2 : 0 <= m2) by lia.
  destruct (shr_fexp_le m2 e1 loc_Exact mP eP Hm2 He1 Hcan Hle2 ltac:(congruence) _ _ E2)
    as (He2 & [Hm3 Hle3] & _).
  destruct (shr_m mrs2) as [ | m3 | m3 ]; [ reflexivity | | lia ].
  replace (e2 <=? emax - prec) with true by (symmetry; apply Z.leb_le; lia).
  unfold SFleb, SFcompare.
  destruct (Z.compare_spec e2 eP) as [Ee | Ee | Ee]; [ | reflexivity | lia ].
  subst e2. rewrite Z.sub_diag, Z.pow_0_r, Z.mul_1_r in Hle3.
  rewrite Pos.compare_cont_spec. simpl.
  destruct (Pos.compare_spec m3 mP); try reflexivity. lia.
Qed.

Lemma bounded_inv (m : positive) (e : Z) :
  bounded prec emax m e = true ->
  Z.max (Zpos (digits2_pos m) + e - 53) (-1074) = e /\ e <= 971.
Proof.
  unfold bounded. intros H. apply andb_true_iff in H. destruct H as [H1 H2].
  split; [ apply canonical_eq; exact H1 | apply Z.leb_le in H2; exact H2 ].
Qed.

(** Comparison of two positive floats of the format, read on the integers. *)
Lemma SFleb_finite_inv (m1 : positive) (e1 : Z) (m2 : positive) (e2 : Z) :
  bounded prec emax m1 e1 = true -> bounded prec emax m2 e2 = true ->
  SFleb (S754_finite false m1 e1) (S754_finite false m2 e2) = true ->
  e1 <= e2 /\ Zpos m1 <= Zpos m2 * 2 ^ (e2 - e1).
Proof.
  intros B1 B2. apply bounded_inv in B1, B2. destruct B1 as [C1 _], B2 as [C2 _].
  unfold SFleb, SFcompare.
  destruct (Z.compare_spec e1 e2) as [E | L | G]; try discriminate.
  - subst e2. rewrite Pos.compare_cont_spec; simpl.
    destruct (Pos.compare_spec m1 m2); try discriminate; intros _;
      rewrite Z.sub_diag, Z.pow_0_r; lia.
  - intros _. split; [ lia | ].
    destruct (digits2_pos_bounds m1) as [_ H1].
    destruct (digits2_pos_bounds m2) as [H2 _].
    assert (D1 : Zpos (digits2_pos m1) <= 53) by lia.
    assert (D2 : Zpos (digits2_pos m2) = 53) by lia.
    rewrite D2 in H2. simpl in H2.
    assert (Zpos m1 < 2 ^ 53).
    { eapply Z.lt_le_trans; [ exact H1 | apply Z.pow_le_mono_r; lia ]. }
    assert (2 ^ 1 <= 2 ^ (e2 - e1)) by (apply Z.pow_le_mono_r; lia).
    change (2 ^ 53) with 9007199254740992 in *. change (2 ^ 1) with 2 in *.
    change (2 ^ 52) with 4503599627370496 in *. nia.
Qed.

Lemma binary_round_aux_nonneg (m e : Z) (l : location) (P : spec_float) :
  SFleb (binary_round_aux prec emax false m e l) P = true ->
  SFleb SFzero (binary_round_aux prec emax false m e l) = true.
Proof.
  unfold binary_round_aux.
  destruct (shr_fexp prec emax m e l) as [mrs1 e1].
  destruct (shr_fexp prec emax _ e1 loc_Exact) as [mrs2 e2].
  destruct (shr_m mrs2); [ reflexivity | | discriminate ].
  destruct (e2 <=? emax - prec); reflexivity.
Qed.

(** Multiplying a probability by a factor of the unit interval. *)
Lemma SFmul_unit_le (p f P : spec_float) :
  valid_binary p = true -> valid_binary f = true -> valid_binary P = true ->
  SFleb SFzero p = true -> SFleb p P = true -> SFleb P SFone = true ->
  SFleb SFzero f = true -> SFleb f SFone = true ->
  SFleb SFzero (SF64mul p f) = true /\ SFleb (SF64mul p f) P = true.
Proof.
  intros Vp Vf VP Hp HpP HP Hf Hf1.
  destruct p as [sp | [ | ] | | [ | ] mp ep]; try discriminate;
  destruct f as [sf | [ | ] | | [ | ] mf ef]; try discriminate;
  destruct P as [sP | [ | ] | | [ | ] mP eP]; try discriminate;
  try (split; reflexivity).
  assert (Hle : SFleb (SF64mul (S754_finite false mp ep) (S754_finite false mf ef))
                  (S754_finite false mP eP) = true).
  { simpl in Vp, Vf, VP.
    destruct (SFleb_finite_inv _ _ _ _ Vp VP HpP) as [E1 M1].
    destruct (SFleb_finite_inv mf ef 4503599627370496 (-52) Vf ltac:(reflexivity) Hf1) as [E2 M2].
    unfold SF64mul, SFmul. simpl xorb.
    apply binary_round_aux_le; try assumption; try lia; [ | intros H; congruence ].
    rewrite Pos2Z.inj_mul.
    replace (eP - (ep + ef)) with ((eP - ep) + (-52 - ef + 52)) by lia.
    rewrite pow2_split by lia.
    assert (E52 : 4503599627370496 * 2 ^ (-52 - ef) = 2 ^ (-52 - ef + 52)).
    { rewrite pow2_split by lia. change (2 ^ 52) with 4503599627370496. lia. }
    rewrite E52 in M2.
    assert (0 < 2 ^ (eP - ep)) by (apply Z.pow_pos_nonneg; lia).
    assert (0 < 2 ^ (-52 - ef + 52)) by (apply Z.pow_pos_nonneg; lia).
    nia. }
  split; [ | exact Hle ].
  unfold SF64mul, SFmul in *. simpl xorb in *.
  eapply binary_round_aux_nonneg; exact Hle.
Qed.

Lemma Prim2SF_zero : Prim2SF 0 = SFzero.
Proof. reflexivity. Qed.

Lemma Prim2SF_one : Prim2SF 1 = SFone.
Proof. reflexivity. Qed.

Lemma mul_unit_le (p f P : float) :
  (0 <=? p)%float = true -> (p <=? P)%float = true -> (P <=? 1)%float = true ->
  (0 <=? f)%float = true -> (f <=? 1)%float = true ->
  (0 <=? p * f)%float = true /\ (p * f <=? P)%float = true.
Proof.
  rewrite !leb_spec, mul_spec, Prim2SF_zero, Prim2SF_one.
  intros; apply SFmul_unit_le; try apply Prim2SF_valid; assumption.
Qed.

(** Rounding leaves a float of the format as it is. *)
Lemma binary_round_aux_canonical (s : bool) (m : positive) (e : Z) :
  bounded prec emax m e = true ->
  binary_round_aux prec emax s (Zpos m) e loc_Exact = S754_finite s m e.
Proof.
  intros B. destruct (bounded_inv _ _ B) as [C Hmax].
  unfold binary_round_aux, shr_fexp. rewrite fexp_eq. cbn [Zdigits2].
  rewrite C, Z.sub_diag. cbn [shr shr_record_of_loc shr_m loc_of_shr_record round_nearest_even].
  rewrite fexp_eq. cbn [Zdigits2]. rewrite C, Z.sub_diag.
  cbn [shr shr_record_of_loc shr_m].
  replace (e <=? emax - prec) with true by (symmetry; apply Z.leb_le; exact Hmax).
  reflexivity.
Qed.

Lemma iter_xO_spec (d : positive) (q : positive) :
  Zpos (Pos.iter xO q d) = Zpos q * 2 ^ Zpos d /\
  Zpos (digits2_pos (Pos.iter xO q d)) = Zpos (digits2_pos q) + Zpos d.
Proof.
  induction d as [ | d [IH1 IH2] ] using Pos.peano_ind.
  - simpl Pos.iter. split.
    + rewrite (Pos2Z.inj_xO q). rewrite Z.pow_1_r. lia.
    + simpl digits2_pos. lia.
  - rewrite Pos.iter_succ. split.
    + rewrite (Pos2Z.inj_xO (Pos.iter xO q d)), IH1, Pos2Z.inj_succ, Z.pow_succ_r by lia. ring.
    + cbn [digits2_pos]. rewrite Pos2Z.inj_succ, IH2, Pos2Z.inj_succ. lia.
Qed.

(** The double of a positive integer below [2^53] is the integer itself,
    with its mantissa brought to 53 digits. *)
Lemma of_int_finite (k : Z) :
  0 < k < 2 ^ 53 ->
  exists (m : positive) (e : Z),
    Prim2SF (PrimFloat.of_uint63 (Uint63.of_Z k)) = S754_finite false m e /\
    bounded prec emax m e = true /\
    e = Zdigits2 k - 53 /\ Zpos m = k * 2 ^ (53 - Zdigits2 k).
Proof.
  intros [Hk0 Hk].
  rewrite of_uint63_spec, Uint63.of_Z_spec.
  assert (HwB : 2 ^ 53 < wB) by reflexivity.
  rewrite Z.mod_small by lia.
  destruct k as [ | q | q ]; try lia.
  cbn [binary_normalize Zdigits2]. unfold binary_round.
  destruct (digits2_pos_bounds q) as [Hlo Hhi].
  assert (Hd : Zpos (digits2_pos q) <= 53).
  { assert (2 ^ (Zpos (digits2_pos q) - 1) < 2 ^ 53) by lia.
    apply Z.pow_lt_mono_r_iff in H; lia. }
  rewrite fexp_eq. rewrite Z.add_0_r.
  rewrite Z.max_l by lia.
  unfold shl_align.
  destruct (Zpos (digits2_pos q) - 53 - 0) as [ | d | d ] eqn:Ed; try lia.
  - exists q, 0.
    assert (B : bounded prec emax q 0 = true).
    { unfold bounded, canonical_mantissa. rewrite fexp_eq.
      replace (Zpos (digits2_pos q)) with 53 by lia. reflexivity. }
    rewrite binary_round_aux_canonical by exact B.
    repeat split; try assumption; try lia.
    replace (53 - Zpos (digits2_pos q)) with 0 by lia. rewrite Z.pow_0_r. lia.
  - destruct (iter_xO_spec d q) as [V D].
    exists (Pos.iter xO q d), (Zpos (digits2_pos q) - 53).
    assert (B : bounded prec emax (Pos.iter xO q d) (Zpos (digits2_pos q) - 53) = true).
    { unfold bounded, canonical_mantissa. rewrite fexp_eq, D.
      apply andb_true_iff; split; [ apply Z.eqb_eq | apply Z.leb_le; unfold emax, prec ]; lia. }
    rewrite binary_round_aux_canonical by exact B.
    repeat split; try assumption.
    rewrite V. f_equal. f_equal. lia.
Qed.

(** The quotient of two positive floats, the first not above the second,
    lies in the unit interval. *)
Lemma SFdiv_le_one (ma : positive) (ea : Z) (mb : positive) (eb : Z) :
  bounded prec emax ma ea = true -> bounded prec emax mb eb = true ->
  ea <= eb -> Zpos ma <= Zpos mb * 2 ^ (eb - ea) ->
  SFleb SFzero (SF64div (S754_finite false ma ea) (S754_finite false mb eb)) = true /\
  SFleb (SF64div (S754_finite false ma ea) (S754_finite false mb eb)) SFone = true.
Proof.
  intros Ba Bb He Hm.
  assert (Hle : SFleb (SF64div (S754_finite false ma ea) (S754_finite false mb eb)) SFone = true).
  { unfold SF64div, SFdiv, SFdiv_core_binary. simpl xorb. cbn [Zdigits2].
    rewrite fexp_eq.
    pose proof (Zdigits2_le_scaled (Zpos ma) mb (eb - ea) ltac:(lia) ltac:(lia) Hm) as Hd.
    cbn [Zdigits2] in Hd.
    set (e' := Z.min (Z.max (Zpos (digits2_pos ma) + ea - (Zpos (digits2_pos mb) + eb) - 53) (-1074)) (ea - eb)).
    assert (He' : e' <= -53 /\ e' <= ea - eb) by (unfold e'; lia).
    remember (ea - eb - e') as s eqn:Es0.
    assert (Hs0 : 0 <= s) by lia.
    set (m' := match s with Zpos _ => Z.shiftl (Zpos ma) s | Z0 => Zpos ma | Zneg _ => 0 end).
    assert (Em' : m' = Zpos ma * 2 ^ s).
    { unfold m'. clear - Hs0. destruct s as [ | ps | ps ]; try lia.
      rewrite Z.shiftl_mul_pow2 by lia. reflexivity. }
    assert (Hs : 0 <= s) by lia.
    pose proof (Z_div_mod m' (Zpos mb) ltac:(lia)) as Hdm.
    destruct (Z.div_eucl m' (Zpos mb)) as [q r]. destruct Hdm as [Eq Hr].
    assert (H2s : 0 < 2 ^ s) by (apply Z.pow_pos_nonneg; lia).
    assert (H2e : 0 < 2 ^ (eb - ea)) by (apply Z.pow_pos_nonneg; lia).
    assert (Esplit : 2 ^ (-52 - e' + 52) = 2 ^ (eb - ea) * 2 ^ s).
    { rewrite <- pow2_split by lia. f_equal. lia. }
    assert (E52 : 4503599627370496 * 2 ^ (-52 - e') = 2 ^ (-52 - e' + 52)).
    { rewrite pow2_split by lia. change (2 ^ 52) with 4503599627370496. lia. }
    assert (Hq : 0 <= q) by nia.
    apply binary_round_aux_le; try assumption; try lia; try reflexivity.
    - change (Zpos 4503599627370496) with 4503599627370496.
      rewrite E52, Esplit. nia.
    - intros Hl.
      assert (r <> 0) by (intros ->; apply Hl; unfold new_location, new_location_even, new_location_odd;
                            destruct (Z.even (Zpos mb)); reflexivity).
      change (Zpos 4503599627370496) with 4503599627370496.
      rewrite E52, Esplit. nia. }
  split; [ | exact Hle ].
  unfold SF64div, SFdiv in *. simpl xorb in *.
  destruct (SFdiv_core_binary prec emax (Zpos ma) ea (Zpos mb) eb) as [[mz ez] lz].
  eapply binary_round_aux_nonneg; exact Hle.
Qed.

Lemma Zdigits2_mono (a b : Z) : 0 <= a <= b -> Zdigits2 a <= Zdigits2 b.
Proof.
  intros [Ha Hab]. destruct b as [ | b | b ]; try lia.
  - assert (a = 0) by lia. subst. reflexivity.
  - pose proof (Zdigits2_le_scaled a b 0 Ha ltac:(lia)) as H.
    rewrite Z.pow_0_r, Z.mul_1_r, Z.add_0_r in H. apply H. exact Hab.
Qed.

(** The ratio [(n - 1) / n] of the estimator lies in the unit interval. *)
Lemma at_risk_ratio_bounds (k : Z) :
  1 <= k < 2 ^ 53 ->
  let f := (PrimFloat.of_uint63 (Uint63.of_Z (k - 1)) / PrimFloat.of_uint63 (Uint63.of_Z k))%float in
  (0 <=? f)%float = true /\ (f <=? 1)%float = true.
Proof.
  intros Hk f. unfold f. rewrite !leb_spec, div_spec, Prim2SF_zero, Prim2SF_one.
  destruct (of_int_finite k ltac:(lia)) as (mb & eb & Eb & Bb & Heb & Hmb).
  rewrite Eb.
  destruct (Z.eq_dec k 1) as [-> | Hk1].
  - change (Prim2SF (of_uint63 (of_Z (1 - 1)))) with SFzero. split; reflexivity.
  - destruct (of_int_finite (k - 1) ltac:(lia)) as (ma & ea & Ea & Ba & Hea & Hma).
    rewrite Ea.
    pose proof (Zdigits2_mono (k - 1) k ltac:(lia)) as Hd.
    assert (Hdk : Zdigits2 k <= 53).
    { destruct k as [ | q | q ]; try lia. cbn [Zdigits2].
      destruct (digits2_pos_bounds q) as [Hlo _].
      assert (Hlt : 2 ^ (Zpos (digits2_pos q) - 1) < 2 ^ 53) by lia.
      apply Z.pow_lt_mono_r_iff in Hlt; lia. }
    apply SFdiv_le_one; try assumption; try lia.
    rewrite Hma, Hmb, Hea, Heb.
    replace (53 - Zdigits2 (k - 1)) with ((53 - Zdigits2 k) + (Zdigits2 k - 53 - (Zdigits2 (k - 1) - 53))) by lia.
    rewrite pow2_split by lia.
    assert (0 < 2 ^ (53 - Zdigits2 k)) by (apply Z.pow_pos_nonneg; lia).
    assert (0 < 2 ^ (Zdigits2 k - 53 - (Zdigits2 (k - 1) - 53))) by (apply Z.pow_pos_nonneg; lia).
    nia.
Qed.

Lemma digits2_pos_unique (m : positive) (d : Z) :
  2 ^ (d - 1) <= Zpos m < 2 ^ d -> Zpos (digits2_pos m) = d.
Proof.
  intros [Hlo Hhi]. destruct (digits2_pos_bounds m) as [Hlo' Hhi'].
  assert (0 < d).
  { destruct (Z.lt_ge_cases 0 d) as [ | Hd ]; [ assumption | ].
    rewrite Z.pow_neg_r in Hlo by lia.
    destruct (Z.eq_dec d 0) as [-> | ]; [ simpl in Hhi; lia | ].
    rewrite Z.pow_neg_r in Hhi by lia. lia. }
  assert (H1 : 2 ^ (d - 1) < 2 ^ Zpos (digits2_pos m)) by lia.
  assert (H2 : 2 ^ (Zpos (digits2_pos m) - 1) < 2 ^ d) by lia.
  apply Z.pow_lt_mono_r_iff in H1; [ | lia | lia ].
  apply Z.pow_lt_mono_r_iff in H2; [ | lia | lia ].
  lia.
Qed.

Lemma digits2_pos_scaled (M m : positive) (n : Z) :
  0 <= n -> Zpos M = Zpos m * 2 ^ n ->
  Zpos (digits2_pos M) = Zpos (digits2_pos m) + n.
Proof.
  intros Hn E. apply digits2_pos_unique.
  destruct (digits2_pos_bounds m) as [Hlo Hhi].
  assert (0 < 2 ^ n) by (apply Z.pow_pos_nonneg; lia).
  replace (Zpos (digits2_pos m) + n - 1) with ((Zpos (digits2_pos m) - 1) + n) by lia.
  rewrite !pow2_split by lia. rewrite E. nia.
Qed.

(** Rounding the integer multiple [M * 2^e] of a float of the format
    returns that float. *)
Lemma binary_round_exact (M : positive) (e : Z) (m : positive) (ec : Z) :
  bounded prec emax m ec = true ->
  e <= ec -> Zpos M = Zpos m * 2 ^ (ec - e) ->
  binary_round prec emax false M e = S754_finite false m ec.
Proof.
  intros B He EM. destruct (bounded_inv _ _ B) as [C Hmax].
  pose proof (digits2_pos_scaled M m (ec - e) ltac:(lia) EM) as HD.
  unfold binary_round. rewrite fexp_eq.
  replace (Z.max (Zpos (digits2_pos M) + e - 53) (-1074)) with ec by lia.
  unfold shl_align.
  destruct (ec - e) as [ | n | n ] eqn:En; try lia.
  - rewrite Z.pow_0_r, Z.mul_1_r in EM. injection EM as ->.
    replace e with ec by lia. apply binary_round_aux_canonical. exact B.
  - unfold binary_round_aux, shr_fexp. rewrite fexp_eq. cbn [Zdigits2].
    replace (Z.max (Zpos (digits2_pos M) + e - 53) (-1074) - e) with (Zpos n) by lia.
    cbn [shr shr_record_of_loc].
    destruct (iter_pos_shr_1 n {| shr_m := Zpos M; shr_r := false; shr_s := false |})
      as [Em Ex]; [ cbn; lia | ].
    cbn [shr_m] in Em, Ex.
    assert (H2n : 0 < 2 ^ Zpos n) by (apply Z.pow_pos_nonneg; lia).
    assert (Em' : shr_m (iter_pos shr_1 n {| shr_m := Zpos M; shr_r := false; shr_s := false |})
                  = Zpos m) by (rewrite Em, EM, Z.div_mul; lia).
    assert (Hx : nothing_lost (iter_pos shr_1 n {| shr_m := Zpos M; shr_r := false; shr_s := false |})).
    { apply Ex; [ split; reflexivity | rewrite EM; apply Z.mod_mul; lia ]. }
    apply nothing_lost_loc in Hx. rewrite Hx, Em'.
    cbn [round_nearest_even]. rewrite fexp_eq. cbn [Zdigits2].
    replace (Z.max (Zpos (digits2_pos m) + (e + Zpos n) - 53) (-1074) - (e + Zpos n)) with 0 by lia.
    cbn [shr shr_record_of_loc shr_m].
    replace (e + Zpos n <=? emax - prec) with true by (symmetry; apply Z.leb_le; unfold emax, prec; lia).
    f_equal. lia.
Qed.

Lemma shl_align_value (m : positive) (e e' : Z) :
  e' <= e -> Zpos (fst (shl_align m e e')) = Zpos m * 2 ^ (e - e').
Proof.
  intros He. unfold shl_align.
  destruct (e' - e) as [ | d | d ] eqn:Ed; try lia; cbn [fst].
  - replace (e - e') with 0 by lia. rewrite Z.pow_0_r. lia.
  - destruct (iter_xO_spec d m) as [V _]. rewrite V. f_equal. f_equal. lia.
Qed.

Lemma Zdigits2_range (k : Z) : 0 < k < 2 ^ 53 -> 1 <= Zdigits2 k <= 53.
Proof.
  intros Hk. destruct k as [ | q | q ]; try lia. cbn [Zdigits2].
  destruct (digits2_pos_bounds q) as [Hlo _].
  assert (Hlt : 2 ^ (Zpos (digits2_pos q) - 1) < 2 ^ 53) by lia.
  apply Z.pow_lt_mono_r_iff in Hlt; lia.
Qed.

(** Aligned with the double [1], a positive integer double has the
    mantissa [k * 2^52]. *)
Lemma of_int_aligned (k : Z) (m : positive) (e : Z) :
  0 < k < 2 ^ 53 -> e = Zdigits2 k - 53 -> Zpos m = k * 2 ^ (53 - Zdigits2 k) ->
  Z.min e (-52) = -52 /\
  Zpos (fst (shl_align m e (-52))) = k * 2 ^ 52.
Proof.
  intros Hk He Hm.
  pose proof (Zdigits2_range k Hk) as Hd.
  split; [ lia | ].
  rewrite shl_align_value by lia. rewrite Hm, <- Z.mul_assoc, <- pow2_split by lia.
  f_equal. f_equal. lia.
Qed.

Lemma of_uint63_pred (k : Z) :
  1 <= k < 2 ^ 53 ->
  (PrimFloat.of_uint63 (Uint63.of_Z k) - 1)%float = PrimFloat.of_uint63 (Uint63.of_Z (k - 1)).
Proof.
  intros Hk. apply Prim2SF_inj. rewrite sub_spec, Prim2SF_one.
  destruct (of_int_finite k ltac:(lia)) as (mk & ek & Ek & Bk & Hek & Hmk).
  rewrite Ek. unfold SF64sub, SFsub, SFone. cbn [cond_Zopp].
  destruct (of_int_aligned k mk ek ltac:(lia) Hek Hmk) as [Emin Eal].
  rewrite Emin, Eal.
  change (Zpos (fst (shl_align 4503599627370496 (-52) (-52)))) with (1 * 2 ^ 52).
  rewrite <- Z.mul_sub_distr_r.
  destruct (Z.eq_dec k 1) as [-> | Hk1]; [ reflexivity | ].
  destruct (of_int_finite (k - 1) ltac:(lia)) as (m' & e' & E' & B' & He' & Hm').
  rewrite E'.
  assert (Hpos : 0 < (k - 1) * 2 ^ 52) by (apply Z.mul_pos_pos; [ lia | reflexivity ]).
  destruct ((k - 1) * 2 ^ 52) as [ | M | M ] eqn:EM; try lia.
  cbn [binary_normalize].
  pose proof (Zdigits2_range (k - 1) ltac:(lia)) as Hd.
  apply binary_round_exact; [ exact B' | lia | ].
  rewrite <- EM, Hm', <- Z.mul_assoc, <- pow2_split by lia. f_equal. f_equal. lia.
Qed.

Lemma of_uint63_succ (k : Z) :
  0 <= k < 2 ^ 53 - 1 ->
  (PrimFloat.of_uint63 (Uint63.of_Z k) + 1)%float = PrimFloat.of_uint63 (Uint63.of_Z (k + 1)).
Proof.
  intros Hk. destruct (Z.eq_dec k 0) as [-> | Hk0]; [ reflexivity | ].
  apply Prim2SF_inj. rewrite add_spec, Prim2SF_one.
  destruct (of_int_finite k ltac:(lia)) as (mk & ek & Ek & Bk & Hek & Hmk).
  rewrite Ek. unfold SF64add, SFadd, SFone. cbn [cond_Zopp].
  destruct (of_int_aligned k mk ek ltac:(lia) Hek Hmk) as [Emin Eal].
  rewrite Emin, Eal.
  change (Zpos (fst (shl_align 4503599627370496 (-52) (-52)))) with (1 * 2 ^ 52).
  rewrite <- Z.mul_add_distr_r.
  destruct (of_int_finite (k + 1) ltac:(lia)) as (m' & e' & E' & B' & He' & Hm').
  rewrite E'.
  assert (Hpos : 0 < (k + 1) * 2 ^ 52) by (apply Z.mul_pos_pos; [ lia | reflexivity ]).
  destruct ((k + 1) * 2 ^ 52) as [ | M | M ] eqn:EM; try lia.
  cbn [binary_normalize].
  pose proof (Zdigits2_range (k + 1) ltac:(lia)) as Hd.
  apply binary_round_exact; [ exact B' | lia | ].
  rewrite <- EM, Hm', <- Z.mul_assoc, <- pow2_split by lia. f_equal. f_equal. lia.
Qed.

End Rounding.

(** ** Comparisons of doubles *)

Lemma SFcompare_antisym (x y : spec_float) :
  SFcompare y x = option_map CompOpp (SFcompare x y).
Proof.
  destruct x as [sx | sx | | sx mx ex], y as [sy | sy | | sy my ey];
    try reflexivity;
    try (destruct sx; reflexivity); try (destruct sy; reflexivity);
    try (destruct sx, sy; reflexivity).
  cbn [SFcompare option_map]. rewrite !Pos.compare_cont_spec. unfold Pos.switch_Eq.
  destruct (Z.compare_spec ex ey), (Z.compare_spec ey ex); try lia;
    destruct (Pos.compare_spec mx my), (Pos.compare_spec my mx); try lia;
    destruct sx, sy; reflexivity.
Qed.

Lemma SFcompare_refl (x : spec_float) :
  SFcompare x x = None \/ SFcompare x x = Some Eq.
Proof.
  destruct x as [s | s | | s m e]; cbn [SFcompare]; auto; right.
  - destruct s; reflexivity.
  - rewrite Z.compare_refl, Pos.compare_cont_refl. destruct s; reflexivity.
Qed.

Lemma leb_not_ltb (x y : float) :
  (x <=? y)%float = true -> (y <? x)%float = false.
Proof.
  rewrite leb_spec, ltb_spec. unfold SFleb, SFltb.
  rewrite (SFcompare_antisym (Prim2SF x) (Prim2SF y)).
  destruct (SFcompare (Prim2SF x) (Prim2SF y)) as [[ | | ] | ];
    cbn [option_map CompOpp]; congruence.
Qed.

Lemma ltb_irrefl (x : float) : (x <? x)%float = false.
Proof.
  rewrite ltb_spec. unfold SFltb.
  destruct (SFcompare_refl (Prim2SF x)) as [-> | ->]; reflexivity.
Qed.

(** A double that compares with another one is not [NaN], hence equal to
    itself. *)
Lemma leb_refl_of_leb (x y : float) :
  (x <=? y)%float = true -> (y <=? y)%float = true.
Proof.
  rewrite !leb_spec. unfold SFleb.
  destruct (SFcompare_refl (Prim2SF y)) as [E | ->]; [ | reflexivity ].
  destruct (Prim2SF x) as [sx | sx | | sx mx ex], (Prim2SF y) as [sy | sy | | sy my ey];
    cbn [SFcompare] in *; try discriminate; try reflexivity.
Qed.

Lemma is_finite_spec (x : float) : PrimFloat.is_finite x = SFis_finite (Prim2SF x).
Proof.
  unfold PrimFloat.is_finite, PrimFloat.is_nan, PrimFloat.is_infinity.
  rewrite !eqb_spec, abs_spec.
  change (Prim2SF infinity) with (S754_infinity false).
  unfold SFeqb.
  destruct (Prim2SF x) as [s | s | | s m e]; cbn [SFabs SFis_finite].
  - destruct s; reflexivity.
  - destruct s; reflexivity.
  - reflexivity.
  - cbn [SFcompare]. rewrite Z.compare_refl, Pos.compare_cont_refl. destruct s; reflexivity.
Qed.

Lemma of_int_nonneg (k : Z) :
  (0 <= k)%Z -> JS.of_int k = PrimFloat.of_uint63 (Uint63.of_Z k).
Proof.
  intros Hk. unfold JS.of_int.
  destruct (Z.ltb_spec k 0); [ lia | reflexivity ].
Qed.

Lemma unit_interval_one : unit_interval 1.
Proof. split; reflexivity. Qed.

(** The factor [(n - 1) / n] by which the estimator steps down. *)
Lemma at_risk_ratio_unit (k : Z) :
  (1 <= k < 2 ^ 53)%Z -> unit_interval (JS.of_int (k - 1) / JS.of_int k).
Proof.
  intros Hk. rewrite !of_int_nonneg by lia.
  apply at_risk_ratio_bounds. exact Hk.
Qed.

(** Counting in doubles: up to [2^53] a counter that is decremented or
    incremented by [1] holds the integer it is meant to hold, and at
    [2^53] an increment leaves it where it is. *)
Lemma of_int_pred (k : Z) :
  (1 <= k <= 2 ^ 53)%Z -> (JS.of_int k - 1)%float = JS.of_int (k - 1).
Proof.
  intros Hk. destruct (Z.eq_dec k (2 ^ 53)) as [-> | Hne]; [ reflexivity | ].
  rewrite !of_int_nonneg by lia. apply of_uint63_pred. lia.
Qed.

Lemma of_int_succ (k : Z) :
  (0 <= k <= 2 ^ 53)%Z ->
  (JS.of_int k + 1)%float = JS.of_int (Z.min (k + 1) (2 ^ 53)).
Proof.
  intros Hk.
  destruct (Z.eq_dec k (2 ^ 53)) as [-> | Hne]; [ reflexivity | ].
  destruct (Z.eq_dec k (2 ^ 53 - 1)) as [-> | Hne']; [ reflexivity | ].
  rewrite Z.min_l by lia.
  rewrite !of_int_nonneg by lia. apply of_uint63_succ. lia.
Qed.

(** ** The Kaplan-Meier estimator *)

Section KaplanMeier.
Variable time_of : Obs.t -> option float.

Local Abbreviation step := (KM.step time_of).
Local Abbreviation curve := (KM.curve time_of).
Local Abbreviation point_for := (KM.point_for time_of).

(** The callback appends one point per record, keeps the times and the
    flags, and moves the probability by the flags alone. *)
Lemma fold_step_length (data : list Obs.t) : forall st,
  length (KM.survival (fold_left step data st))
  = (length (KM.survival st) + length data)%nat.
Proof.
  induction data as [ | d rest IH ]; intros st; cbn [fold_left length].
  - lia.
  - rewrite IH. unfold KM.step. cbn [KM.survival]. rewrite length_app. cbn [length]. lia.
Qed.

Lemma fold_step_times (data : list Obs.t) : forall st,
  map Point.time (KM.survival (fold_left step data st))
  = map Point.time (KM.survival st) ++ map time_of data.
Proof.
  induction data as [ | d rest IH ]; intros st; cbn [fold_left map].
  - rewrite app_nil_r. reflexivity.
  - rewrite IH. unfold KM.step. cbn [KM.survival].
    rewrite map_app, <- app_assoc. reflexivity.
Qed.


(** The loop is the recursion of the specification: its counter [n] holds
    the number of records still to come. *)
Lemma fold_step_curve (data : list Obs.t) : forall st,
  (Z.of_nat (length data) < 2 ^ 53)%Z ->
  KM.n st = JS.of_int (Z.of_nat (length data)) ->
  KM.survival (fold_left step data st)
  = KM.survival st ++ curve (Z.of_nat (length data)) (KM.currentProb st) data.
Proof.
  induction data as [ | d rest IH ]; intros st Hlen Hn; cbn [fold_left KM.curve].
  - rewrite app_nil_r. reflexivity.
  - assert (Hpred : (KM.n st - 1)%float = JS.of_int (Z.of_nat (length rest))).
    { rewrite Hn, of_int_pred by (cbn [length] in *; lia).
      f_equal. cbn [length]. lia. }
    rewrite IH.
    + unfold KM.step. cbn [KM.survival KM.n KM.currentProb].
      rewrite <- app_assoc. cbn [app].
      replace (Z.of_nat (length (d :: rest)) - 1)%Z with (Z.of_nat (length rest))
        by (cbn [length]; lia).
      rewrite Hpred, Hn.
      destruct (Obs.censored d); reflexivity.
    + cbn [length] in Hlen. lia.
    + unfold KM.step. cbn [KM.n]. exact Hpred.
Qed.

Lemma run_curve (data : list Obs.t) :
  (Z.of_nat (length data) < 2 ^ 53)%Z ->
  KM.run time_of data = curve (Z.of_nat (length data)) 1 data.
Proof.
  intros Hlen. unfold KM.run. rewrite fold_step_curve by (exact Hlen || reflexivity).
  reflexivity.
Qed.

Lemma run_length (data : list Obs.t) : length (KM.run time_of data) = length data.
Proof. unfold KM.run. rewrite fold_step_length. reflexivity. Qed.

Lemma run_times (data : list Obs.t) :
  map Point.time (KM.run time_of data) = map time_of data.
Proof. unfold KM.run. rewrite fold_step_times. reflexivity. Qed.


Lemma length_curve (data : list Obs.t) : forall atRisk p,
  length (curve atRisk p data) = length data.
Proof.
  induction data as [ | d rest IH ]; intros atRisk p; cbn [KM.curve length];
    [ reflexivity | rewrite IH; reflexivity ].
Qed.

Lemma curve_times (data : list Obs.t) : forall atRisk p,
  map Point.time (curve atRisk p data) = map time_of data.
Proof.
  induction data as [ | d rest IH ]; intros atRisk p; cbn [KM.curve map];
    [ reflexivity | rewrite IH; reflexivity ].
Qed.

Lemma curve_censored (data : list Obs.t) : forall atRisk p,
  map Point.censored (curve atRisk p data) = map Obs.censored data.
Proof.
  induction data as [ | d rest IH ]; intros atRisk p; cbn [KM.curve map];
    [ reflexivity | rewrite IH; reflexivity ].
Qed.

(** Every point of the curve, read off the record at the same index and
    the probability of the point before it. *)
Lemma curve_nth (data : list Obs.t) : forall atRisk p i d,
  nth_error data i = Some d ->
  exists prev,
    nth_error (p :: map Point.probability (curve atRisk p data)) i = Some prev /\
    nth_error (curve atRisk p data) i
    = Some (point_for (atRisk - Z.of_nat i) prev d).
Proof.
  induction data as [ | d0 rest IH ]; intros atRisk p i d Hd.
  - destruct i; discriminate.
  - destruct i as [ | i ]; cbn [nth_error] in Hd.
    + injection Hd as ->. exists p. split; [ reflexivity | ].
      cbn [KM.curve nth_error Z.of_nat]. rewrite Z.sub_0_r. reflexivity.
    + cbn [KM.curve map nth_error].
      destruct (IH (atRisk - 1)%Z
                  (if Obs.censored d0 then p
                   else (p * (JS.of_int (atRisk - 1) / JS.of_int atRisk))%float)
                  i d Hd) as (prev & Hprev & Hpt).
      exists prev. split; [ exact Hprev | ].
      replace (atRisk - Z.of_nat (S i))%Z with (atRisk - 1 - Z.of_nat i)%Z by lia.
      exact Hpt.
Qed.

Lemma curve_nth_inv (data : list Obs.t) (atRisk : Z) (p : float) (i : nat) (pt : Point.t) :
  nth_error (curve atRisk p data) i = Some pt ->
  exists d, nth_error data i = Some d.
Proof.
  intros H.
  assert (Hi : (i < length data)%nat).
  { rewrite <- (length_curve data atRisk p). apply nth_error_Some. congruence. }
  destruct (nth_error data i) as [ d | ] eqn:E; [ exists d; reflexivity | ].
  apply nth_error_None in E. lia.
Qed.

(** Every probability of the curve lies between zero and any bound that
    the probability it starts from respects. *)
Lemma curve_bounded (data : list Obs.t) : forall p P,
  (Z.of_nat (length data) < 2 ^ 53)%Z ->
  (0 <=? p)%float = true -> (p <=? P)%float = true -> (P <=? 1)%float = true ->
  Forall (fun pt => (0 <=? Point.probability pt)%float = true /\
                    (Point.probability pt <=? P)%float = true)
         (curve (Z.of_nat (length data)) p data).
Proof.
  induction data as [ | d rest IH ]; intros p P Hlen H0 HP H1; cbn [KM.curve].
  - constructor.
  - set (p' := if Obs.censored d then p
               else (p * (JS.of_int (Z.of_nat (length (d :: rest)) - 1)
                          / JS.of_int (Z.of_nat (length (d :: rest)))))%float).
    assert (Hp' : (0 <=? p')%float = true /\ (p' <=? P)%float = true).
    { unfold p'. destruct (Obs.censored d); [ split; assumption | ].
      destruct (at_risk_ratio_unit (Z.of_nat (length (d :: rest)))) as [F0 F1].
      { cbn [length] in *. lia. }
      apply mul_unit_le; assumption. }
    destruct Hp' as [Hp0 HpP].
    constructor; [ split; assumption | ].
    replace (Z.of_nat (length (d :: rest)) - 1)%Z with (Z.of_nat (length rest))
      by (cbn [length]; lia).
    apply IH; try assumption. cbn [length] in Hlen. lia.
Qed.

(** The curve never rises. *)
Lemma curve_sorted (data : list Obs.t) : forall p,
  (Z.of_nat (length data) < 2 ^ 53)%Z -> unit_interval p ->
  StronglySorted
    (fun a b => (Point.probability b <=? Point.probability a)%float = true)
    (curve (Z.of_nat (length data)) p data).
Proof.
  induction data as [ | d rest IH ]; intros p Hlen [H0 H1]; cbn [KM.curve].
  - constructor.
  - set (p' := if Obs.censored d then p
               else (p * (JS.of_int (Z.of_nat (length (d :: rest)) - 1)
                          / JS.of_int (Z.of_nat (length (d :: rest)))))%float).
    assert (Hp' : (0 <=? p')%float = true /\ (p' <=? 1)%float = true).
    { unfold p'. destruct (Obs.censored d); [ split; assumption | ].
      destruct (at_risk_ratio_unit (Z.of_nat (length (d :: rest)))) as [F0 F1].
      { cbn [length] in *. lia. }
      apply mul_unit_le; try assumption. reflexivity. }
    destruct Hp' as [Hp0 Hp1].
    replace (Z.of_nat (length (d :: rest)) - 1)%Z with (Z.of_nat (length rest))
      by (cbn [length]; lia).
    assert (Hlen' : (Z.of_nat (length rest) < 2 ^ 53)%Z) by (cbn [length] in Hlen; lia).
    constructor.
    + apply IH; [ exact Hlen' | split; assumption ].
    + cbn [Point.probability].
      eapply Forall_impl; [ | apply (curve_bounded rest p' p' Hlen' Hp0) ].
      * intros pt [_ H]. exact H.
      * apply (leb_refl_of_leb 0 p'). exact Hp0.
      * exact Hp1.
Qed.

(** A strict drop from one point to the next happens at an uncensored
    record only. *)
Lemma curve_drop (data : list Obs.t) (atRisk : Z) (p : float) (i : nat) (a b : Point.t) :
  nth_error (curve atRisk p data) i = Some a ->
  nth_error (curve atRisk p data) (S i) = Some b ->
  (Point.probability b <? Point.probability a)%float = true ->
  Point.censored b = false.
Proof.
  intros Ha Hb Hlt.
  destruct (curve_nth_inv data atRisk p (S i) b Hb) as [d Hd].
  destruct (curve_nth data atRisk p (S i) d Hd) as (prev & Hprev & Hpt).
  cbn [nth_error] in Hprev. rewrite nth_error_map, Ha in Hprev.
  cbn [option_map] in Hprev. injection Hprev as <-.
  rewrite Hb in Hpt. injection Hpt as ->.
  unfold KM.point_for in *. cbn [Point.probability Point.censored] in *.
  destruct (Obs.censored d); [ | reflexivity ].
  rewrite ltb_irrefl in Hlt. discriminate.
Qed.

End KaplanMeier.







(** C4.  The points come out in the order of the records, with their
    times and flags, so for a dataset sorted by time the order of the
    output is the order of time; along it the probabilities never rise,
    and where the probability of a point is strictly below that of the
    point before it, the point is that of an uncensored record.  (The
    length bound holds of every JavaScript array.) *)
Theorem kaplan_meier_non_increasing :
  forall data : list Obs.t,
    (Z.of_nat (length data) < 2 ^ 53)%Z ->
    map Point.time (calculateKaplanMeier data) = map Cox_time data /\
    map Point.censored (calculateKaplanMeier data) = map Obs.censored data /\
    non_increasing (calculateKaplanMeier data) /\
    (forall i a b,
       nth_error (calculateKaplanMeier data) i = Some a ->
       nth_error (calculateKaplanMeier data) (S i) = Some b ->
       (Point.probability b <? Point.probability a)%float = true ->
       Point.censored b = false).
Proof.
  intros data Hlen. unfold calculateKaplanMeier, non_increasing.
  rewrite run_curve by exact Hlen. repeat split.
  - apply curve_times.
  - apply curve_censored.
  - apply curve_sorted; [ exact Hlen | exact unit_interval_one ].
  - intros i a b. apply curve_drop.
Qed.

Lemma kaplan_meier_non_increasing_witness :
  non_increasing (calculateKaplanMeier [uncensored_at 1; censored_at 2; uncensored_at 3]).
Proof.
  apply (kaplan_meier_non_increasing [uncensored_at 1; censored_at 2; uncensored_at 3]).
  reflexivity.
Defined.

(** C9, as stated, fails: the only point of a dataset of one uncensored
    record has probability [0], which is not strictly positive. *)
Lemma kaplan_meier_reaches_zero :
  map Point.probability (calculateKaplanMeier [uncensored_at 1]) = [0%float] /\
  ~ Forall (fun pt => (0 <? Point.probability pt)%float = true /\
                      (Point.probability pt <=? 1)%float = true)
           (calculateKaplanMeier [uncensored_at 1]).
Proof.
  split; [ reflexivity | ].
  intros H. inversion H as [ | pt rest [H0 _] _ ]. discriminate H0.
Qed.




(** ** The line fit *)

Lemma numbers_all (values : list float) :
  Forall (fun v => PrimFloat.is_nan v = false) values -> D3.numbers values = values.
Proof.
  unfold D3.numbers. induction 1 as [ | v rest Hv _ IH ]; cbn [filter].
  - reflexivity.
  - rewrite Hv. cbn [negb]. rewrite IH. reflexivity.
Qed.

Lemma sum_total (values : list float) :
  Forall (fun v => PrimFloat.is_nan v = false) values ->
  D3.sum values = LeastSquares.total values.
Proof. intros H. unfold D3.sum. rewrite numbers_all by exact H. reflexivity. Qed.

Lemma mean_arithmetic (values : list float) :
  Forall (fun v => PrimFloat.is_nan v = false) values ->
  JS.to_number (D3.mean values) = LeastSquares.arithmetic_mean values.
Proof.
  intros H. unfold D3.mean. rewrite numbers_all by exact H.
  destruct values; reflexivity.
Qed.

Lemma mapi_combine {B : Type} (g : float -> option float -> B) (X : list float) :
  forall (Y before : list float),
    length X = length Y ->
    map (fun iv => g (snd iv) (nth_error (before ++ Y) (fst iv)))
        (combine (seq (length before) (length X)) X)
    = map (fun xy => g (fst xy) (Some (snd xy))) (combine X Y).
Proof.
  induction X as [ | x X' IH ]; intros [ | y Y' ] before Hlen; try discriminate.
  - reflexivity.
  - cbn [length seq combine map fst snd].
    rewrite nth_error_app2, Nat.sub_diag by apply Nat.le_refl. cbn [nth_error].
    f_equal.
    specialize (IH Y' (before ++ [y])).
    rewrite <- app_assoc, length_app in IH. cbn [app length] in IH.
    rewrite Nat.add_1_r in IH. apply IH.
    cbn [length] in Hlen. congruence.
Qed.

Lemma points_x (X : list float) : forall Y,
  length X = length Y -> map Datum.x (points X Y) = X.
Proof.
  unfold points.
  induction X as [ | x X' IH ]; intros [ | y Y' ] H; try discriminate; [ reflexivity | ].
  cbn [combine map fst Datum.x]. rewrite IH by (cbn [length] in H; congruence). reflexivity.
Qed.

Lemma points_y (X : list float) : forall Y,
  length X = length Y -> map Datum.y (points X Y) = Y.
Proof.
  unfold points.
  induction X as [ | x X' IH ]; intros [ | y Y' ] H; try discriminate; [ reflexivity | ].
  cbn [combine map snd Datum.y]. rewrite IH by (cbn [length] in H; congruence). reflexivity.
Qed.

(** Division by a zero, and arithmetic on what comes of it. *)
Lemma SFdiv_zero_not_finite (a d : spec_float) :
  SFeqb d SFzero = true -> SFis_finite (SF64div a d) = false.
Proof.
  destruct d as [sd | sd | | sd md ed]; try discriminate.
  - intros _. destruct a; reflexivity.
  - destruct sd; discriminate.
  - destruct sd; discriminate.
Qed.

Lemma SFmul_not_finite (a b : spec_float) :
  SFis_finite a = false -> SFis_finite (SF64mul a b) = false.
Proof. destruct a; try discriminate; intros _; destruct b; reflexivity. Qed.

Lemma SFsub_not_finite (a b : spec_float) :
  SFis_finite b = false -> SFis_finite (SF64sub a b) = false.
Proof.
  destruct b as [sb | sb | | sb mb eb]; try discriminate; intros _.
  - destruct a as [sa | sa | | sa ma ea]; try reflexivity. destruct sa, sb; reflexivity.
  - destruct a; reflexivity.
Qed.

Lemma degenerate_line (ssxy xMean yMean d : float) :
  (d =? 0)%float = true ->
  PrimFloat.is_finite (ssxy / d) = false /\
  PrimFloat.is_finite (yMean - ssxy / d * xMean) = false.
Proof.
  intros Hd. rewrite eqb_spec in Hd. change (Prim2SF 0) with SFzero in Hd.
  assert (H : SFis_finite (Prim2SF (ssxy / d)) = false).
  { rewrite div_spec. apply SFdiv_zero_not_finite. exact Hd. }
  split; rewrite is_finite_spec; [ exact H | ].
  rewrite sub_spec, mul_spec. apply SFsub_not_finite, SFmul_not_finite. exact H.
Qed.

(** C2, as stated, fails: [d3.sum] skips the terms that are [NaN].  On
    X = 1e308, 1e308, 5 and Y = 2, 2, 2 the sum of X overflows, the mean
    of X is infinite, every squared deviation is infinite and every cross
    product is [NaN]: both components sum no cross product at all and
    return the slope 0 with the intercept [NaN], where the plain sum of
    the cross products, and with it the slope [ssxy / ssxx], is [NaN]. *)
Lemma line_fit_skips_nan_terms :
  length [1e308; 1e308; 5]%float = length [2; 2; 2]%float /\
  (2 <= length [1e308; 1e308; 5]%float)%nat /\
  (1e308 =? 5)%float = false /\
  map (fun x => (x - LeastSquares.arithmetic_mean [1e308; 1e308; 5])
                * (2 - LeastSquares.arithmetic_mean [2; 2; 2]))%float
      [1e308; 1e308; 5]%float
  = [PrimFloat.nan; PrimFloat.nan; PrimFloat.nan] /\
  MultipleRegression_fit [1e308; 1e308; 5]%float [2; 2; 2]%float
  = {| Fit.slope := 0; Fit.intercept := PrimFloat.nan |} /\
  LinearRegression_fit (points [1e308; 1e308; 5]%float [2; 2; 2]%float)
  = {| Fit.slope := 0; Fit.intercept := PrimFloat.nan |} /\
  LeastSquares.slope [1e308; 1e308; 5]%float [2; 2; 2]%float = PrimFloat.nan /\
  LeastSquares.intercept [1e308; 1e308; 5]%float [2; 2; 2]%float = PrimFloat.nan /\
  PrimFloat.is_nan (Fit.slope (MultipleRegression_fit [1e308; 1e308; 5] [2; 2; 2])%float)
  = false.
Proof.
  split; [ reflexivity | ]. split; [ apply le_S, le_n | ].
  repeat split; vm_compute; reflexivity.
Qed.

(** C2, amended.  On columns of numbers (no [NaN] among the values, the squared
    deviations and the cross products, which [d3] would skip), both
    components return the slope [ssxy / ssxx] and the intercept
    [mean Y - slope * mean X], the means being sums divided by the length
    and [ssxx], [ssxy] the plain sums of the squared deviations and of the
    cross products.  On X = 1, 2, 3 and Y = 2, 4, 6 the line has slope 2
    and intercept 0, and passes through the three points: no line has a
    smaller sum of squared residuals. *)
Theorem line_fit_formulas :
  forall X Y : list float,
    length X = length Y ->
    Forall (fun v => PrimFloat.is_nan v = false) (LeastSquares.terms X Y) ->
    MultipleRegression_fit X Y
    = {| Fit.slope := LeastSquares.slope X Y; Fit.intercept := LeastSquares.intercept X Y |} /\
    LinearRegression_fit (points X Y)
    = {| Fit.slope := LeastSquares.slope X Y; Fit.intercept := LeastSquares.intercept X Y |} /\
    MultipleRegression_fit [1; 2; 3]%float [2; 4; 6]%float
    = {| Fit.slope := 2; Fit.intercept := 0 |} /\
    LinearRegression_fit (points [1; 2; 3]%float [2; 4; 6]%float)
    = {| Fit.slope := 2; Fit.intercept := 0 |} /\
    map (fun x => 2 * x + 0)%float [1; 2; 3]%float = [2; 4; 6]%float.
Proof.
  intros X Y Hlen Hterms.
  unfold LeastSquares.terms in Hterms.
  apply Forall_app in Hterms. destruct Hterms as [HX Hterms].
  apply Forall_app in Hterms. destruct Hterms as [HY Hterms].
  apply Forall_app in Hterms. destruct Hterms as [Hxx Hxy].
  assert (Essxx : ssxx X = LeastSquares.ssxx X).
  { unfold ssxx, LeastSquares.ssxx, JS.Math_pow2.
    rewrite mean_arithmetic by exact HX. apply sum_total. exact Hxx. }
  repeat split; try reflexivity.
  - unfold MultipleRegression_fit, LeastSquares.intercept, LeastSquares.slope,
      LeastSquares.ssxy.
    rewrite Essxx, !mean_arithmetic by assumption.
    unfold mapi.
    pose proof (mapi_combine
               (fun x oy => ((x - LeastSquares.arithmetic_mean X)
                             * (JS.to_number oy - LeastSquares.arithmetic_mean Y))%float)
               X Y [] Hlen) as Hmap.
    cbn [app length JS.to_number] in Hmap. rewrite Hmap.
    rewrite sum_total by exact Hxy. reflexivity.
  - unfold LinearRegression_fit, LeastSquares.intercept, LeastSquares.slope,
      LeastSquares.ssxy.
    rewrite points_x, points_y by assumption.
    rewrite Essxx, !mean_arithmetic by assumption.
    unfold points. rewrite !map_map. cbn [Datum.x Datum.y].
    rewrite sum_total by exact Hxy. reflexivity.
Qed.

Lemma line_fit_formulas_witness :
  MultipleRegression_fit [1; 2; 5]%float [2; 4; 7]%float
  = {| Fit.slope := LeastSquares.slope [1; 2; 5]%float [2; 4; 7]%float;
       Fit.intercept := LeastSquares.intercept [1; 2; 5]%float [2; 4; 7]%float |}.
Proof.
  apply (line_fit_formulas [1; 2; 5]%float [2; 4; 7]%float).
  - reflexivity.
  - repeat constructor.
Defined.

(** C3, as stated, fails: on two points with the same X both components
    return a line, with slope and intercept [NaN], and signal nothing. *)
Lemma line_fit_identical_x :
  MultipleRegression_fit [1; 1]%float [2; 3]%float
  = {| Fit.slope := PrimFloat.nan; Fit.intercept := PrimFloat.nan |} /\
  LinearRegression_fit (points [1; 1]%float [2; 3]%float)
  = {| Fit.slope := PrimFloat.nan; Fit.intercept := PrimFloat.nan |}.
Proof. split; reflexivity. Qed.

(** Identical X values need not make [ssxx] zero: the mean of three
    times 0.1 is not 0.1 in doubles, the deviations are tiny instead of
    zero, and a finite line comes out. *)
Lemma line_fit_identical_x_rounded :
  (ssxx [0.1; 0.1; 0.1] =? 0)%float = false /\
  PrimFloat.is_finite (Fit.slope (MultipleRegression_fit [0.1; 0.1; 0.1] [2; 3; 5])%float)
  = true.
Proof. split; reflexivity. Qed.

(** C3, amended.  Whenever [ssxx] is zero, both components return a line
    whose slope and intercept are not finite: no error is signalled. *)
Theorem line_fit_degenerate :
  forall (X Y : list float) (data : list Datum.t),
    (ssxx X =? 0)%float = true ->
    map Datum.x data = X ->
    PrimFloat.is_finite (Fit.slope (MultipleRegression_fit X Y)) = false /\
    PrimFloat.is_finite (Fit.intercept (MultipleRegression_fit X Y)) = false /\
    PrimFloat.is_finite (Fit.slope (LinearRegression_fit data)) = false /\
    PrimFloat.is_finite (Fit.intercept (LinearRegression_fit data)) = false.
Proof.
  intros X Y data Hss <-.
  unfold MultipleRegression_fit, LinearRegression_fit. cbn [Fit.slope Fit.intercept].
  split; [ | split; [ | split ] ].
  - exact (proj1 (degenerate_line _ 0 0 _ Hss)).
  - exact (proj2 (degenerate_line _ _ _ _ Hss)).
  - exact (proj1 (degenerate_line _ 0 0 _ Hss)).
  - exact (proj2 (degenerate_line _ _ _ _ Hss)).
Qed.

Lemma line_fit_degenerate_witness :
  PrimFloat.is_finite (Fit.slope (MultipleRegression_fit [1; 1]%float [2; 3]%float)) = false.
Proof.
  apply (line_fit_degenerate [1; 1]%float [2; 3]%float (points [1; 1]%float [2; 3]%float));
    reflexivity.
Defined.

(** ** The Poisson sampler *)

Section Sampler.
Variable Math_exp : float -> float.
Variable random : nat -> float.

Local Abbreviation loop := (Poisson.loop random).
Local Abbreviation product := (Poisson.product random).

(** The loop leaves at the first pass after which the running product
    is no longer above [L], its counter holding the number of passes made
    (or [2^53], where a counter in doubles stops advancing). *)
Lemma loop_first_exit (j : nat) : forall fuel L k p i,
  (0 <= k <= 2 ^ 53)%Z ->
  (j < fuel)%nat ->
  (L <? product p i (S j))%float = false ->
  (forall j', (j' < j)%nat -> (L <? product p i (S j'))%float = true) ->
  loop fuel L (JS.of_int k) p i
  = Some (JS.of_int (Z.min (k + Z.of_nat j + 1) (2 ^ 53)), (i + j + 1)%nat).
Proof.
  induction j as [ | j IH ]; intros fuel L k p i Hk Hfuel Hexit Hbefore;
    (destruct fuel as [ | fuel ]; [ lia | ]); cbn [Poisson.loop];
    rewrite of_int_succ by exact Hk.
  - cbn [Poisson.product] in Hexit. rewrite Hexit.
    do 2 f_equal; [ f_equal | ]; lia.
  - pose proof (Hbefore 0%nat ltac:(lia)) as H0. cbn [Poisson.product] in H0.
    rewrite H0.
    rewrite (IH fuel L (Z.min (k + 1) (2 ^ 53)) (p * random i)%float (S i)).
    + do 2 f_equal; [ f_equal | ]; lia.
    + lia.
    + lia.
    + exact Hexit.
    + intros j' Hj'. apply (Hbefore (S j')). lia.
Qed.

(** The index of the first pass, when some pass brings the product to
    [L] or below. *)
Lemma first_exit_exists (L p : float) (i : nat) (j : nat) :
  (L <? product p i (S j))%float = false ->
  exists j0, (j0 <= j)%nat /\
    (L <? product p i (S j0))%float = false /\
    (forall j', (j' < j0)%nat -> (L <? product p i (S j'))%float = true).
Proof.
  induction j as [ j IH ] using lt_wf_ind. intros Hexit.
  destruct (existsb (fun j' => negb (L <? product p i (S j'))%float) (seq 0 j)) eqn:E.
  - apply existsb_exists in E. destruct E as (j' & Hin & Hj').
    apply in_seq in Hin. apply negb_true_iff in Hj'.
    destruct (IH j' ltac:(lia) Hj') as (j0 & Hle & H0 & Hmin).
    exists j0. repeat split; try assumption. lia.
  - exists j. repeat split; [ lia | exact Hexit | ].
    intros j' Hj'.
    destruct (L <? product p i (S j'))%float eqn:E'; [ reflexivity | exfalso ].
    assert (Hex : existsb (fun j' => negb (L <? product p i (S j'))%float) (seq 0 j) = true).
    { apply existsb_exists. exists j'. split; [ apply in_seq; lia | ].
      rewrite E'. reflexivity. }
    congruence.
Qed.

(** Whatever the loop returns is the count of its passes. *)
Lemma loop_result (fuel : nat) : forall L k p i k' i',
  (0 <= k <= 2 ^ 53)%Z ->
  loop fuel L (JS.of_int k) p i = Some (k', i') ->
  exists j : nat,
    k' = JS.of_int (Z.min (k + Z.of_nat j + 1) (2 ^ 53)) /\ i' = (i + j + 1)%nat.
Proof.
  induction fuel as [ | fuel IH ]; intros L k p i k' i' Hk; cbn [Poisson.loop];
    [ discriminate | ].
  rewrite of_int_succ by exact Hk.
  destruct (L <? p * random i)%float.
  - intros H. apply IH in H; [ | lia ]. destruct H as (j & -> & ->).
    exists (S j). split; [ f_equal | ]; lia.
  - intros H. injection H as <- <-. exists 0%nat. split; [ f_equal | ]; lia.
Qed.

(** On a source that keeps returning [1] the product stays at [1]. *)
Lemma loop_stuck (fuel : nat) : forall L k i,
  (forall j, random j = 1%float) ->
  (L <? 1)%float = true ->
  loop fuel L k 1 i = None.
Proof.
  induction fuel as [ | fuel IH ]; intros L k i Hone HL; cbn [Poisson.loop];
    [ reflexivity | ].
  rewrite Hone. change (1 * 1)%float with 1%float. rewrite HL.
  apply IH; assumption.
Qed.
End Sampler.

(** C5.  At rate zero, where [L = Math.exp(-0) = 1], the sampler returns
    0 after exactly one draw, whatever the draws of the unit interval. *)
Theorem poissonSample_zero_rate :
  forall (Math_exp : float -> float) (random : nat -> float) (fuel i : nat),
    Math_exp (- 0)%float = 1%float ->
    (forall j, unit_interval (random j)) ->
    Poisson.poissonSample Math_exp random (S fuel) 0 i = Some (0%float, S i).
Proof.
  intros Math_exp random fuel i Hexp Hdraws.
  unfold Poisson.poissonSample. rewrite Hexp. cbn [Poisson.loop].
  destruct (Hdraws i) as [H0 H1].
  destruct (mul_unit_le 1 (random i) 1) as [_ Hle]; try assumption; try reflexivity.
  rewrite (leb_not_ltb _ _ Hle). reflexivity.
Qed.

Lemma poissonSample_zero_rate_witness :
  Poisson.poissonSample Poisson.exp_model (fun _ => 0.5%float) 1 0 0
  = Some (0%float, 1%nat).
Proof.
  apply (poissonSample_zero_rate Poisson.exp_model (fun _ => 0.5%float) 0 0).
  - reflexivity.
  - intros j. split; reflexivity.
Defined.

(** On a source that keeps returning [1], the sampler never leaves its
    loop at a rate whose [L] is below [1]. *)
Lemma poissonSample_stuck (Math_exp : float -> float) (lambda : float) (fuel i : nat) :
  (Math_exp (- lambda) <? 1)%float = true ->
  Poisson.poissonSample Math_exp (fun _ => 1%float) fuel lambda i = None.
Proof.
  intros HL. unfold Poisson.poissonSample.
  rewrite loop_stuck; [ reflexivity | reflexivity | exact HL ].
Qed.

(** On draws strictly inside the unit interval the loop does not end
    either, once the product has come down to the smallest normal double:
    multiplied by the largest double below [1] it is rounded back to
    itself, and at a rate whose [L] has underflowed to [0] the loop goes
    on. *)
Lemma poissonSample_underflow_stalls :
  let random := fun j : nat =>
    match j with O => 0x1p-1022%float | S _ => 0x1.fffffffffffffp-1%float end in
  Poisson.exp_model (- 800) = 0%float /\
  forall fuel, Poisson.poissonSample Poisson.exp_model random fuel 800 0 = None.
Proof.
  intros random. split; [ reflexivity | ].
  assert (Hstall : forall fuel k i,
            Poisson.loop random fuel 0 k 0x1p-1022%float (S i) = None).
  { induction fuel as [ | fuel IH ]; intros k i; cbn [Poisson.loop]; [ reflexivity | ].
    cbn [random].
    change (0x1p-1022 * 0x1.fffffffffffffp-1)%float with 0x1p-1022%float.
    change (0 <? 0x1p-1022)%float with true. cbv iota. apply IH. }
  intros [ | fuel ]; [ reflexivity | ].
  unfold Poisson.poissonSample.
  change (Poisson.exp_model (- 800)) with 0%float.
  cbn [Poisson.loop random].
  change (1 * 0x1p-1022)%float with 0x1p-1022%float.
  change (0 <? 0x1p-1022)%float with true. cbv iota.
  rewrite Hstall. reflexivity.
Qed.

(** C6, as stated, fails.  At rate 1, where [L] is about 0.368, and on
    the source of the unit interval that keeps returning [1], the product
    stays at [1] and the sampler returns with no amount of fuel.  At rate
    800, where [L] has underflowed to [0], it does not return either on
    draws below 1: the product stalls at the smallest normal double. *)
Lemma poissonSample_can_diverge :
  unit_interval 1 /\
  (0 <=? 1)%float = true /\
  (Poisson.exp_model (- 1) <? 1)%float = true /\
  (~ exists fuel result,
       Poisson.poissonSample Poisson.exp_model (fun _ => 1%float) fuel 1 0 = Some result) /\
  draw 0x1p-1022 /\ draw below_one /\
  (0 <=? 800)%float = true /\
  Poisson.exp_model (- 800) = 0%float /\
  (~ exists fuel result,
       Poisson.poissonSample Poisson.exp_model
         (fun j : nat => match j with O => 0x1p-1022%float | S _ => below_one end)
         fuel 800 0 = Some result).
Proof.
  split; [ split; reflexivity | ]. split; [ reflexivity | ]. split; [ reflexivity | ].
  split.
  { intros (fuel & result & H).
    rewrite poissonSample_stuck in H; [ discriminate | reflexivity ]. }
  split; [ split; reflexivity | ]. split; [ split; reflexivity | ].
  split; [ reflexivity | ]. split; [ reflexivity | ].
  intros (fuel & result & H).
  unfold below_one in H.
  rewrite (proj2 poissonSample_underflow_stalls fuel) in H. discriminate.
Qed.

(** Where the running product is at [L] or below after some pass, the
    sampler returns the number of passes that came before the first such
    pass (capped at [2^53 - 1], where a counter in doubles stops
    advancing), having made one call to the random source per pass. *)
Lemma poissonSample_first_exit (Math_exp : float -> float) (random : nat -> float)
    (lambda : float) (i j : nat) :
  (Math_exp (- lambda) <? Poisson.product random 1 i (S j))%float = false ->
  exists k : nat,
    (k <= j)%nat /\
    (forall fuel, (k < fuel)%nat ->
       Poisson.poissonSample Math_exp random fuel lambda i
       = Some (JS.of_int (Z.min (Z.of_nat k) (2 ^ 53 - 1)), (i + k + 1)%nat)) /\
    (Math_exp (- lambda) <? Poisson.product random 1 i (S k))%float = false /\
    (forall k', (k' < k)%nat ->
       (Math_exp (- lambda) <? Poisson.product random 1 i (S k'))%float = true).
Proof.
  intros Hexit.
  destruct (first_exit_exists random _ _ _ _ Hexit) as (k & Hle & Hk & Hmin).
  exists k. repeat split; try assumption.
  intros fuel Hfuel. unfold Poisson.poissonSample.
  change 0%float with (JS.of_int 0) at 1.
  rewrite (loop_first_exit random k fuel _ 0 1 i ltac:(lia) Hfuel Hk Hmin).
  rewrite of_int_pred by lia.
  do 3 f_equal. lia.
Qed.

(** ** The generators *)

(** C7: the censoring flag of a cancer sample is set when the fourth draw
    of the callback is above 0.3.  Of ten equally spaced draws seven set
    it: the flag is raised on seven tenths of the unit interval, where
    the comment beside it announces a censoring rate of 30%.  The
    survival time follows the stated formula, and the dataset comes out
    in ascending order of it on the example source. *)
Theorem cancer_sample_censoring :
  (forall u_age u_stage u_time u_censored : float,
     Cancer.censored (Cancer.sample u_age u_stage u_time u_censored)
     = (0.3 <? u_censored)%float /\
     Cancer.survivalTime (Cancer.sample u_age u_stage u_time u_censored)
     = JS.Math_max 1 (60 - (40 + u_age * 40) / 10
                         - (JS.Math_floor (u_stage * 4) + 1) * 6 + u_time * 20)%float) /\
  Cancer.sample 0.5 0.5 0.5 0.5
  = {| Cancer.age := 60; Cancer.stage := 3; Cancer.survivalTime := 46;
       Cancer.censored := true |} /\
  length (filter (fun u => Cancer.censored (Cancer.sample 0.5 0.5 0.5 u)) Cancer.midpoints)
  = 7%nat /\
  length Cancer.midpoints = 10%nat /\
  length (Cancer.data Cancer.example_source) = 100%nat /\
  Cancer.ascending (map Cancer.survivalTime (Cancer.data Cancer.example_source)) = true.
Proof.
  repeat split; vm_compute; reflexivity.
Qed.

(** C8: the generator of [PoissonRegression.js] draws the count from the
    sampler at the rate [(bedCount / 20) * (1 - staffRatio)], and the count
    is a non-negative integer; the generator of the same name on the home
    page does not call the sampler but takes the floor of one draw times
    ten times the rate.  On the source that keeps returning 0.5 the first
    yields 2 infections and the second 7. *)
Theorem hospital_infections_generators :
  (forall Math_exp random fuel i s i',
     Hospital.sample Math_exp random fuel i = Some (s, i') ->
     Poisson.poissonSample Math_exp random fuel
       (Hospital.rate (Hospital.bedCount s) (Hospital.staffRatio s)) (i + 2)
     = Some (Hospital.infections s, i') /\
     exists k : Z, (0 <= k)%Z /\ Hospital.infections s = JS.of_int k) /\
  (forall random i,
     exists s, Hospital.Home_sample random i = Some (s, i + 3) /\
       Hospital.infections s
       = JS.Math_floor (random (i + 2)%nat
                        * Hospital.rate (Hospital.bedCount s) (Hospital.staffRatio s) * 10)%float) /\
  Hospital.sample Poisson.exp_model (fun _ => 0.5%float) 100 0
  = Some ({| Hospital.bedCount := 55; Hospital.staffRatio := 0.45;
             Hospital.infections := 2 |}, 5) /\
  Hospital.Home_sample (fun _ => 0.5%float) 0
  = Some ({| Hospital.bedCount := 55; Hospital.staffRatio := 0.45;
             Hospital.infections := 7 |}, 3).
Proof.
  split; [ | split; [ | split; reflexivity ] ].
  - intros Math_exp random fuel i s i'.
    unfold Hospital.sample, Poisson.poissonSample.
    change 0%float with (JS.of_int 0) at 1 2.
    destruct (Poisson.loop random fuel _ (JS.of_int 0) 1 (i + 2)) as [[k0 i1] | ] eqn:El;
      [ | discriminate ].
    intros H. injection H as <- <-.
    cbn [Hospital.infections Hospital.bedCount Hospital.staffRatio].
    split; [ rewrite El; reflexivity | ].
    apply loop_result in El; [ | lia ]. destruct El as (j & -> & _).
    exists (Z.min (0 + Z.of_nat j + 1) (2 ^ 53) - 1)%Z.
    split; [ lia | apply of_int_pred; lia ].
  - intros random i. eexists. split; reflexivity.
Qed.

(** ** Brackets around a rounded result

    A double that bounds the exact result of an operation on one side
    bounds its rounded result on the same side. *)

Local Open Scope Z_scope.

Lemma Zdigits2_bounds (m : Z) :
  0 < m -> 2 ^ (Zdigits2 m - 1) <= m < 2 ^ Zdigits2 m.
Proof.
  intros Hm. destruct m as [ | q | q ]; try lia. cbn [Zdigits2].
  apply digits2_pos_bounds.
Qed.

(** What truncation to the format returns: the mantissa divided by the
    power of two that brings the exponent up to that of the format. *)
Lemma shr_fexp_spec (m e : Z) (l : location) (mrs : shr_record) (e' : Z) :
  0 <= m -> shr_fexp prec emax m e l = (mrs, e') ->
  e' = e + Z.max 0 (fexp prec emax (Zdigits2 m + e) - e) /\
  shr_m mrs = m / 2 ^ Z.max 0 (fexp prec emax (Zdigits2 m + e) - e).
Proof.
  intros Hm. unfold shr_fexp, shr.
  destruct (fexp prec emax (Zdigits2 m + e) - e) as [ | p | p ] eqn:En;
    intros E; inversion E; subst mrs e'; clear E.
  - rewrite shr_record_of_loc_m. cbn [Z.max Z.compare]. rewrite Z.pow_0_r, Z.div_1_r. lia.
  - assert (Hm' : 0 <= shr_m (shr_record_of_loc m l)) by (rewrite shr_record_of_loc_m; lia).
    destruct (iter_pos_shr_1 p _ Hm') as [Eq1 _].
    rewrite shr_record_of_loc_m in Eq1.
    rewrite Z.max_r by lia. split; [ reflexivity | exact Eq1 ].
  - rewrite shr_record_of_loc_m. rewrite Z.max_l by lia.
    rewrite Z.pow_0_r, Z.div_1_r. lia.
Qed.

Lemma pow2_pos (k : Z) : 0 <= k -> 0 < 2 ^ k.
Proof. intros; apply Z.pow_pos_nonneg; lia. Qed.

Lemma pow2_le (a b : Z) : 0 <= a <= b -> 2 ^ a <= 2 ^ b.
Proof. intros; apply Z.pow_le_mono_r; lia. Qed.

(** Rounding a value that lies above a float of the format yields a float
    that is not below it. *)
Lemma binary_round_aux_ge (m e : Z) (l : location) (mP : positive) (eP c : Z) :
  0 <= m -> e <= fexp prec emax (Zdigits2 m + e) ->
  bounded prec emax mP eP = true ->
  c <= e -> c <= eP ->
  Zpos mP * 2 ^ (eP - c) < (m + 1) * 2 ^ (e - c) ->
  SFleb (S754_finite false mP eP) (binary_round_aux prec emax false m e l) = true.
Proof.
  intros Hm HD HB Hce HcP HP.
  destruct (bounded_inv _ _ HB) as [CP _].
  destruct (digits2_pos_bounds mP) as [HPlo HPhi].
  unfold binary_round_aux.
  destruct (shr_fexp prec emax m e l) as [mrs1 e1] eqn:E1.
  destruct (shr_fexp_spec _ _ _ _ _ Hm E1) as [He1 Hm1].
  rewrite fexp_eq in HD, He1, Hm1.
  set (n := Z.max 0 (Z.max (Zdigits2 m + e - 53) (-1074) - e)) in *.
  assert (Hn : 0 <= n) by (unfold n; lia).
  assert (H2n : 0 < 2 ^ n) by (apply pow2_pos; lia).
  set (m1 := shr_m mrs1) in *.
  assert (Hm1pos : 0 <= m1) by (rewrite Hm1; apply Z.div_pos; lia).
  (* the float lies below the truncated value *)
  assert (Hsucc : m + 1 <= (m1 + 1) * 2 ^ n).
  { rewrite Hm1. pose proof (Z.mul_succ_div_gt m (2 ^ n) H2n). lia. }
  assert (Ee1 : 2 ^ (e1 - c) = 2 ^ n * 2 ^ (e - c)).
  { rewrite <- pow2_split by lia. f_equal. lia. }
  assert (HX : 0 < 2 ^ (e - c)) by (apply pow2_pos; lia).
  assert (HP1 : Zpos mP * 2 ^ (eP - c) < (m1 + 1) * 2 ^ (e1 - c)).
  { rewrite Ee1. nia. }
  assert (He1min : -1074 <= e1) by (unfold n in He1; lia).
  assert (Hd : Zpos mP * 2 ^ (eP - c) <= m1 * 2 ^ (e1 - c)).
  { destruct (Z.le_gt_cases e1 eP) as [Hle | Hgt].
    - assert (Es : 2 ^ (eP - c) = 2 ^ (eP - e1) * 2 ^ (e1 - c)).
      { rewrite <- pow2_split by lia. f_equal. lia. }
      assert (0 < 2 ^ (e1 - c)) by (apply pow2_pos; lia).
      rewrite Es in HP1 |- *. rewrite Z.mul_assoc in HP1 |- *.
      apply Z.mul_lt_mono_pos_r in HP1; [ | assumption ].
      apply Z.mul_le_mono_nonneg_r; lia.
    - assert (Hm0 : 0 < m).
      { destruct (Z.eq_dec m 0) as [-> | ]; [ | lia ]. cbn [Zdigits2] in *. lia. }
      destruct (Zdigits2_bounds m Hm0) as [Hmlo _].
      assert (En : n = Zdigits2 m - 53) by (unfold n; lia).
      assert (H52 : 2 ^ 52 <= m1).
      { rewrite Hm1. apply Z.div_le_lower_bound; [ lia | ].
        rewrite Z.mul_comm, <- pow2_split by lia.
        replace (52 + n) with (Zdigits2 m - 1) by lia. exact Hmlo. }
      assert (HmP : Zpos mP < 2 ^ 53).
      { eapply Z.lt_le_trans; [ exact HPhi | apply pow2_le; lia ]. }
      assert (Es : 2 ^ (e1 - c) = 2 ^ (e1 - eP) * 2 ^ (eP - c)).
      { rewrite <- pow2_split by lia. f_equal. lia. }
      assert (2 ^ 1 <= 2 ^ (e1 - eP)) by (apply pow2_le; lia).
      assert (0 < 2 ^ (eP - c)) by (apply pow2_pos; lia).
      rewrite Es. change (2 ^ 53) with (2 * 2 ^ 52) in HmP. change (2 ^ 1) with 2 in *.
      nia. }
  destruct (round_nearest_even_bounds m1 (loc_of_shr_record mrs1)) as [[Hr1 Hr2] _].
  set (m2 := round_nearest_even m1 (loc_of_shr_record mrs1)) in *.
  assert (HX1 : 0 < 2 ^ (e1 - c)) by (apply pow2_pos; lia).
  assert (Hd2 : Zpos mP * 2 ^ (eP - c) <= m2 * 2 ^ (e1 - c)) by nia.
  assert (HXP : 0 < 2 ^ (eP - c)) by (apply pow2_pos; lia).
  assert (Hm2 : 0 < m2) by nia.
  destruct (shr_fexp prec emax m2 e1 loc_Exact) as [mrs2 e2] eqn:E2.
  destruct (shr_fexp_spec _ _ _ _ _ (Z.lt_le_incl _ _ Hm2) E2) as [He2 Hm3].
  rewrite fexp_eq in He2, Hm3.
  destruct (Zdigits2_bounds m2 Hm2) as [H2lo H2hi].
  set (n2 := Z.max 0 (Z.max (Zdigits2 m2 + e1 - 53) (-1074) - e1)) in *.
  assert (Hn2 : 0 <= n2) by (unfold n2; lia).
  assert (H2n2 : 0 < 2 ^ n2) by (apply pow2_pos; lia).
  (* the exponent of the float is not above that of the result *)
  assert (HeP : eP <= e2).
  { destruct (Z.le_gt_cases eP e2) as [ | Hgt ]; [ assumption | exfalso ].
    assert (HdP : Zpos (digits2_pos mP) = 53) by lia.
    rewrite HdP in HPlo. change (2 ^ (53 - 1)) with (2 ^ 52) in HPlo.
    assert (Hd2le : Zdigits2 m2 <= 53 + e2 - e1) by (unfold n2 in He2; lia).
    assert (Hm2lt : m2 < 2 ^ (53 + e2 - e1)).
    { eapply Z.lt_le_trans; [ exact H2hi | apply pow2_le; split; [ | lia ] ].
      destruct m2; cbn [Zdigits2]; lia. }
    assert (Es : 2 ^ (eP - c) = 2 ^ (eP - e2 - 1) * (2 * (2 ^ (e2 - e1) * 2 ^ (e1 - c)))).
    { replace 2 with (2 ^ 1) at 3 by reflexivity.
      rewrite <- !pow2_split by lia. f_equal. lia. }
    assert (Es2 : 2 ^ (53 + e2 - e1) = 2 * 2 ^ 52 * 2 ^ (e2 - e1)).
    { change (2 * 2 ^ 52) with (2 ^ 53). rewrite <- pow2_split by lia. f_equal. lia. }
    assert (HA : 0 < 2 ^ (eP - e2 - 1)) by (apply pow2_pos; lia).
    assert (HB2 : 0 < 2 ^ (e2 - e1)) by (apply pow2_pos; lia).
    rewrite Es in Hd2. rewrite Es2 in Hm2lt.
    apply (Z.mul_lt_mono_pos_r (2 ^ (e1 - c))) in Hm2lt; [ | assumption ].
    assert (HY : 0 < 2 ^ (e2 - e1) * 2 ^ (e1 - c)) by (apply Z.mul_pos_pos; assumption).
    replace (2 * 2 ^ 52 * 2 ^ (e2 - e1) * 2 ^ (e1 - c))
      with (2 ^ 52 * (2 * (2 ^ (e2 - e1) * 2 ^ (e1 - c)))) in Hm2lt by ring.
    revert Hd2 Hm2lt HY HPlo. generalize (2 ^ (e2 - e1) * 2 ^ (e1 - c)).
    generalize (2 ^ 52). generalize (m2 * 2 ^ (e1 - c)).
    revert HA. generalize (2 ^ (eP - e2 - 1)). clear.
    intros a HA v t y Hd2 Hlt HY Hlo.
    assert (t * (2 * y) <= Zpos mP * (a * (2 * y))); [ | lia ].
    replace (Zpos mP * (a * (2 * y))) with (Zpos mP * a * (2 * y)) by ring.
    apply Z.mul_le_mono_nonneg_r; nia. }
  assert (Hm3pos : 0 < shr_m mrs2).
  { rewrite Hm3. apply Z.div_str_pos. split; [ lia | ].
    destruct (Z.eq_dec n2 0) as [-> | Hn0]; [ rewrite Z.pow_0_r; lia | ].
    assert (En2 : n2 = Zdigits2 m2 - 53) by (unfold n2 in *; lia).
    eapply Z.le_trans; [ | exact H2lo ]. apply pow2_le. lia. }
  destruct (shr_m mrs2) as [ | m3 | m3 ] eqn:Em3; try lia.
  destruct (e2 <=? emax - prec); [ | reflexivity ].
  unfold SFleb, SFcompare.
  destruct (Z.compare_spec eP e2) as [Ee | Ee | Ee]; [ | reflexivity | lia ].
  rewrite Pos.compare_cont_spec. unfold Pos.switch_Eq.
  destruct (Pos.compare_spec mP m3) as [ | | Hgt ]; try reflexivity. exfalso.
  assert (Es : 2 ^ (eP - c) = 2 ^ n2 * 2 ^ (e1 - c)).
  { rewrite <- pow2_split by lia. f_equal. lia. }
  rewrite Es in Hd2.
  rewrite Z.mul_assoc in Hd2.
  apply Z.mul_le_mono_pos_r in Hd2; [ | assumption ].
  assert (Hle : Zpos mP * 2 ^ n2 <= m2) by exact Hd2.
  assert (Zpos mP <= m2 / 2 ^ n2) by (apply Z.div_le_lower_bound; lia).
  lia.
Qed.

(** ** Upper bound, scaled *)

Lemma bounded_emin (m : positive) (e : Z) : bounded prec emax m e = true -> -1074 <= e.
Proof. intros B. destruct (bounded_inv _ _ B). lia. Qed.

Lemma binary_round_aux_le_scaled (m e : Z) (l : location) (mP : positive) (eP c : Z) :
  0 <= m -> e <= fexp prec emax (Zdigits2 m + e) ->
  bounded prec emax mP eP = true ->
  c <= e -> c <= eP ->
  m * 2 ^ (e - c) <= Zpos mP * 2 ^ (eP - c) ->
  (l <> loc_Exact -> m * 2 ^ (e - c) < Zpos mP * 2 ^ (eP - c)) ->
  SFleb (binary_round_aux prec emax false m e l) (S754_finite false mP eP) = true.
Proof.
  intros Hm HD HB Hce HcP Hle Hlt.
  destruct (bounded_inv _ _ HB) as [CP _].
  rewrite fexp_eq in HD.
  assert (HX : 0 < 2 ^ (e - c)) by (apply pow2_pos; lia).
  assert (HY : 0 < 2 ^ (eP - c)) by (apply pow2_pos; lia).
  assert (He : e <= eP).
  { destruct (Z.eq_dec m 0) as [-> | Hm0]; [ cbn [Zdigits2] in HD; lia | ].
    destruct (Zdigits2_bounds m ltac:(lia)) as [Hlo _].
    destruct (digits2_pos_bounds mP) as [_ Hhi].
    assert (Hd : 0 < Zdigits2 m) by (destruct m; cbn [Zdigits2]; lia).
    assert (Hlt' : 2 ^ (Zdigits2 m - 1 + (e - c)) < 2 ^ (Zpos (digits2_pos mP) + (eP - c))).
    { rewrite !pow2_split by lia.
      apply Z.le_lt_trans with (m * 2 ^ (e - c)).
      - apply Z.mul_le_mono_nonneg_r; lia.
      - apply Z.le_lt_trans with (Zpos mP * 2 ^ (eP - c)); [ exact Hle | ].
        apply Z.mul_lt_mono_pos_r; lia. }
    apply Z.pow_lt_mono_r_iff in Hlt'; lia. }
  assert (Es : 2 ^ (eP - c) = 2 ^ (eP - e) * 2 ^ (e - c)).
  { rewrite <- pow2_split by lia. f_equal. lia. }
  rewrite Es, Z.mul_assoc in Hle, Hlt.
  apply binary_round_aux_le; try assumption.
  - apply Z.mul_le_mono_pos_r in Hle; assumption.
  - intros Hl. specialize (Hlt Hl). apply Z.mul_lt_mono_pos_r in Hlt; assumption.
Qed.

(** ** Signs *)

Lemma binary_round_aux_opp (m e : Z) (l : location) :
  binary_round_aux prec emax true m e l = SFopp (binary_round_aux prec emax false m e l).
Proof.
  unfold binary_round_aux.
  destruct (shr_fexp prec emax m e l) as [mrs1 e1].
  destruct (shr_fexp prec emax _ e1 loc_Exact) as [mrs2 e2].
  destruct (shr_m mrs2); try reflexivity.
  destruct (e2 <=? emax - prec); reflexivity.
Qed.

Lemma SFcompare_opp (x y : spec_float) :
  SFcompare (SFopp x) (SFopp y) = SFcompare y x.
Proof.
  destruct x as [sx | sx | | sx mx ex], y as [sy | sy | | sy my ey];
    try reflexivity;
    try (destruct sx; reflexivity); try (destruct sy; reflexivity);
    try (destruct sx, sy; reflexivity).
  cbn [SFcompare SFopp]. rewrite !Pos.compare_cont_spec. unfold Pos.switch_Eq.
  destruct (Z.compare_spec ex ey), (Z.compare_spec ey ex); try lia;
    destruct (Pos.compare_spec mx my), (Pos.compare_spec my mx); try lia;
    destruct sx, sy; reflexivity.
Qed.

Lemma SFleb_opp (x y : spec_float) : SFleb (SFopp x) (SFopp y) = SFleb y x.
Proof. unfold SFleb. rewrite SFcompare_opp. reflexivity. Qed.

Lemma SFopp_involutive (x : spec_float) : SFopp (SFopp x) = x.
Proof. destruct x; cbn; rewrite ?negb_involutive; reflexivity. Qed.

Lemma SFval_opp (x : spec_float) : SFval (SFopp x) = - SFval x.
Proof. destruct x as [ | | | [ | ] m e]; cbn [SFopp SFval cond_Zopp negb]; lia. Qed.

(** A rounded non-negative value is a non-negative float or [+infinity]. *)
Lemma binary_round_aux_sign (m e : Z) (l : location) :
  0 <= m ->
  match binary_round_aux prec emax false m e l with
  | S754_zero s | S754_infinity s | S754_finite s _ _ => s = false
  | S754_nan => False
  end.
Proof.
  intros Hm. unfold binary_round_aux.
  destruct (shr_fexp prec emax m e l) as [mrs1 e1] eqn:E1.
  destruct (shr_fexp_spec _ _ _ _ _ Hm E1) as [_ Hm1].
  destruct (round_nearest_even_bounds (shr_m mrs1) (loc_of_shr_record mrs1)) as [[Hr1 _] _].
  assert (H1 : 0 <= shr_m mrs1).
  { rewrite Hm1. apply Z.div_pos; [ lia | apply pow2_pos; lia ]. }
  set (m2 := round_nearest_even (shr_m mrs1) (loc_of_shr_record mrs1)) in *.
  assert (H1' : 0 <= m2) by lia.
  destruct (shr_fexp prec emax m2 e1 loc_Exact) as [mrs2 e2] eqn:E2.
  destruct (shr_fexp_spec _ _ _ _ _ H1' E2) as [_ Hm2].
  assert (H2 : 0 <= shr_m mrs2).
  { rewrite Hm2. apply Z.div_pos; [ lia | apply pow2_pos; lia ]. }
  destruct (shr_m mrs2); try lia; try reflexivity.
  destruct (e2 <=? emax - prec); reflexivity.
Qed.

(** ** Bracket for a rounded value *)

(** [binary_round_aux s m e l] rounds a value [x] whose magnitude lies in
    [[m * 2^e, (m+1) * 2^e)]; every float of the format that bounds [x] on
    one side bounds the rounded value on that side. *)
Lemma round_bracket (s : bool) (m e : Z) (l : location) (P : spec_float) (c : Z) :
  0 <= m -> (0 < m \/ l <> loc_Exact) ->
  e <= fexp prec emax (Zdigits2 m + e) ->
  SFfinite_valid P -> c <= e -> c <= -1074 ->
  let p := SFval P * 2 ^ (-1074 - c) in
  let a := m * 2 ^ (e - c) in
  let b := (m + 1) * 2 ^ (e - c) in
  let r := binary_round_aux prec emax s m e l in
  if s then
    (- b < p -> SFleb r P = true) /\
    (p <= - a -> (l <> loc_Exact -> p < - a) -> SFleb P r = true)
  else
    (a <= p -> (l <> loc_Exact -> a < p) -> SFleb r P = true) /\
    (p < b -> SFleb P r = true).
Proof.
  intros Hm Hx HD [VP FP] Hce Hc p a b r.
  assert (HX : 0 < 2 ^ (e - c)) by (apply pow2_pos; lia).
  assert (HS : 0 < 2 ^ (-1074 - c)) by (apply pow2_pos; lia).
  assert (Ha : 0 <= a) by (unfold a; nia).
  assert (Hab : a < b) by (unfold a, b; nia).
  assert (Hxa : 0 < a \/ l <> loc_Exact).
  { destruct Hx as [Hx | Hx]; [ left; unfold a; nia | right; exact Hx ]. }
  (* the positive case *)
  assert (Pos : forall Q, SFfinite_valid Q ->
            let q := SFval Q * 2 ^ (-1074 - c) in
            (a <= q -> (l <> loc_Exact -> a < q) ->
             SFleb (binary_round_aux prec emax false m e l) Q = true) /\
            (q < b -> SFleb Q (binary_round_aux prec emax false m e l) = true)).
  { intros Q [VQ FQ] q.
    pose proof (binary_round_aux_sign m e l Hm) as Hsign.
    destruct Q as [sQ | sQ | | sQ mQ eQ]; try discriminate.
    - (* zero *)
      cbn [SFval] in q. split.
      + unfold q. intros H1 H2. exfalso. destruct Hxa as [H | H]; [ lia | specialize (H2 H); lia ].
      + intros _. destruct (binary_round_aux prec emax false m e l) as [s' | s' | | s' m' e'];
          try contradiction; subst s'; destruct sQ; reflexivity.
    - cbn [valid_binary] in VQ. pose proof (bounded_emin _ _ VQ) as HeQ.
      assert (Eq : Zpos mQ * 2 ^ (eQ + 1074) * 2 ^ (-1074 - c) = Zpos mQ * 2 ^ (eQ - c)).
      { rewrite <- Z.mul_assoc, <- pow2_split by lia. f_equal. f_equal. lia. }
      assert (HQ : 0 < Zpos mQ * 2 ^ (eQ - c)).
      { apply Z.mul_pos_pos; [ lia | apply pow2_pos; lia ]. }
      destruct sQ.
      + (* negative *)
        assert (q < 0).
        { unfold q. cbn [SFval cond_Zopp]. rewrite Z.mul_opp_l, Eq. lia. }
        split.
        * intros H1 H2. lia.
        * intros _. destruct (binary_round_aux prec emax false m e l) as [s' | s' | | s' m' e'];
            try contradiction; subst s'; reflexivity.
      + unfold q. cbn [SFval cond_Zopp]. rewrite Eq. split.
        * intros H1 H2. apply binary_round_aux_le_scaled with (c := c); try assumption; lia.
        * intros H1. apply binary_round_aux_ge with (c := c); try assumption; lia. }
  destruct s.
  - unfold r. rewrite binary_round_aux_opp.
    assert (VP' : SFfinite_valid (SFopp P)).
    { split; destruct P; try discriminate; assumption. }
    destruct (Pos (SFopp P) VP') as [U L]. rewrite SFval_opp in U, L.
    split.
    + intros H. rewrite <- (SFopp_involutive P), SFleb_opp. apply L. fold p. lia.
    + intros H1 H2. rewrite <- (SFopp_involutive P), SFleb_opp. apply U.
      * fold p. lia.
      * intros Hl. specialize (H2 Hl). fold p. lia.
  - destruct (Pos P (conj VP FP)) as [U L]. split; assumption.
Qed.

(** ** Comparison is comparison of values *)

Lemma bounded_digits (m : positive) (e : Z) :
  bounded prec emax m e = true ->
  -1074 <= e <= 971 /\ Zpos m < 2 ^ 53 /\ (-1074 < e -> 2 ^ 52 <= Zpos m).
Proof.
  intros B. destruct (bounded_inv _ _ B) as [C Hmax].
  destruct (digits2_pos_bounds m) as [Hlo Hhi].
  split; [ lia | ]. split.
  - eapply Z.lt_le_trans; [ exact Hhi | apply pow2_le; lia ].
  - intros He. replace 52 with (Zpos (digits2_pos m) - 1) by lia. exact Hlo.
Qed.

Lemma canonical_lt (m1 : positive) (e1 : Z) (m2 : positive) (e2 : Z) :
  bounded prec emax m1 e1 = true -> bounded prec emax m2 e2 = true ->
  e1 < e2 -> Zpos m1 * 2 ^ (e1 + 1074) < Zpos m2 * 2 ^ (e2 + 1074).
Proof.
  intros B1 B2 He.
  destruct (bounded_digits _ _ B1) as (R1 & H1 & _).
  destruct (bounded_digits _ _ B2) as (R2 & _ & H2). specialize (H2 ltac:(lia)).
  assert (Es : 2 ^ (e2 + 1074) = 2 ^ (e2 - e1) * 2 ^ (e1 + 1074)).
  { rewrite <- pow2_split by lia. f_equal. lia. }
  assert (HX : 0 < 2 ^ (e1 + 1074)) by (apply pow2_pos; lia).
  assert (H2e : 2 ^ 1 <= 2 ^ (e2 - e1)) by (apply pow2_le; lia).
  change (2 ^ 1) with 2 in H2e. change (2 ^ 53) with (2 * 2 ^ 52) in H1.
  rewrite Es, Z.mul_assoc. apply Z.mul_lt_mono_pos_r; [ assumption | ].
  revert H1 H2 H2e. generalize (2 ^ 52) (2 ^ (e2 - e1)). intros; nia.
Qed.

Lemma SFcompare_pos (m1 : positive) (e1 : Z) (m2 : positive) (e2 : Z) :
  bounded prec emax m1 e1 = true -> bounded prec emax m2 e2 = true ->
  match e1 ?= e2 with
  | Lt => Lt
  | Gt => Gt
  | Eq => Pos.compare_cont Eq m1 m2
  end = (Zpos m1 * 2 ^ (e1 + 1074) ?= Zpos m2 * 2 ^ (e2 + 1074)).
Proof.
  intros B1 B2.
  destruct (Z.compare_spec e1 e2) as [E | L | G].
  - subst e2. rewrite Pos.compare_cont_spec. unfold Pos.switch_Eq.
    pose proof (bounded_emin _ _ B1).
    assert (HX : 0 < 2 ^ (e1 + 1074)) by (apply pow2_pos; lia).
    symmetry. destruct (Pos.compare_spec m1 m2) as [E | L | G].
    + subst. apply Z.compare_refl.
    + apply Z.compare_lt_iff. apply Z.mul_lt_mono_pos_r; [ assumption | lia ].
    + apply Z.compare_gt_iff. apply Z.mul_lt_mono_pos_r; [ assumption | lia ].
  - symmetry. apply Z.compare_lt_iff. apply canonical_lt; assumption.
  - symmetry. apply Z.compare_gt_iff. apply canonical_lt; assumption.
Qed.

Lemma SFval_pos (m : positive) (e : Z) : -1074 <= e -> 0 < Zpos m * 2 ^ (e + 1074).
Proof. intros. apply Z.mul_pos_pos; [ lia | apply pow2_pos; lia ]. Qed.

(** On the finite floats of the format, comparison is the comparison of
    the values. *)
Lemma SFcompare_val (x y : spec_float) :
  SFfinite_valid x -> SFfinite_valid y ->
  SFcompare x y = Some (SFval x ?= SFval y).
Proof.
  intros [Vx Fx] [Vy Fy].
  destruct x as [sx | sx | | sx mx ex]; try discriminate;
  destruct y as [sy | sy | | sy my ey]; try discriminate; cbn [SFcompare SFval].
  - reflexivity.
  - pose proof (SFval_pos my ey (bounded_emin _ _ Vy)).
    f_equal. symmetry. destruct sy; cbn [cond_Zopp].
    + apply Z.compare_gt_iff. lia.
    + apply Z.compare_lt_iff. lia.
  - pose proof (SFval_pos mx ex (bounded_emin _ _ Vx)).
    f_equal. symmetry. destruct sx; cbn [cond_Zopp].
    + apply Z.compare_lt_iff. lia.
    + apply Z.compare_gt_iff. lia.
  - pose proof (SFval_pos mx ex (bounded_emin _ _ Vx)).
    pose proof (SFval_pos my ey (bounded_emin _ _ Vy)).
    cbn [valid_binary] in Vx, Vy.
    f_equal. destruct sx, sy; cbn [cond_Zopp].
    + rewrite Z.compare_opp, (Z.compare_antisym (Zpos mx * 2 ^ (ex + 1074))).
      rewrite <- (SFcompare_pos _ _ _ _ Vx Vy).
      destruct (ex ?= ey); reflexivity.
    + symmetry. apply Z.compare_lt_iff. lia.
    + symmetry. apply Z.compare_gt_iff. lia.
    + apply SFcompare_pos; assumption.
Qed.

Lemma SFleb_val (x y : spec_float) :
  SFfinite_valid x -> SFfinite_valid y ->
  (SFleb x y = true <-> SFval x <= SFval y).
Proof.
  intros Hx Hy. unfold SFleb. rewrite (SFcompare_val x y Hx Hy).
  destruct (Z.compare_spec (SFval x) (SFval y)); split; intros; try reflexivity; try lia;
    discriminate.
Qed.

Lemma SFltb_val (x y : spec_float) :
  SFfinite_valid x -> SFfinite_valid y ->
  (SFltb x y = true <-> SFval x < SFval y).
Proof.
  intros Hx Hy. unfold SFltb. rewrite (SFcompare_val x y Hx Hy).
  destruct (Z.compare_spec (SFval x) (SFval y)); split; intros; try reflexivity; try lia;
    discriminate.
Qed.

Lemma SFzero_valid (s : bool) : SFfinite_valid (S754_zero s).
Proof. split; reflexivity. Qed.

(** ** Multiplication *)

Lemma Zdigits2_ge (m : Z) (d : Z) : 0 <= d -> 2 ^ d <= m -> d + 1 <= Zdigits2 m.
Proof.
  intros Hd H. assert (Hm : 0 < m).
  { pose proof (pow2_pos d Hd). lia. }
  destruct (Zdigits2_bounds m Hm) as [_ Hhi].
  assert (Hlt : 2 ^ d < 2 ^ Zdigits2 m) by lia.
  apply Z.pow_lt_mono_r_iff in Hlt; [ lia | lia | ].
  destruct m; cbn [Zdigits2]; lia.
Qed.

Lemma SFmul_bracket (x y P : spec_float) :
  SFfinite_valid x -> SFfinite_valid y -> SFfinite_valid P ->
  (SFval x * SFval y <= SFval P * 2 ^ 1074 -> SFleb (SF64mul x y) P = true) /\
  (SFval P * 2 ^ 1074 <= SFval x * SFval y -> SFleb P (SF64mul x y) = true).
Proof.
  intros [Vx Fx] [Vy Fy] HP.
  assert (HS : 0 < 2 ^ 1074) by (apply pow2_pos; lia).
  assert (Z0 : forall s, (0 <= SFval P * 2 ^ 1074 -> SFleb (S754_zero s) P = true) /\
                         (SFval P * 2 ^ 1074 <= 0 -> SFleb P (S754_zero s) = true)).
  { intros s. split; intros H.
    - apply (SFleb_val _ _ (SFzero_valid s) HP). cbn [SFval].
      apply (Z.mul_le_mono_pos_r 0 (SFval P) _ HS). exact H.
    - apply (SFleb_val _ _ HP (SFzero_valid s)). cbn [SFval].
      apply (Z.mul_le_mono_pos_r (SFval P) 0 _ HS). exact H. }
  destruct x as [sx | sx | | sx mx ex]; try discriminate;
  destruct y as [sy | sy | | sy my ey]; try discriminate;
    unfold SF64mul; cbn [SFmul SFval];
    rewrite ?Z.mul_0_l, ?Z.mul_0_r; try apply Z0.
  cbn [valid_binary] in Vx, Vy.
  destruct (bounded_digits _ _ Vx) as (Rx & Hx53 & Hx52).
  destruct (bounded_digits _ _ Vy) as (Ry & Hy53 & Hy52).
  assert (HD : ex + ey <= fexp prec emax (Zdigits2 (Zpos (mx * my)) + (ex + ey))).
  { rewrite fexp_eq.
    destruct (Z.eq_dec ex (-1074)) as [Ex | Ex]; [ destruct (Z.eq_dec ey (-1074)) as [Ey | Ey] | ];
      [ lia | | ].
    - specialize (Hy52 ltac:(lia)).
      assert (Hp : 2 ^ 52 <= Zpos (mx * my)).
      { rewrite Pos2Z.inj_mul. apply Z.le_trans with (1 * Zpos my); [ lia | ].
        apply Z.mul_le_mono_nonneg_r; lia. }
      pose proof (Zdigits2_ge (Zpos (mx * my)) 52 ltac:(lia) Hp) as Hd. lia.
    - specialize (Hx52 ltac:(lia)).
      assert (Hp : 2 ^ 52 <= Zpos (mx * my)).
      { rewrite Pos2Z.inj_mul. apply Z.le_trans with (Zpos mx * 1); [ lia | ].
        apply Z.mul_le_mono_nonneg_l; lia. }
      pose proof (Zdigits2_ge (Zpos (mx * my)) 52 ltac:(lia) Hp) as Hd. lia. }
  pose proof (round_bracket (xorb sx sy) (Zpos (mx * my)) (ex + ey) loc_Exact P (-2148)
                ltac:(lia) ltac:(left; lia) HD HP ltac:(lia) ltac:(lia)) as HR.
  cbv zeta in HR.
  replace (-1074 - -2148) with 1074 in HR by lia.
  assert (Ea : Zpos (mx * my) * 2 ^ (ex + ey - -2148)
               = (Zpos mx * 2 ^ (ex + 1074)) * (Zpos my * 2 ^ (ey + 1074))).
  { rewrite Pos2Z.inj_mul. replace (ex + ey - -2148) with ((ex + 1074) + (ey + 1074)) by lia.
    rewrite pow2_split by lia. ring. }
  assert (HX : 0 < 2 ^ (ex + ey - -2148)) by (apply pow2_pos; lia).
  rewrite Z.mul_add_distr_r, Z.mul_1_l, Ea in HR.
  set (vx := Zpos mx * 2 ^ (ex + 1074)) in *.
  set (vy := Zpos my * 2 ^ (ey + 1074)) in *.
  destruct sx, sy; cbn [xorb cond_Zopp] in *; destruct HR as [U L]; split; intros H;
    first [ apply U; lia | apply L; lia | apply U; [ lia | congruence ]
          | apply L; [ lia | congruence ] ].
Qed.

(** ** Addition and subtraction *)

Lemma shl_align_fexp_spec (M : positive) (e : Z) :
  -1074 <= e ->
  forall mz ez, shl_align M e (fexp prec emax (Zpos (digits2_pos M) + e)) = (mz, ez) ->
  -1074 <= ez /\ ez <= fexp prec emax (Zdigits2 (Zpos mz) + ez) /\
  Zpos mz * 2 ^ (ez + 1074) = Zpos M * 2 ^ (e + 1074).
Proof.
  intros He mz ez. unfold shl_align. rewrite fexp_eq.
  destruct (Z.max (Zpos (digits2_pos M) + e - 53) (-1074) - e) as [ | d | d ] eqn:Ed;
    intros E; apply pair_equal_spec in E; destruct E as [<- <-].
  - rewrite fexp_eq. cbn [Zdigits2]. repeat split; lia.
  - rewrite fexp_eq. cbn [Zdigits2]. repeat split; lia.
  - destruct (iter_xO_spec d M) as [V D].
    rewrite fexp_eq. unfold Zdigits2. rewrite D, V.
    split; [ lia | ]. split; [ lia | ].
    rewrite <- Z.mul_assoc, <- pow2_split by lia. f_equal. f_equal. lia.
Qed.

Lemma binary_round_bracket (s : bool) (M : positive) (e : Z) (P : spec_float) :
  -1074 <= e -> SFfinite_valid P ->
  let v := cond_Zopp s (Zpos M * 2 ^ (e + 1074)) in
  (v <= SFval P -> SFleb (binary_round prec emax s M e) P = true) /\
  (SFval P <= v -> SFleb P (binary_round prec emax s M e) = true).
Proof.
  intros He HP v. unfold binary_round.
  destruct (shl_align M e (fexp prec emax (Zpos (digits2_pos M) + e))) as [mz ez] eqn:E.
  destruct (shl_align_fexp_spec M e He mz ez E) as (Hez & HD & HV).
  pose proof (round_bracket s (Zpos mz) ez loc_Exact P (-1074)
                ltac:(lia) ltac:(left; lia) HD HP ltac:(lia) ltac:(lia)) as HR.
  cbv zeta in HR.
  replace (-1074 - -1074) with 0 in HR by lia. rewrite Z.pow_0_r, Z.mul_1_r in HR.
  replace (ez - -1074) with (ez + 1074) in HR by lia.
  rewrite Z.mul_add_distr_r, Z.mul_1_l, HV in HR.
  assert (HX : 0 < 2 ^ (ez + 1074)) by (apply pow2_pos; lia).
  unfold v. destruct s; cbn [cond_Zopp]; destruct HR as [U L]; split; intros H;
    first [ apply U; lia | apply L; lia | apply U; [ lia | congruence ]
          | apply L; [ lia | congruence ] ].
Qed.

Lemma binary_normalize_bracket (z e : Z) (P : spec_float) :
  -1074 <= e -> SFfinite_valid P ->
  (z * 2 ^ (e + 1074) <= SFval P -> SFleb (binary_normalize prec emax z e false) P = true) /\
  (SFval P <= z * 2 ^ (e + 1074) -> SFleb P (binary_normalize prec emax z e false) = true).
Proof.
  intros He HP. destruct z as [ | M | M ]; cbn [binary_normalize].
  - rewrite Z.mul_0_l. split; intros H.
    + apply (SFleb_val _ _ (SFzero_valid false) HP). exact H.
    + apply (SFleb_val _ _ HP (SFzero_valid false)). exact H.
  - apply (binary_round_bracket false M e P He HP).
  - pose proof (binary_round_bracket true M e P He HP) as H. cbv zeta in H. cbn [cond_Zopp] in H.
    replace (Zneg M * 2 ^ (e + 1074)) with (- (Zpos M * 2 ^ (e + 1074))) by lia. exact H.
Qed.

Lemma aligned_value (s : bool) (m : positive) (e ez : Z) :
  -1074 <= ez <= e ->
  cond_Zopp s (Zpos (fst (shl_align m e ez))) * 2 ^ (ez + 1074)
  = cond_Zopp s (Zpos m * 2 ^ (e + 1074)).
Proof.
  intros H. rewrite shl_align_value by lia.
  assert (E : Zpos m * 2 ^ (e - ez) * 2 ^ (ez + 1074) = Zpos m * 2 ^ (e + 1074)).
  { rewrite <- Z.mul_assoc, <- pow2_split by lia. f_equal. f_equal. lia. }
  destruct s; cbn [cond_Zopp]; lia.
Qed.

Lemma SFadd_bracket (x y P : spec_float) :
  SFfinite_valid x -> SFfinite_valid y -> SFfinite_valid P ->
  (SFval x + SFval y <= SFval P -> SFleb (SF64add x y) P = true) /\
  (SFval P <= SFval x + SFval y -> SFleb P (SF64add x y) = true).
Proof.
  intros Hx Hy HP.
  pose proof (fun s => SFleb_val (S754_zero s) P (SFzero_valid s) HP) as Z1.
  pose proof (fun s => SFleb_val P (S754_zero s) HP (SFzero_valid s)) as Z2.
  pose proof (SFleb_val x P Hx HP) as X1. pose proof (SFleb_val P x HP Hx) as X2.
  pose proof (SFleb_val y P Hy HP) as Y1. pose proof (SFleb_val P y HP Hy) as Y2.
  destruct Hx as [Vx Fx], Hy as [Vy Fy].
  destruct x as [sx | sx | | sx mx ex]; try discriminate;
  destruct y as [sy | sy | | sy my ey]; try discriminate;
    unfold SF64add; cbn [SFadd]; cbn [SFval] in *.
  - destruct sx, sy; split; intros H; first [ apply Z1 | apply Z2 ]; cbn [SFval]; lia.
  - split; intros H; [ apply Y1 | apply Y2 ]; lia.
  - split; intros H; [ apply X1 | apply X2 ]; lia.
  - cbn [valid_binary] in Vx, Vy.
    pose proof (bounded_emin _ _ Vx). pose proof (bounded_emin _ _ Vy).
    pose proof (binary_normalize_bracket
                  (cond_Zopp sx (Zpos (fst (shl_align mx ex (Z.min ex ey)))) +
                   cond_Zopp sy (Zpos (fst (shl_align my ey (Z.min ex ey)))))
                  (Z.min ex ey) P ltac:(lia) HP) as HR.
    rewrite Z.mul_add_distr_r, !aligned_value in HR by lia. exact HR.
Qed.

Lemma SFsub_bracket (x y P : spec_float) :
  SFfinite_valid x -> SFfinite_valid y -> SFfinite_valid P ->
  (SFval x - SFval y <= SFval P -> SFleb (SF64sub x y) P = true) /\
  (SFval P <= SFval x - SFval y -> SFleb P (SF64sub x y) = true).
Proof.
  intros Hx Hy HP.
  pose proof (fun s => SFleb_val (S754_zero s) P (SFzero_valid s) HP) as Z1.
  pose proof (fun s => SFleb_val P (S754_zero s) HP (SFzero_valid s)) as Z2.
  pose proof (SFleb_val x P Hx HP) as X1. pose proof (SFleb_val P x HP Hx) as X2.
  assert (Hy' : SFfinite_valid (SFopp y)).
  { destruct Hy; split; destruct y; try discriminate; assumption. }
  pose proof (SFleb_val (SFopp y) P Hy' HP) as Y1. pose proof (SFleb_val P (SFopp y) HP Hy') as Y2.
  rewrite SFval_opp in Y1, Y2.
  destruct Hx as [Vx Fx], Hy as [Vy Fy].
  destruct x as [sx | sx | | sx mx ex]; try discriminate;
  destruct y as [sy | sy | | sy my ey]; try discriminate;
    unfold SF64sub; cbn [SFsub]; cbn [SFval SFopp] in *.
  - destruct sx, sy; split; intros H; first [ apply Z1 | apply Z2 ]; cbn [SFval]; lia.
  - split; intros H; [ apply Y1 | apply Y2 ]; lia.
  - split; intros H; [ apply X1 | apply X2 ]; lia.
  - cbn [valid_binary] in Vx, Vy.
    pose proof (bounded_emin _ _ Vx). pose proof (bounded_emin _ _ Vy).
    pose proof (binary_normalize_bracket
                  (cond_Zopp sx (Zpos (fst (shl_align mx ex (Z.min ex ey)))) -
                   cond_Zopp sy (Zpos (fst (shl_align my ey (Z.min ex ey)))))
                  (Z.min ex ey) P ltac:(lia) HP) as HR.
    rewrite Z.mul_sub_distr_r, !aligned_value in HR by lia.
    exact HR.
Qed.

Lemma new_location_exact (n r : Z) : new_location n r = loc_Exact <-> r = 0.
Proof.
  unfold new_location, new_location_even, new_location_odd.
  destruct (Z.even n); destruct (Z.eqb_spec r 0); split; intros; try reflexivity;
    try assumption; try discriminate; try contradiction.
Qed.

Lemma quotient_bounds (n q r X p : Z) :
  0 < n -> 0 <= r < n -> 0 < X ->
  ((n * q + r) * X <= p * n -> q * X <= p /\ (0 < r -> q * X < p)) /\
  (p * n <= (n * q + r) * X -> p < (q + 1) * X).
Proof.
  intros Hn Hr HX.
  assert (H1 : 0 <= r * X) by (apply Z.mul_nonneg_nonneg; lia).
  assert (H2 : r * X < n * X) by (apply Z.mul_lt_mono_pos_r; lia).
  split; intros H.
  - split.
    + apply (Z.mul_le_mono_pos_l _ _ n Hn). lia.
    + intros Hr0. assert (0 < r * X) by (apply Z.mul_pos_pos; lia).
      apply (Z.mul_lt_mono_pos_l n _ _ Hn). lia.
  - apply (Z.mul_lt_mono_pos_l n _ _ Hn). lia.
Qed.

Lemma SFdiv_bracket (x y P : spec_float) :
  SFfinite_valid x -> SFfinite_valid y -> SFfinite_valid P -> 0 < SFval y ->
  (SFval x * 2 ^ 1074 <= SFval P * SFval y -> SFleb (SF64div x y) P = true) /\
  (SFval P * SFval y <= SFval x * 2 ^ 1074 -> SFleb P (SF64div x y) = true).
Proof.
  intros [Vx Fx] [Vy Fy] HP Hy.
  assert (HS : 0 < 2 ^ 1074) by (apply pow2_pos; lia).
  destruct y as [sy | sy | | sy my ey]; try discriminate; cbn [SFval] in Hy; try lia.
  cbn [valid_binary] in Vy.
  pose proof (SFval_pos my ey (bounded_emin _ _ Vy)) as Hvy.
  destruct sy; cbn [cond_Zopp] in Hy; [ lia | ]. cbn [SFval cond_Zopp].
  set (vy := Zpos my * 2 ^ (ey + 1074)) in *.
  destruct x as [sx | sx | | sx mx ex]; try discriminate; unfold SF64div; cbn [SFdiv SFval].
  - rewrite Z.mul_0_l. split; intros H.
    + apply (SFleb_val _ _ (SFzero_valid _) HP). cbn [SFval].
      apply (Z.mul_le_mono_pos_r 0 (SFval P) _ Hy). exact H.
    + apply (SFleb_val _ _ HP (SFzero_valid _)). cbn [SFval].
      apply (Z.mul_le_mono_pos_r (SFval P) 0 _ Hy). exact H.
  - cbn [valid_binary] in Vx.
    destruct (bounded_digits _ _ Vx) as (Rx & Hx53 & Hx52).
    destruct (bounded_digits _ _ Vy) as (Ry & Hy53 & Hy52).
    destruct (digits2_pos_bounds mx) as [Hxlo Hxhi].
    destruct (digits2_pos_bounds my) as [Hylo Hyhi].
    unfold SFdiv_core_binary. rewrite fexp_eq. cbn [Zdigits2].
    set (dx := Zpos (digits2_pos mx)) in *. set (dy := Zpos (digits2_pos my)) in *.
    set (e' := Z.min (Z.max (dx + ex - (dy + ey) - 53) (-1074)) (ex - ey)).
    assert (He' : -2045 <= e' <= ex - ey) by (unfold e'; lia).
    remember (ex - ey - e') as s eqn:Es.
    assert (Hs : 0 <= s) by lia.
    set (m' := match s with Zpos _ => Z.shiftl (Zpos mx) s | Z0 => Zpos mx | Zneg _ => 0 end).
    assert (Em' : m' = Zpos mx * 2 ^ s).
    { unfold m'. clear - Hs. destruct s as [ | ps | ps ]; try lia.
      rewrite Z.shiftl_mul_pow2 by lia. reflexivity. }
    assert (H2s : 0 < 2 ^ s) by (apply pow2_pos; lia).
    assert (Hm' : 0 < m') by (rewrite Em'; apply Z.mul_pos_pos; lia).
    pose proof (Z_div_mod m' (Zpos my) ltac:(lia)) as Hdm.
    pose proof (Z.div_eucl_eq m' (Zpos my) ltac:(lia)) as Hq'.
    assert (Eqd : fst (Z.div_eucl m' (Zpos my)) = m' / Zpos my) by reflexivity.
    destruct (Z.div_eucl m' (Zpos my)) as [q r]. destruct Hdm as [Eq Hr]. cbn [fst] in Eqd.
    assert (Hq : 0 <= q) by (rewrite Eqd; apply Z.div_pos; lia).
    (* enough digits *)
    assert (HD : e' <= fexp prec emax (Zdigits2 q + e')).
    { rewrite fexp_eq. destruct (Z.le_gt_cases e' (-1074)) as [ | Hgt ]; [ lia | ].
      assert (Hs53 : 53 - dx + dy <= s) by (unfold e' in *; lia).
      assert (H52 : 2 ^ 52 <= q).
      { rewrite Eqd. apply Z.div_le_lower_bound; [ lia | ].
        rewrite Em'.
        apply Z.le_trans with (2 ^ dy * 2 ^ 52); [ apply Z.mul_le_mono_nonneg_r; lia | ].
        apply Z.le_trans with (2 ^ (dx - 1) * 2 ^ s);
          [ | apply Z.mul_le_mono_nonneg_r; lia ].
        rewrite <- !pow2_split by (unfold dx, dy; lia). apply pow2_le. unfold dx, dy in *; lia. }
      pose proof (Zdigits2_ge q 52 ltac:(lia) H52). lia. }
    assert (Hx0 : 0 < q \/ new_location (Zpos my) r <> loc_Exact).
    { destruct (Z.eq_dec q 0) as [-> | ]; [ right | left; lia ].
      rewrite new_location_exact. lia. }
    pose proof (round_bracket (xorb sx false) q e' (new_location (Zpos my) r) P (-2148)
                  Hq Hx0 HD HP ltac:(lia) ltac:(lia)) as HR.
    cbv zeta in HR.
    replace (-1074 - -2148) with 1074 in HR by lia.
    set (X := 2 ^ (e' - -2148)) in *.
    assert (HX : 0 < X) by (apply pow2_pos; lia).
    (* the exact quotient, scaled *)
    assert (EV : m' * X * vy = Zpos mx * 2 ^ (ex + 1074) * 2 ^ 1074 * 2 ^ 1074 * Zpos my).
    { unfold vy, X. rewrite Em'.
      replace (Zpos mx * 2 ^ s * 2 ^ (e' - -2148) * (Zpos my * 2 ^ (ey + 1074)))
        with (Zpos mx * (2 ^ s * 2 ^ (e' - -2148) * 2 ^ (ey + 1074)) * Zpos my) by ring.
      replace (Zpos mx * 2 ^ (ex + 1074) * 2 ^ 1074 * 2 ^ 1074 * Zpos my)
        with (Zpos mx * (2 ^ (ex + 1074) * 2 ^ 1074 * 2 ^ 1074) * Zpos my) by ring.
      rewrite <- !pow2_split by lia. do 3 f_equal. lia. }
    set (vx := Zpos mx * 2 ^ (ex + 1074)) in *.
    set (p := SFval P * 2 ^ 1074) in *.
    set (Y := 2 ^ (ey + 1074)) in *.
    assert (HY : 0 < Y) by (apply pow2_pos; lia).
    assert (Hl : new_location (Zpos my) r <> loc_Exact -> 0 < r).
    { rewrite new_location_exact. lia. }
    (* hypotheses on the values, scaled to the quotient *)
    assert (Sc : forall u w : Z, u * 2 ^ 1074 <= w * vy <-> u * 2 ^ 1074 * 2 ^ 1074 * Zpos my <= w * 2 ^ 1074 * Zpos my * vy * 1).
    { intros u w. rewrite Z.mul_1_r.
      replace (u * 2 ^ 1074 * 2 ^ 1074 * Zpos my) with (u * 2 ^ 1074 * (2 ^ 1074 * Zpos my)) by ring.
      replace (w * 2 ^ 1074 * Zpos my * vy) with (w * vy * (2 ^ 1074 * Zpos my)) by ring.
      apply Z.mul_le_mono_pos_r. apply Z.mul_pos_pos; lia. }
    assert (UBpos : vx * 2 ^ 1074 <= SFval P * vy -> (Zpos my * q + r) * X <= p * Zpos my).
    { intros H. apply Sc in H. rewrite <- EV, Eq, Z.mul_1_r in H.
      replace (SFval P * 2 ^ 1074 * Zpos my * vy) with (p * Zpos my * vy) in H by reflexivity.
      apply Z.mul_le_mono_pos_r in H; assumption. }
    assert (LBpos : SFval P * vy <= vx * 2 ^ 1074 -> p * Zpos my <= (Zpos my * q + r) * X).
    { intros H.
      apply (Z.mul_le_mono_pos_r _ _ (2 ^ 1074 * Zpos my)) in H; [ | apply Z.mul_pos_pos; lia ].
      replace (vx * 2 ^ 1074 * (2 ^ 1074 * Zpos my)) with (vx * 2 ^ 1074 * 2 ^ 1074 * Zpos my) in H by ring.
      rewrite <- EV, Eq in H.
      replace (SFval P * vy * (2 ^ 1074 * Zpos my)) with (p * Zpos my * vy) in H by (unfold p; ring).
      apply Z.mul_le_mono_pos_r in H; assumption. }
    assert (UBneg : - vx * 2 ^ 1074 <= SFval P * vy -> - ((Zpos my * q + r) * X) <= p * Zpos my).
    { intros H.
      apply (Z.mul_le_mono_pos_r _ _ (2 ^ 1074 * Zpos my)) in H; [ | apply Z.mul_pos_pos; lia ].
      replace (- vx * 2 ^ 1074 * (2 ^ 1074 * Zpos my)) with (- (vx * 2 ^ 1074 * 2 ^ 1074 * Zpos my)) in H by ring.
      rewrite <- EV, Eq in H.
      replace (SFval P * vy * (2 ^ 1074 * Zpos my)) with (p * Zpos my * vy) in H by (unfold p; ring).
      rewrite <- Z.mul_opp_l in H.
      apply Z.mul_le_mono_pos_r in H; assumption. }
    assert (LBneg : SFval P * vy <= - vx * 2 ^ 1074 -> p * Zpos my <= - ((Zpos my * q + r) * X)).
    { intros H.
      apply (Z.mul_le_mono_pos_r _ _ (2 ^ 1074 * Zpos my)) in H; [ | apply Z.mul_pos_pos; lia ].
      replace (- vx * 2 ^ 1074 * (2 ^ 1074 * Zpos my)) with (- (vx * 2 ^ 1074 * 2 ^ 1074 * Zpos my)) in H by ring.
      rewrite <- EV, Eq in H.
      replace (SFval P * vy * (2 ^ 1074 * Zpos my)) with (p * Zpos my * vy) in H by (unfold p; ring).
      rewrite <- Z.mul_opp_l in H.
      apply Z.mul_le_mono_pos_r in H; assumption. }
    clearbody p X. clear EV Sc Em' HD Hx0.
    assert (Hmy : 0 < Zpos my) by lia.
    revert Hmy Hr UBpos LBpos UBneg LBneg HR Hl. generalize (Zpos my). intros n Hn Hr UBpos LBpos UBneg LBneg HR Hl.
    destruct sx; cbn [xorb cond_Zopp] in *; destruct HR as [U L]; split; intros H.
    + apply UBneg in H.
      destruct (quotient_bounds n q r X (- p) Hn Hr HX) as [_ B]. apply U.
      assert (- p < (q + 1) * X) by (apply B; lia). lia.
    + apply LBneg in H.
      destruct (quotient_bounds n q r X (- p) Hn Hr HX) as [B _].
      destruct B as [B1 B2]; [ lia | ].
      apply L; [ lia | intros Hne; specialize (Hl Hne); specialize (B2 Hl); lia ].
    + apply UBpos in H.
      destruct (quotient_bounds n q r X p Hn Hr HX) as [B _].
      destruct (B H) as [B1 B2].
      apply U; [ lia | intros Hne; specialize (Hl Hne); specialize (B2 Hl); lia ].
    + apply LBpos in H.
      destruct (quotient_bounds n q r X p Hn Hr HX) as [_ B]. apply L. apply B. exact H.
Qed.

Local Close Scope Z_scope.

(** ** Doubles and their values *)

Lemma finite_valid (x : float) :
  PrimFloat.is_finite x = true -> SFfinite_valid (Prim2SF x).
Proof.
  rewrite is_finite_spec. intros H. split; [ apply Prim2SF_valid | exact H ].
Qed.

Lemma leb_val (x y : float) :
  PrimFloat.is_finite x = true -> PrimFloat.is_finite y = true ->
  ((x <=? y)%float = true <-> (Fval x <= Fval y)%Z).
Proof.
  intros Hx Hy. rewrite leb_spec. apply SFleb_val; apply finite_valid; assumption.
Qed.

Lemma ltb_val (x y : float) :
  PrimFloat.is_finite x = true -> PrimFloat.is_finite y = true ->
  ((x <? y)%float = true <-> (Fval x < Fval y)%Z).
Proof.
  intros Hx Hy. rewrite ltb_spec. apply SFltb_val; apply finite_valid; assumption.
Qed.

Lemma ltb_val_false (x y : float) :
  PrimFloat.is_finite x = true -> PrimFloat.is_finite y = true ->
  ((x <? y)%float = false <-> (Fval y <= Fval x)%Z).
Proof.
  intros Hx Hy. pose proof (ltb_val x y Hx Hy) as [H1 H2].
  destruct (x <? y)%float.
  - split; [ discriminate | ]. intros H. specialize (H1 eq_refl). lia.
  - split; [ | reflexivity ]. intros _.
    destruct (Z.le_gt_cases (Fval y) (Fval x)) as [ | Hlt ]; [ assumption | ].
    specialize (H2 Hlt). discriminate.
Qed.

(** A double between two finite doubles is finite. *)
Lemma between_finite (lo hi x : float) :
  PrimFloat.is_finite lo = true -> PrimFloat.is_finite hi = true ->
  within lo hi x -> PrimFloat.is_finite x = true.
Proof.
  rewrite !is_finite_spec. unfold within. rewrite !leb_spec. intros Hlo Hhi [H1 H2].
  destruct (Prim2SF x) as [s | [ | ] | | s m e]; try reflexivity; exfalso.
  - destruct (Prim2SF lo) as [s' | [ | ] | | [ | ] m' e']; discriminate.
  - destruct (Prim2SF hi) as [s' | [ | ] | | [ | ] m' e']; discriminate.
  - destruct (Prim2SF lo) as [s' | [ | ] | | [ | ] m' e']; discriminate.
Qed.

Lemma within_val (lo hi x : float) :
  PrimFloat.is_finite lo = true -> PrimFloat.is_finite hi = true ->
  within lo hi x ->
  PrimFloat.is_finite x = true /\ (Fval lo <= Fval x <= Fval hi)%Z.
Proof.
  intros Hlo Hhi H. pose proof (between_finite lo hi x Hlo Hhi H) as Hx.
  destruct H as [H1 H2]. apply leb_val in H1, H2; try assumption. auto.
Qed.

Lemma all_finite_cons (a : float) (l : list float) :
  all_finite (a :: l) = true -> PrimFloat.is_finite a = true /\ all_finite l = true.
Proof. unfold all_finite. cbn [forallb]. apply andb_true_iff. Qed.

Ltac finites H :=
  repeat (apply all_finite_cons in H;
          let F := fresh "Fin" in destruct H as [F H]).

(** ** The four operations *)

Lemma add_bracket (x y P : float) :
  PrimFloat.is_finite x = true -> PrimFloat.is_finite y = true ->
  PrimFloat.is_finite P = true ->
  ((Fval x + Fval y <= Fval P)%Z -> (x + y <=? P)%float = true) /\
  ((Fval P <= Fval x + Fval y)%Z -> (P <=? x + y)%float = true).
Proof.
  intros Hx Hy HP. rewrite !leb_spec, add_spec.
  apply SFadd_bracket; apply finite_valid; assumption.
Qed.

Lemma sub_bracket (x y P : float) :
  PrimFloat.is_finite x = true -> PrimFloat.is_finite y = true ->
  PrimFloat.is_finite P = true ->
  ((Fval x - Fval y <= Fval P)%Z -> (x - y <=? P)%float = true) /\
  ((Fval P <= Fval x - Fval y)%Z -> (P <=? x - y)%float = true).
Proof.
  intros Hx Hy HP. rewrite !leb_spec, sub_spec.
  apply SFsub_bracket; apply finite_valid; assumption.
Qed.

Lemma mul_bracket (x y P : float) :
  PrimFloat.is_finite x = true -> PrimFloat.is_finite y = true ->
  PrimFloat.is_finite P = true ->
  ((Fval x * Fval y <= Fval P * ulp1)%Z -> (x * y <=? P)%float = true) /\
  ((Fval P * ulp1 <= Fval x * Fval y)%Z -> (P <=? x * y)%float = true).
Proof.
  intros Hx Hy HP. rewrite !leb_spec, mul_spec.
  apply SFmul_bracket; apply finite_valid; assumption.
Qed.

Lemma div_bracket (x y P : float) :
  PrimFloat.is_finite x = true -> PrimFloat.is_finite y = true ->
  PrimFloat.is_finite P = true -> (0 < Fval y)%Z ->
  ((Fval x * ulp1 <= Fval P * Fval y)%Z -> (x / y <=? P)%float = true) /\
  ((Fval P * Fval y <= Fval x * ulp1)%Z -> (P <=? x / y)%float = true).
Proof.
  intros Hx Hy HP H0. rewrite !leb_spec, div_spec.
  apply SFdiv_bracket; try apply finite_valid; assumption.
Qed.

Lemma opp_val (x : float) : Fval (- x)%float = (- Fval x)%Z.
Proof. unfold Fval. rewrite opp_spec. apply SFval_opp. Qed.

Lemma opp_finite (x : float) : PrimFloat.is_finite (- x)%float = PrimFloat.is_finite x.
Proof. rewrite !is_finite_spec, opp_spec. destruct (Prim2SF x); reflexivity. Qed.

(** ** Interval arithmetic *)

Local Open Scope Z_scope.

Lemma ulp1_pos : 0 < ulp1.
Proof. apply pow2_pos. lia. Qed.

Lemma add_within (a1 a2 b1 b2 c1 c2 x y : float) :
  all_finite [a1; a2; b1; b2; c1; c2] = true ->
  Fval c1 <= Fval a1 + Fval b1 -> Fval a2 + Fval b2 <= Fval c2 ->
  within a1 a2 x -> within b1 b2 y -> within c1 c2 (x + y)%float.
Proof.
  intros F H1 H2 Hx Hy. finites F.
  destruct (within_val _ _ _ Fin Fin0 Hx) as [Fx Vx].
  destruct (within_val _ _ _ Fin1 Fin2 Hy) as [Fy Vy].
  split.
  - apply (add_bracket x y c1); try assumption. lia.
  - apply (add_bracket x y c2); try assumption. lia.
Qed.

Lemma sub_within (a1 a2 b1 b2 c1 c2 x y : float) :
  all_finite [a1; a2; b1; b2; c1; c2] = true ->
  Fval c1 <= Fval a1 - Fval b2 -> Fval a2 - Fval b1 <= Fval c2 ->
  within a1 a2 x -> within b1 b2 y -> within c1 c2 (x - y)%float.
Proof.
  intros F H1 H2 Hx Hy. finites F.
  destruct (within_val _ _ _ Fin Fin0 Hx) as [Fx Vx].
  destruct (within_val _ _ _ Fin1 Fin2 Hy) as [Fy Vy].
  split.
  - apply (sub_bracket x y c1); try assumption. lia.
  - apply (sub_bracket x y c2); try assumption. lia.
Qed.

(** The product of two non-negative doubles. *)
Lemma mul_within (a1 a2 b1 b2 c1 c2 x y : float) :
  all_finite [a1; a2; b1; b2; c1; c2] = true ->
  0 <= Fval a1 -> 0 <= Fval b1 ->
  Fval c1 * ulp1 <= Fval a1 * Fval b1 -> Fval a2 * Fval b2 <= Fval c2 * ulp1 ->
  within a1 a2 x -> within b1 b2 y -> within c1 c2 (x * y)%float.
Proof.
  intros F Ha Hb H1 H2 Hx Hy. finites F.
  destruct (within_val _ _ _ Fin Fin0 Hx) as [Fx Vx].
  destruct (within_val _ _ _ Fin1 Fin2 Hy) as [Fy Vy].
  split.
  - apply (mul_bracket x y c1); try assumption.
    apply Z.le_trans with (Fval a1 * Fval b1); [ assumption | ].
    apply Z.mul_le_mono_nonneg; lia.
  - apply (mul_bracket x y c2); try assumption.
    apply Z.le_trans with (Fval a2 * Fval b2); [ | assumption ].
    apply Z.mul_le_mono_nonneg; lia.
Qed.

(** The quotient of a double of either sign by a positive constant. *)
Lemma div_const_within (a1 a2 d c1 c2 x : float) :
  all_finite [a1; a2; d; c1; c2] = true ->
  0 < Fval d ->
  Fval c1 * Fval d <= Fval a1 * ulp1 -> Fval a2 * ulp1 <= Fval c2 * Fval d ->
  within a1 a2 x -> within c1 c2 (x / d)%float.
Proof.
  intros F Hd H1 H2 Hx. finites F.
  destruct (within_val _ _ _ Fin Fin0 Hx) as [Fx Vx].
  pose proof ulp1_pos as HS.
  split.
  - apply (div_bracket x d c1); try assumption.
    apply Z.le_trans with (Fval a1 * ulp1); [ assumption | ].
    apply Z.mul_le_mono_nonneg_r; lia.
  - apply (div_bracket x d c2); try assumption.
    apply Z.le_trans with (Fval a2 * ulp1); [ | assumption ].
    apply Z.mul_le_mono_nonneg_r; lia.
Qed.

(** The quotient of a non-negative double by a positive one. *)
Lemma div_within (a1 a2 b1 b2 c1 c2 x y : float) :
  all_finite [a1; a2; b1; b2; c1; c2] = true ->
  0 <= Fval a1 -> 0 < Fval b1 -> 0 <= Fval c1 ->
  Fval c1 * Fval b2 <= Fval a1 * ulp1 -> Fval a2 * ulp1 <= Fval c2 * Fval b1 ->
  within a1 a2 x -> within b1 b2 y -> within c1 c2 (x / y)%float.
Proof.
  intros F Ha Hb Hc H1 H2 Hx Hy. finites F.
  destruct (within_val _ _ _ Fin Fin0 Hx) as [Fx Vx].
  destruct (within_val _ _ _ Fin1 Fin2 Hy) as [Fy Vy].
  pose proof ulp1_pos as HS.
  assert (Hc2 : 0 <= Fval c2).
  { apply (Z.mul_le_mono_pos_r 0 (Fval c2) (Fval b1) Hb).
    apply Z.le_trans with (Fval a2 * ulp1); [ | assumption ].
    apply Z.mul_nonneg_nonneg; lia. }
  split.
  - apply (div_bracket x y c1); try assumption; [ lia | ].
    apply Z.le_trans with (Fval c1 * Fval b2); [ apply Z.mul_le_mono_nonneg_l; lia | ].
    apply Z.le_trans with (Fval a1 * ulp1); [ assumption | ].
    apply Z.mul_le_mono_nonneg_r; lia.
  - apply (div_bracket x y c2); try assumption; [ lia | ].
    apply Z.le_trans with (Fval a2 * ulp1); [ apply Z.mul_le_mono_nonneg_r; lia | ].
    apply Z.le_trans with (Fval c2 * Fval b1); [ assumption | ].
    apply Z.mul_le_mono_nonneg_l; lia.
Qed.

Lemma within_weaken (lo hi lo' hi' x : float) :
  all_finite [lo; hi; lo'; hi'] = true ->
  Fval lo' <= Fval lo -> Fval hi <= Fval hi' ->
  within lo hi x -> within lo' hi' x.
Proof.
  intros F H1 H2 Hx. finites F.
  destruct (within_val _ _ _ Fin Fin0 Hx) as [Fx Vx].
  split; apply leb_val; try assumption; lia.
Qed.

Lemma within_const (c : float) : PrimFloat.is_finite c = true -> within c c c.
Proof. intros F. split; apply leb_val; try assumption; lia. Qed.

Lemma of_int_val (k : Z) :
  0 <= k <= 2 ^ 53 ->
  PrimFloat.is_finite (JS.of_int k) = true /\ Fval (JS.of_int k) = k * ulp1.
Proof.
  intros Hk.
  destruct (Z.eq_dec k 0) as [-> | H0]; [ split; vm_compute; reflexivity | ].
  destruct (Z.eq_dec k (2 ^ 53)) as [-> | H53]; [ split; vm_compute; reflexivity | ].
  rewrite of_int_nonneg by lia. unfold Fval. rewrite is_finite_spec.
  destruct (of_int_finite k ltac:(lia)) as (m & e & E & B & He & Hm).
  rewrite E. split; [ reflexivity | ].
  cbn [SFval cond_Zopp]. rewrite Hm, He.
  pose proof (Zdigits2_range k ltac:(lia)) as Hd.
  unfold ulp1. rewrite <- Z.mul_assoc, <- pow2_split by lia. f_equal. f_equal. lia.
Qed.

(** A finite double of magnitude [2^52] or more is an integer. *)
Lemma large_is_integer (x : float) :
  PrimFloat.is_finite x = true -> 2 ^ 52 * ulp1 <= Fval x ->
  exists k : Z, Fval x = k * ulp1.
Proof.
  intros Fx Hx. pose proof (Prim2SF_valid x) as V. unfold Fval in *.
  pose proof ulp1_pos as HS.
  destruct (Prim2SF x) as [s | s | | s m e]; cbn [SFval] in *; try lia.
  cbn [valid_binary] in V. destruct (bounded_digits _ _ V) as (R & H53 & _).
  destruct s; cbn [cond_Zopp] in *.
  - pose proof (SFval_pos m e ltac:(lia)). lia.
  - assert (He : 0 <= e).
    { destruct (Z.le_gt_cases 0 e) as [ | Hneg ]; [ assumption | exfalso ].
      assert (2 ^ (e + 1074) <= 2 ^ 1073) by (apply pow2_le; lia).
      assert (E : ulp1 = 2 * 2 ^ 1073) by reflexivity.
      assert (0 < 2 ^ (e + 1074)) by (apply pow2_pos; lia).
      assert (Zpos m * 2 ^ (e + 1074) < 2 ^ 53 * 2 ^ 1073).
      { apply Z.lt_le_trans with (2 ^ 53 * 2 ^ (e + 1074)).
        - apply Z.mul_lt_mono_pos_r; assumption.
        - apply Z.mul_le_mono_nonneg_l; lia. }
      rewrite E in Hx. change (2 ^ 53) with (2 ^ 52 * 2) in *. lia. }
    exists (Zpos m * 2 ^ e). unfold ulp1. rewrite <- Z.mul_assoc, <- pow2_split by lia.
    reflexivity.
Qed.

Lemma finite_not_nan (x : float) :
  PrimFloat.is_finite x = true -> PrimFloat.is_nan x = false.
Proof.
  unfold PrimFloat.is_finite. intros H. apply negb_true_iff in H.
  apply orb_false_iff in H. apply H.
Qed.

Lemma abs_val (x : float) : Fval (PrimFloat.abs x) = Z.abs (Fval x).
Proof.
  unfold Fval. rewrite abs_spec. pose proof (Prim2SF_valid x) as V.
  destruct (Prim2SF x) as [s | s | | s m e]; cbn [SFabs SFval]; try reflexivity.
  cbn [valid_binary] in V. pose proof (SFval_pos m e (bounded_emin _ _ V)).
  destruct s; cbn [cond_Zopp]; lia.
Qed.

Lemma abs_finite (x : float) : PrimFloat.is_finite (PrimFloat.abs x) = PrimFloat.is_finite x.
Proof. rewrite !is_finite_spec, abs_spec. destruct (Prim2SF x); reflexivity. Qed.

Lemma eqb_val (x y : float) :
  PrimFloat.is_finite x = true -> PrimFloat.is_finite y = true ->
  ((x =? y)%float = true <-> Fval x = Fval y).
Proof.
  intros Hx Hy. rewrite eqb_spec. unfold SFeqb.
  rewrite (SFcompare_val _ _ (finite_valid x Hx) (finite_valid y Hy)).
  fold (Fval x) (Fval y).
  destruct (Z.compare_spec (Fval x) (Fval y)); split; intros; try reflexivity; try lia;
    discriminate.
Qed.

(** A double equal in value to a finite double [P] at both ends. *)
Lemma exact_result (r P : float) :
  PrimFloat.is_finite P = true ->
  (r <=? P)%float = true -> (P <=? r)%float = true ->
  PrimFloat.is_finite r = true /\ Fval r = Fval P.
Proof.
  intros FP H1 H2.
  assert (Fr : PrimFloat.is_finite r = true).
  { apply (between_finite P P r FP FP). split; assumption. }
  split; [ exact Fr | ].
  apply leb_val in H1, H2; try assumption. lia.
Qed.

(** [Math.floor] of a non-negative double below [2^52]: the integer part
    of its value. *)
Lemma Math_floor_val (x : float) :
  PrimFloat.is_finite x = true -> 0 <= Fval x < 2 ^ 52 * ulp1 ->
  PrimFloat.is_finite (JS.Math_floor x) = true /\
  Fval (JS.Math_floor x) = Fval x / ulp1 * ulp1.
Proof.
  intros Fx Hx. pose proof ulp1_pos as HS.
  assert (F52 : PrimFloat.is_finite JS.two52 = true) by reflexivity.
  assert (V52 : Fval JS.two52 = 2 ^ 52 * ulp1) by (vm_compute; reflexivity).
  unfold JS.Math_floor.
  rewrite (finite_not_nan x Fx). cbn [orb].
  assert (E1 : (JS.two52 <=? PrimFloat.abs x)%float = false).
  { destruct (JS.two52 <=? PrimFloat.abs x)%float eqn:E; [ exfalso | reflexivity ].
    assert (Fa : PrimFloat.is_finite (PrimFloat.abs x) = true)
      by (rewrite abs_finite; assumption).
    apply (leb_val _ _ F52 Fa) in E.
    rewrite abs_val in E. lia. }
  rewrite E1.
  unfold PrimFloat.is_zero.
  destruct (x =? PrimFloat.zero)%float eqn:E0.
  - split; [ exact Fx | ]. apply (eqb_val x PrimFloat.zero Fx eq_refl) in E0.
    rewrite E0. reflexivity.
  - assert (E2 : (x <? 0)%float = false).
    { apply ltb_val_false; [ assumption | reflexivity | ]. change (Fval 0) with 0. lia. }
    rewrite E2.
    set (j := Fval x / ulp1).
    pose proof (Z.div_mod (Fval x) ulp1 ltac:(lia)) as Hdm.
    pose proof (Z.mod_pos_bound (Fval x) ulp1 HS) as Hmod.
    fold j in Hdm.
    assert (Hj : 0 <= j < 2 ^ 52).
    { split; [ apply Z.div_pos; lia | apply Z.div_lt_upper_bound; lia ]. }
    destruct (of_int_val (2 ^ 52 + j) ltac:(lia)) as [Flo Vlo].
    destruct (of_int_val (2 ^ 52 + j + 1) ltac:(lia)) as [Fhi Vhi].
    set (s := (x + JS.two52)%float).
    assert (Hs : within (JS.of_int (2 ^ 52 + j)) (JS.of_int (2 ^ 52 + j + 1)) s).
    { split; unfold s.
      - apply (add_bracket x JS.two52 _ Fx F52 Flo). lia.
      - apply (add_bracket x JS.two52 _ Fx F52 Fhi). lia. }
    destruct (within_val _ _ _ Flo Fhi Hs) as [Fs Vs]. rewrite Vlo, Vhi in Vs.
    destruct (large_is_integer s Fs ltac:(lia)) as [k Ek].
    assert (Hk : k = 2 ^ 52 + j \/ k = 2 ^ 52 + j + 1) by nia.
    assert (Ht : forall c, 0 <= c <= 2 ^ 53 -> Fval s - Fval JS.two52 = c * ulp1 ->
              PrimFloat.is_finite (s - JS.two52)%float = true /\
              Fval (s - JS.two52)%float = c * ulp1).
    { intros c Hc Ec. destruct (of_int_val c Hc) as [Fc Vc]. rewrite <- Vc.
      apply exact_result; [ assumption | | ].
      - apply (sub_bracket s JS.two52 _ Fs F52 Fc). lia.
      - apply (sub_bracket s JS.two52 _ Fs F52 Fc). lia. }
    fold s. destruct Hk as [-> | ->].
    + destruct (Ht j ltac:(lia) ltac:(lia)) as [Ft Vt].
      assert (E3 : (x <? s - JS.two52)%float = false).
      { apply ltb_val_false; try assumption. lia. }
      rewrite E3. split; [ exact Ft | ]. rewrite Vt. reflexivity.
    + destruct (Ht (j + 1) ltac:(lia) ltac:(lia)) as [Ft Vt].
      assert (E3 : (x <? s - JS.two52)%float = true).
      { apply ltb_val; try assumption. lia. }
      rewrite E3.
      destruct (of_int_val j ltac:(lia)) as [Fj Vj]. fold j. rewrite <- Vj.
      apply exact_result; [ assumption | | ].
      * apply (sub_bracket _ 1%float _ Ft ltac:(reflexivity) Fj).
        change (Fval 1) with ulp1. lia.
      * apply (sub_bracket _ 1%float _ Ft ltac:(reflexivity) Fj).
        change (Fval 1) with ulp1. lia.
Qed.

Ltac closed := vm_compute; first [ reflexivity | discriminate | (intro; discriminate) ].

Lemma draw_within (u : float) : draw u -> within 0 below_one u.
Proof.
  intros [H0 H1].
  assert (Fu : PrimFloat.is_finite u = true).
  { rewrite is_finite_spec. rewrite leb_spec in H0. rewrite ltb_spec in H1.
    destruct (Prim2SF u) as [s | [ | ] | | s m e]; try reflexivity; discriminate. }
  split; [ exact H0 | ].
  apply (ltb_val u 1%float Fu eq_refl) in H1. apply (leb_val 0%float u eq_refl Fu) in H0.
  apply (leb_val u below_one Fu eq_refl).
  change (Fval 1) with ulp1 in H1. change (Fval 0) with 0 in H0.
  pose proof (Prim2SF_valid u) as V. unfold Fval in *.
  destruct (Prim2SF u) as [s | s | | s m e]; cbn [SFval] in *;
    [ closed | closed | closed | ].
  cbn [valid_binary] in V. destruct (bounded_digits _ _ V) as (R & H53 & H52).
  pose proof (SFval_pos m e ltac:(lia)) as Hpos.
  destruct s; cbn [cond_Zopp] in *; [ lia | ].
  assert (He : e <= -53).
  { destruct (Z.le_gt_cases e (-53)) as [ | Hgt ]; [ assumption | exfalso ].
    specialize (H52 ltac:(lia)).
    assert (2 ^ 1022 <= 2 ^ (e + 1074)) by (apply pow2_le; lia).
    assert (E : ulp1 = 2 ^ 52 * 2 ^ 1022) by reflexivity.
    assert (2 ^ 52 * 2 ^ 1022 <= Zpos m * 2 ^ (e + 1074)).
    { apply Z.mul_le_mono_nonneg; lia. }
    lia. }
  replace (SFval (Prim2SF below_one)) with ((2 ^ 53 - 1) * 2 ^ 1021) by (vm_compute; reflexivity).
  assert (2 ^ (e + 1074) <= 2 ^ 1021) by (apply pow2_le; lia).
  apply Z.mul_le_mono_nonneg; lia.
Qed.

Lemma Math_max_right (a b : float) :
  PrimFloat.is_finite a = true -> PrimFloat.is_finite b = true ->
  Fval a < Fval b -> JS.Math_max a b = b.
Proof.
  intros Fa Fb H. unfold JS.Math_max.
  rewrite (finite_not_nan a Fa), (finite_not_nan b Fb). cbn [orb].
  replace (a <? b)%float with true by (symmetry; apply ltb_val; assumption).
  reflexivity.
Qed.

Local Close Scope Z_scope.

(** ** Order of doubles *)

Lemma SFleb_ltb_trans (x y z : spec_float) :
  valid_binary x = true -> valid_binary y = true -> valid_binary z = true ->
  SFleb x y = true -> SFltb y z = true -> SFltb x z = true.
Proof.
  intros Vx Vy Vz.
  destruct (SFis_finite x) eqn:Fx; [ destruct (SFis_finite y) eqn:Fy;
    [ destruct (SFis_finite z) eqn:Fz | ] | ].
  - rewrite (SFleb_val x y (conj Vx Fx) (conj Vy Fy)).
    rewrite (SFltb_val y z (conj Vy Fy) (conj Vz Fz)).
    rewrite (SFltb_val x z (conj Vx Fx) (conj Vz Fz)). lia.
  - destruct x as [sx | sx | | sx mx ex]; try discriminate;
    destruct y as [sy | sy | | sy my ey]; try discriminate;
    destruct z as [sz | [ | ] | | sz mz ez]; try discriminate;
      intros _ H; try discriminate H; try reflexivity;
      destruct sy; try discriminate H; destruct sx; reflexivity.
  - destruct x as [sx | sx | | sx mx ex]; try discriminate;
    destruct y as [sy | [ | ] | | sy my ey]; try discriminate;
    destruct z as [sz | [ | ] | | sz mz ez];
      intros H1 H2; try discriminate H2; try reflexivity;
      destruct sx; try discriminate H1; try reflexivity.
  - destruct x as [sx | [ | ] | | sx mx ex]; try discriminate;
    destruct y as [sy | [ | ] | | [ | ] my ey];
    destruct z as [sz | [ | ] | | [ | ] mz ez];
      intros H1 H2; try discriminate H1; try discriminate H2; try reflexivity.
Qed.

Lemma SFltb_leb_trans (x y z : spec_float) :
  valid_binary x = true -> valid_binary y = true -> valid_binary z = true ->
  SFltb x y = true -> SFleb y z = true -> SFltb x z = true.
Proof.
  intros Vx Vy Vz.
  destruct (SFis_finite x) eqn:Fx; [ destruct (SFis_finite y) eqn:Fy;
    [ destruct (SFis_finite z) eqn:Fz | ] | ].
  - rewrite (SFltb_val x y (conj Vx Fx) (conj Vy Fy)).
    rewrite (SFleb_val y z (conj Vy Fy) (conj Vz Fz)).
    rewrite (SFltb_val x z (conj Vx Fx) (conj Vz Fz)). lia.
  - destruct x as [sx | sx | | sx mx ex]; try discriminate;
    destruct y as [sy | sy | | sy my ey]; try discriminate;
    destruct z as [sz | [ | ] | | sz mz ez]; try discriminate;
      intros _ H; try discriminate H; try reflexivity;
      destruct sy; try discriminate H; destruct sx; reflexivity.
  - destruct x as [sx | sx | | sx mx ex]; try discriminate;
    destruct y as [sy | [ | ] | | sy my ey]; try discriminate;
    destruct z as [sz | [ | ] | | sz mz ez];
      intros H1 H2; try discriminate H2; try reflexivity;
      destruct sx; try discriminate H1; try reflexivity.
  - destruct x as [sx | [ | ] | | sx mx ex]; try discriminate;
    destruct y as [sy | [ | ] | | [ | ] my ey];
    destruct z as [sz | [ | ] | | [ | ] mz ez];
      intros H1 H2; try discriminate H1; try discriminate H2; try reflexivity.
Qed.

Lemma leb_ltb_trans (x y z : float) :
  (x <=? y)%float = true -> (y <? z)%float = true -> (x <? z)%float = true.
Proof.
  rewrite leb_spec, !ltb_spec. apply SFleb_ltb_trans; apply Prim2SF_valid.
Qed.

Lemma ltb_leb_trans (x y z : float) :
  (x <? y)%float = true -> (y <=? z)%float = true -> (x <? z)%float = true.
Proof.
  rewrite leb_spec, !ltb_spec. apply SFltb_leb_trans; apply Prim2SF_valid.
Qed.

Lemma SFleb_trans (x y z : spec_float) :
  valid_binary x = true -> valid_binary y = true -> valid_binary z = true ->
  SFleb x y = true -> SFleb y z = true -> SFleb x z = true.
Proof.
  intros Vx Vy Vz.
  destruct (SFis_finite x) eqn:Fx; [ destruct (SFis_finite y) eqn:Fy;
    [ destruct (SFis_finite z) eqn:Fz | ] | ].
  - rewrite (SFleb_val x y (conj Vx Fx) (conj Vy Fy)).
    rewrite (SFleb_val y z (conj Vy Fy) (conj Vz Fz)).
    rewrite (SFleb_val x z (conj Vx Fx) (conj Vz Fz)). lia.
  - destruct x as [sx | sx | | sx mx ex]; try discriminate;
    destruct y as [sy | sy | | sy my ey]; try discriminate;
    destruct z as [sz | [ | ] | | sz mz ez]; try discriminate;
      intros _ H; try discriminate H; try reflexivity;
      destruct sy; try discriminate H; destruct sx; reflexivity.
  - destruct x as [sx | sx | | sx mx ex]; try discriminate;
    destruct y as [sy | [ | ] | | sy my ey]; try discriminate;
    destruct z as [sz | [ | ] | | sz mz ez];
      intros H1 H2; try discriminate H2; try reflexivity;
      destruct sx; try discriminate H1; try reflexivity.
  - destruct x as [sx | [ | ] | | sx mx ex]; try discriminate;
    destruct y as [sy | [ | ] | | [ | ] my ey];
    destruct z as [sz | [ | ] | | [ | ] mz ez];
      intros H1 H2; try discriminate H1; try discriminate H2; try reflexivity.
Qed.

Lemma leb_trans (x y z : float) :
  (x <=? y)%float = true -> (y <=? z)%float = true -> (x <=? z)%float = true.
Proof.
  rewrite !leb_spec. apply SFleb_trans; apply Prim2SF_valid.
Qed.

(** ** More on the Poisson sampler *)

(** Where the loop leaves, the running product is at [L] or below for the
    first time. *)
Lemma loop_exit_inv (random : nat -> float) (fuel : nat) : forall L k p i k' i',
  Poisson.loop random fuel L k p i = Some (k', i') ->
  exists j : nat,
    (j < fuel)%nat /\ i' = (i + j + 1)%nat /\
    (L <? Poisson.product random p i (S j))%float = false /\
    (forall j', (j' < j)%nat -> (L <? Poisson.product random p i (S j'))%float = true).
Proof.
  induction fuel as [ | fuel IH ]; intros L k p i k' i'; cbn [Poisson.loop];
    [ discriminate | ].
  destruct (L <? p * random i)%float eqn:E.
  - intros H. apply IH in H. destruct H as (j & Hj & -> & Hexit & Hbefore).
    exists (S j). split; [ lia | ]. split; [ lia | ]. split; [ exact Hexit | ].
    intros [ | j' ] Hj'; [ exact E | ]. apply Hbefore. lia.
  - intros H. injection H as <- <-. exists 0%nat.
    split; [ lia | ]. split; [ lia | ]. split; [ exact E | ].
    intros j' Hj'. lia.
Qed.

Lemma of_int_le (a b : Z) :
  (0 <= a <= b)%Z -> (b <= 2 ^ 53)%Z -> (JS.of_int a <=? JS.of_int b)%float = true.
Proof.
  intros Ha Hb.
  destruct (of_int_val a ltac:(lia)) as [Fa Va].
  destruct (of_int_val b ltac:(lia)) as [Fb Vb].
  apply leb_val; try assumption. rewrite Va, Vb.
  apply Z.mul_le_mono_nonneg_r; [ pose proof ulp1_pos; lia | lia ].
Qed.

(** X1: on the same draws, a rate whose threshold [L = Math.exp(-lambda)]
    is not above that of another rate yields a count that is not below
    the other's, and it needs at least as many draws. *)
Theorem poissonSample_monotone :
  forall (Math_exp : float -> float) (random : nat -> float)
         (lambda lambda' : float) (fuel i : nat) (r' : float) (i' : nat),
    (Math_exp (- lambda')%float <=? Math_exp (- lambda)%float)%float = true ->
    Poisson.poissonSample Math_exp random fuel lambda' i = Some (r', i') ->
    exists (r : float) (i1 : nat),
      Poisson.poissonSample Math_exp random fuel lambda i = Some (r, i1) /\
      (i1 <= i')%nat /\ (r <=? r')%float = true.
Proof.
  intros Math_exp random lambda lambda' fuel i r' i' HL.
  unfold Poisson.poissonSample.
  destruct (Poisson.loop random fuel (Math_exp (- lambda')%float) 0 1 i) as [[k2 i2] | ] eqn:E2;
    [ | discriminate ].
  intros H. injection H as <- <-.
  destruct (loop_exit_inv random fuel _ _ _ _ _ _ E2) as (j2 & Hj2 & -> & Hexit2 & Hbefore2).
  change 0%float with (JS.of_int 0) in E2.
  rewrite (loop_first_exit random j2 fuel _ 0 1 i ltac:(lia) Hj2 Hexit2 Hbefore2) in E2.
  injection E2 as <-.
  assert (Hexit : (Math_exp (- lambda)%float <? Poisson.product random 1 i (S j2))%float = false).
  { destruct (Math_exp (- lambda)%float <? Poisson.product random 1 i (S j2))%float eqn:E;
      [ | reflexivity ].
    rewrite (leb_ltb_trans _ _ _ HL E) in Hexit2. discriminate. }
  destruct (first_exit_exists random _ _ _ _ Hexit) as (j1 & Hle & Hexit1 & Hbefore1).
  change 0%float with (JS.of_int 0).
  rewrite (loop_first_exit random j1 fuel _ 0 1 i ltac:(lia) ltac:(lia) Hexit1 Hbefore1).
  eexists. eexists. split; [ reflexivity | ]. split; [ lia | ].
  rewrite !of_int_pred by lia. apply of_int_le; lia.
Qed.

Lemma poissonSample_monotone_witness :
  exists (r : float) (i1 : nat),
    Poisson.poissonSample Poisson.exp_model (fun _ => 0.5%float) 100 1 0 = Some (r, i1) /\
    (i1 <= 3)%nat /\ (r <=? 2)%float = true.
Proof.
  apply (poissonSample_monotone Poisson.exp_model (fun _ => 0.5%float) 1 1.5125 100 0 2 3).
  - vm_compute. reflexivity.
  - vm_compute. reflexivity.
Defined.

(** X2: a rate whose threshold [L] is not below 1, as for a negative rate,
    or is not a number, as for a rate that is not a number, yields 0
    after one draw. *)
Theorem poissonSample_threshold_above_draws :
  forall (Math_exp : float -> float) (random : nat -> float)
         (lambda : float) (fuel i : nat),
    (Math_exp (- lambda)%float <? 1)%float = false ->
    unit_interval (random i) ->
    Poisson.poissonSample Math_exp random (S fuel) lambda i = Some (0%float, S i).
Proof.
  intros Math_exp random lambda fuel i HL [H0 H1].
  unfold Poisson.poissonSample. cbn [Poisson.loop].
  destruct (mul_unit_le 1 (random i) 1) as [_ Hle]; try assumption; try reflexivity.
  destruct (Math_exp (- lambda)%float <? 1 * random i)%float eqn:E; [ | reflexivity ].
  rewrite (ltb_leb_trans _ _ _ E Hle) in HL. discriminate.
Qed.

Lemma poissonSample_threshold_above_draws_witness :
  Poisson.poissonSample Poisson.exp_model (fun _ => 0.5%float) 1 (-2) 0
  = Some (0%float, 1%nat).
Proof.
  apply (poissonSample_threshold_above_draws Poisson.exp_model (fun _ => 0.5%float) (-2) 0 0).
  - vm_compute. reflexivity.
  - split; reflexivity.
Defined.

Local Open Scope Z_scope.

(** ** Rounding to nearest *)

Lemma iter_pos_nat {A : Type} (f : A -> A) (p : positive) : forall x,
  iter_pos f p x = Nat.iter (Pos.to_nat p) f x.
Proof.
  induction p as [p IH | p IH | ]; intros x; cbn [iter_pos].
  - rewrite !IH, Pos2Nat.inj_xI. 
    replace (S (2 * Pos.to_nat p))%nat with (Pos.to_nat p + S (Pos.to_nat p))%nat by lia.
    rewrite Nat.iter_add, Nat.iter_succ_r. reflexivity.
  - rewrite !IH, Pos2Nat.inj_xO.
    replace (2 * Pos.to_nat p)%nat with (Pos.to_nat p + Pos.to_nat p)%nat by lia.
    rewrite Nat.iter_add. reflexivity.
  - reflexivity.
Qed.

Lemma shr_1_round_bit (mrs : shr_record) :
  0 <= shr_m mrs -> shr_r (shr_1 mrs) = Z.odd (shr_m mrs).
Proof.
  destruct mrs as [m r s]. cbn [shr_m]. intros Hm.
  destruct m as [ | [ p | p | ] | p ]; try lia; reflexivity.
Qed.

Lemma iter_shr_1 (k : nat) (mrs : shr_record) :
  0 <= shr_m mrs ->
  shr_m (Nat.iter k shr_1 mrs) = shr_m mrs / 2 ^ Z.of_nat k /\
  shr_r (Nat.iter (S k) shr_1 mrs) = Z.odd (shr_m mrs / 2 ^ Z.of_nat k).
Proof.
  intros Hm.
  assert (Hk : shr_m (Nat.iter k shr_1 mrs) = shr_m mrs / 2 ^ Z.of_nat k).
  { induction k as [ | k IH ].
    - change (Nat.iter 0 shr_1 mrs) with mrs. cbn [Z.of_nat].
      rewrite Z.pow_0_r, Z.div_1_r. reflexivity.
    - rewrite Nat.iter_succ.
      assert (H0 : 0 <= shr_m (Nat.iter k shr_1 mrs)).
      { rewrite IH. apply Z.div_pos; [ lia | apply pow2_pos; lia ]. }
      destruct (shr_1_spec _ H0) as [E _]. rewrite E, IH.
      rewrite Nat2Z.inj_succ, Z.pow_succ_r by lia.
      rewrite Z.div_div by (try lia; apply pow2_pos; lia).
      f_equal. lia. }
  split; [ exact Hk | ].
  rewrite Nat.iter_succ. rewrite shr_1_round_bit, Hk; [ reflexivity | ].
  rewrite Hk. apply Z.div_pos; [ lia | apply pow2_pos; lia ].
Qed.

(** A value strictly between a float of the format and the midpoint to
    the next one is rounded down to that float. *)
Lemma binary_round_aux_down (m e : Z) (mP : positive) (eP c : Z) :
  0 < m -> bounded prec emax mP eP = true ->
  c <= e -> c <= eP ->
  Zpos mP * 2 ^ (eP - c) < m * 2 ^ (e - c) ->
  2 * (m * 2 ^ (e - c)) < (2 * Zpos mP + 1) * 2 ^ (eP - c) ->
  binary_round_aux prec emax false m e loc_Exact = S754_finite false mP eP.
Proof.
  intros Hm HB Hce HcP Hlo Hhi.
  destruct (bounded_inv _ _ HB) as [CP Hmax].
  destruct (digits2_pos_bounds mP) as [HPlo HPhi].
  assert (HX : 0 < 2 ^ (e - c)) by (apply pow2_pos; lia).
  assert (HY : 0 < 2 ^ (eP - c)) by (apply pow2_pos; lia).
  (* the exponent of the value is below that of the float *)
  assert (He : e < eP).
  { destruct (Z.lt_ge_cases e eP) as [ | Hge ]; [ assumption | exfalso ].
    assert (Es : 2 ^ (e - c) = 2 ^ (e - eP) * 2 ^ (eP - c)).
    { rewrite <- pow2_split by lia. f_equal. lia. }
    rewrite Es in Hlo, Hhi.
    assert (H1 : Zpos mP < m * 2 ^ (e - eP)).
    { apply (Z.mul_lt_mono_pos_r (2 ^ (eP - c))); [ assumption | ].
      rewrite <- Z.mul_assoc. exact Hlo. }
    assert (H2 : 2 * (m * 2 ^ (e - eP)) < 2 * Zpos mP + 1).
    { apply (Z.mul_lt_mono_pos_r (2 ^ (eP - c))); [ assumption | ].
      replace (2 * (m * 2 ^ (e - eP)) * 2 ^ (eP - c))
        with (2 * (m * (2 ^ (e - eP) * 2 ^ (eP - c)))) by ring.
      exact Hhi. }
    lia. }
  set (n := eP - e).
  assert (Hn : 0 < n) by (unfold n; lia).
  assert (H2n : 0 < 2 ^ n) by (apply pow2_pos; lia).
  assert (Es : 2 ^ (eP - c) = 2 ^ n * 2 ^ (e - c)).
  { rewrite <- pow2_split by (unfold n; lia). f_equal. unfold n. lia. }
  rewrite Es in Hlo, Hhi.
  assert (Hlo' : Zpos mP * 2 ^ n < m).
  { apply (Z.mul_lt_mono_pos_r (2 ^ (e - c))); [ assumption | ].
    rewrite <- Z.mul_assoc. exact Hlo. }
  assert (Hhi' : 2 * m < (2 * Zpos mP + 1) * 2 ^ n).
  { apply (Z.mul_lt_mono_pos_r (2 ^ (e - c))); [ assumption | ].
    replace (2 * m * 2 ^ (e - c)) with (2 * (m * 2 ^ (e - c))) by ring.
    replace ((2 * Zpos mP + 1) * 2 ^ n * 2 ^ (e - c))
      with ((2 * Zpos mP + 1) * (2 ^ n * 2 ^ (e - c))) by ring.
    exact Hhi. }
  clear Hlo Hhi. rename Hlo' into Hlo. rename Hhi' into Hhi.
  (* the digits of the value *)
  assert (Hd : Zdigits2 m = Zpos (digits2_pos mP) + n).
  { destruct m as [ | q | q ]; try lia. cbn [Zdigits2].
    apply digits2_pos_unique.
    replace (Zpos (digits2_pos mP) + n - 1) with ((Zpos (digits2_pos mP) - 1) + n)
      by lia.
    rewrite !pow2_split by lia. split.
    - apply Z.le_trans with (Zpos mP * 2 ^ n); [ apply Z.mul_le_mono_nonneg_r; lia | lia ].
    - apply Z.lt_le_trans with ((Zpos mP + 1) * 2 ^ n); [ lia | ].
      apply Z.mul_le_mono_nonneg_r; lia. }
  assert (Hm1 : m / 2 ^ n = Zpos mP).
  { symmetry. apply Z.div_unique with (r := m - Zpos mP * 2 ^ n); lia. }
  assert (Hbit : Z.odd (m / 2 ^ (n - 1)) = false).
  { assert (E2n : 2 ^ n = 2 * 2 ^ (n - 1)).
    { replace n with (1 + (n - 1)) at 1 by lia. rewrite pow2_split by lia. reflexivity. }
    assert (H2n1 : 0 < 2 ^ (n - 1)) by (apply pow2_pos; lia).
    assert (Eq : m / 2 ^ (n - 1) = 2 * Zpos mP).
    { symmetry. apply Z.div_unique with (r := m - 2 * Zpos mP * 2 ^ (n - 1)); lia. }
    rewrite Eq. rewrite Z.odd_mul. reflexivity. }
  unfold binary_round_aux, shr_fexp. rewrite fexp_eq, Hd.
  replace (Z.max (Zpos (digits2_pos mP) + n + e - 53) (-1074) - e) with n by (unfold n; lia).
  destruct n as [ | p | p ] eqn:En; try lia.
  cbn [shr shr_record_of_loc].
  rewrite iter_pos_nat.
  destruct (iter_shr_1 (Pos.to_nat p) {| shr_m := m; shr_r := false; shr_s := false |})
    as [Em _]; [ cbn [shr_m]; lia | ].
  destruct (iter_shr_1 (Nat.pred (Pos.to_nat p))
              {| shr_m := m; shr_r := false; shr_s := false |}) as [_ Er];
    [ cbn [shr_m]; lia | ].
  replace (S (Nat.pred (Pos.to_nat p))) with (Pos.to_nat p) in Er by lia.
  cbn [shr_m] in Em, Er.
  rewrite positive_nat_Z in Em.
  replace (Z.of_nat (Nat.pred (Pos.to_nat p))) with (Zpos p - 1) in Er by lia.
  rewrite Hbit in Er. rewrite Hm1 in Em.
  set (mrs1 := Nat.iter (Pos.to_nat p) shr_1 {| shr_m := m; shr_r := false; shr_s := false |}) in *.
  assert (Hround : round_nearest_even (shr_m mrs1) (loc_of_shr_record mrs1) = Zpos mP).
  { destruct mrs1 as [m1 r1 s1]. cbn [shr_m shr_r] in *. subst m1 r1.
    destruct s1; reflexivity. }
  rewrite Hround. replace (e + Zpos p) with eP by lia.
  rewrite fexp_eq. cbn [Zdigits2]. rewrite CP, Z.sub_diag.
  cbn [shr shr_record_of_loc shr_m].
  replace (eP <=? emax - prec) with true by (symmetry; apply Z.leb_le; exact Hmax).
  reflexivity.
Qed.

Lemma SFleb_refl_finite (s : bool) (m : positive) (e : Z) :
  SFleb (S754_finite s m e) (S754_finite s m e) = true.
Proof.
  unfold SFleb. cbn [SFcompare]. rewrite Z.compare_refl, Pos.compare_cont_refl.
  destruct s; reflexivity.
Qed.

(** The product of two non-negative doubles that lies below the midpoint
    between a double and the next one is rounded to that double at most. *)
Lemma SFmul_le_near (x y : spec_float) (mP : positive) (eP : Z) :
  SFfinite_valid x -> SFfinite_valid y -> bounded prec emax mP eP = true ->
  0 <= SFval x -> 0 <= SFval y ->
  2 * (SFval x * SFval y) < (2 * Zpos mP + 1) * 2 ^ (eP + 1074) * 2 ^ 1074 ->
  SFleb (SF64mul x y) (S754_finite false mP eP) = true.
Proof.
  intros Hx Hy HB H0x H0y Hmid.
  assert (HP : SFfinite_valid (S754_finite false mP eP)) by (split; [ exact HB | reflexivity ]).
  destruct (Z.le_gt_cases (SFval x * SFval y) (SFval (S754_finite false mP eP) * 2 ^ 1074))
    as [Hle | Hgt].
  - apply (SFmul_bracket x y _ Hx Hy HP). exact Hle.
  - destruct Hx as [Vx Fx], Hy as [Vy Fy]. cbn [SFval cond_Zopp] in Hgt.
    pose proof (bounded_emin _ _ HB) as HeP.
    assert (HS : 0 < 2 ^ 1074) by (apply pow2_pos; lia).
    assert (HvP : 0 < Zpos mP * 2 ^ (eP + 1074)) by (apply SFval_pos; lia).
    destruct x as [sx | sx | | sx mx ex]; try discriminate; cbn [SFval] in *;
      [ rewrite Z.mul_0_l in Hgt; nia | ].
    destruct y as [sy | sy | | sy my ey]; try discriminate; cbn [SFval] in *;
      [ rewrite Z.mul_0_r in Hgt; nia | ].
    cbn [valid_binary] in Vx, Vy.
    pose proof (bounded_emin _ _ Vx) as Hex. pose proof (bounded_emin _ _ Vy) as Hey.
    pose proof (SFval_pos mx ex Hex) as Hvx. pose proof (SFval_pos my ey Hey) as Hvy.
    destruct sx; cbn [cond_Zopp] in *; [ lia | ].
    destruct sy; cbn [cond_Zopp] in *; [ lia | ].
    unfold SF64mul. cbn [SFmul xorb].
    assert (Ea : Zpos (mx * my) * 2 ^ (ex + ey - -2148)
                 = (Zpos mx * 2 ^ (ex + 1074)) * (Zpos my * 2 ^ (ey + 1074))).
    { rewrite Pos2Z.inj_mul. replace (ex + ey - -2148) with ((ex + 1074) + (ey + 1074)) by lia.
      rewrite pow2_split by lia. ring. }
    assert (Eb : 2 ^ (eP - -2148) = 2 ^ (eP + 1074) * 2 ^ 1074).
    { rewrite <- pow2_split by lia. f_equal. lia. }
    rewrite (binary_round_aux_down (Zpos (mx * my)) (ex + ey) mP eP (-2148));
      try assumption; try lia.
    apply SFleb_refl_finite.
Qed.

Lemma mul_le_near (x y P : float) (mP : positive) (eP : Z) :
  PrimFloat.is_finite x = true -> PrimFloat.is_finite y = true ->
  Prim2SF P = S754_finite false mP eP ->
  0 <= Fval x -> 0 <= Fval y ->
  2 * (Fval x * Fval y) < (2 * Zpos mP + 1) * 2 ^ (eP + 1074) * ulp1 ->
  (x * y <=? P)%float = true.
Proof.
  intros Fx Fy EP H0x H0y Hmid. rewrite leb_spec, mul_spec, EP.
  apply SFmul_le_near; try apply finite_valid; try assumption.
  pose proof (Prim2SF_valid P) as V. rewrite EP in V. exact V.
Qed.

(** ** More interval arithmetic *)

(** Two finite doubles of the same value, not zero, are the same double. *)
Lemma Fval_inj (x y : float) :
  PrimFloat.is_finite x = true -> PrimFloat.is_finite y = true ->
  Fval x = Fval y -> Fval x <> 0 -> x = y.
Proof.
  intros Fx Fy E Hne. apply Prim2SF_inj.
  pose proof (SFcompare_val _ _ (finite_valid x Fx) (finite_valid y Fy)) as Hc.
  fold (Fval x) (Fval y) in Hc. rewrite E, Z.compare_refl in Hc.
  rewrite is_finite_spec in Fx, Fy. unfold Fval in *.
  destruct (Prim2SF x) as [sx | sx | | sx mx ex]; try discriminate;
    cbn [SFval] in Hne; try lia.
  destruct (Prim2SF y) as [sy | sy | | sy my ey]; try discriminate;
    cbn [SFcompare] in Hc.
  - destruct sx; discriminate.
  - injection Hc as Hc. destruct sx, sy; try discriminate;
      destruct (Z.compare_spec ex ey); try discriminate; subst;
      rewrite Pos.compare_cont_spec in Hc; unfold Pos.switch_Eq in Hc;
      destruct (Pos.compare_spec mx my); try discriminate; subst; reflexivity.
Qed.

(** [Math.floor] of a double of at least 1 and below [2^52] is the double
    of an integer. *)
Lemma Math_floor_integer (lo hi x : float) (a b : Z) :
  all_finite [lo; hi] = true ->
  1 <= a -> b < 2 ^ 52 ->
  a * ulp1 <= Fval lo -> Fval hi < (b + 1) * ulp1 ->
  within lo hi x ->
  exists k : Z, a <= k <= b /\ JS.Math_floor x = JS.of_int k.
Proof.
  intros F Ha Hb Hlo Hhi Hx. finites F.
  destruct (within_val _ _ _ Fin Fin0 Hx) as [Fx Vx].
  pose proof ulp1_pos as HS.
  assert (H52 : Fval x < 2 ^ 52 * ulp1).
  { apply Z.lt_le_trans with ((b + 1) * ulp1); [ lia | ].
    apply Z.mul_le_mono_nonneg_r; lia. }
  assert (H0 : 0 <= Fval x).
  { apply Z.le_trans with (a * ulp1); [ apply Z.mul_nonneg_nonneg; lia | lia ]. }
  destruct (Math_floor_val x Fx (conj H0 H52)) as [Ff Vf].
  set (k := Fval x / ulp1) in *.
  assert (Hk : a <= k <= b).
  { split.
    - apply Z.div_le_lower_bound; [ lia | ]. rewrite Z.mul_comm. lia.
    - assert (k < b + 1); [ | lia ]. apply Z.div_lt_upper_bound; [ lia | ].
      rewrite Z.mul_comm. lia. }
  exists k. split; [ exact Hk | ].
  destruct (of_int_val k ltac:(lia)) as [Fk Vk].
  apply Fval_inj; try assumption.
  - rewrite Vf, Vk. reflexivity.
  - rewrite Vf. assert (0 < k * ulp1) by (apply Z.mul_pos_pos; lia). lia.
Qed.

Lemma Math_floor_within (lo hi c1 c2 x : float) :
  all_finite [lo; hi; c1; c2] = true ->
  0 <= Fval lo -> Fval hi < 2 ^ 52 * ulp1 ->
  Fval c1 <= Fval lo / ulp1 * ulp1 -> Fval hi / ulp1 * ulp1 <= Fval c2 ->
  within lo hi x -> within c1 c2 (JS.Math_floor x).
Proof.
  intros F H0 H52 H1 H2 Hx. finites F.
  destruct (within_val _ _ _ Fin Fin0 Hx) as [Fx Vx].
  destruct (Math_floor_val x Fx ltac:(lia)) as [Ff Vf].
  pose proof ulp1_pos as HS.
  assert (Fval lo / ulp1 <= Fval x / ulp1) by (apply Z.div_le_mono; lia).
  assert (Fval x / ulp1 <= Fval hi / ulp1) by (apply Z.div_le_mono; lia).
  split; apply leb_val; try assumption; rewrite Vf; nia.
Qed.

(** The product of two non-negative doubles, its upper bound taken below
    the midpoint between a double and the next one. *)
Lemma mul_within_near (a2 b2 c2 x y : float) (mP : positive) (eP : Z) :
  all_finite [a2; b2] = true ->
  Prim2SF c2 = S754_finite false mP eP ->
  2 * (Fval a2 * Fval b2) < (2 * Zpos mP + 1) * 2 ^ (eP + 1074) * ulp1 ->
  within 0 a2 x -> within 0 b2 y -> within 0 c2 (x * y)%float.
Proof.
  intros F EP Hmid Hx Hy. finites F.
  destruct (within_val 0 a2 x eq_refl Fin Hx) as [Fx Vx].
  destruct (within_val 0 b2 y eq_refl Fin0 Hy) as [Fy Vy].
  change (Fval 0) with 0 in Vx, Vy.
  split.
  - apply (mul_bracket x y 0 Fx Fy eq_refl). change (Fval 0) with 0.
    rewrite Z.mul_0_l. apply Z.mul_nonneg_nonneg; lia.
  - apply (mul_le_near x y c2 mP eP Fx Fy EP); try lia.
    eapply Z.le_lt_trans; [ | exact Hmid ].
    apply Z.mul_le_mono_nonneg_l; [ lia | ].
    apply Z.mul_le_mono_nonneg; lia.
Qed.

(** The product of a double of either sign by a non-negative one. *)
Lemma mul_within_mixed (a1 a2 b2 c1 c2 x y : float) :
  all_finite [a1; a2; b2; c1; c2] = true ->
  Fval a1 <= 0 -> 0 <= Fval a2 ->
  Fval c1 * ulp1 <= Fval a1 * Fval b2 -> Fval a2 * Fval b2 <= Fval c2 * ulp1 ->
  within a1 a2 x -> within 0 b2 y -> within c1 c2 (x * y)%float.
Proof.
  intros F Ha Ha' H1 H2 Hx Hy. finites F.
  destruct (within_val _ _ _ Fin Fin0 Hx) as [Fx Vx].
  destruct (within_val 0 b2 y eq_refl Fin1 Hy) as [Fy Vy].
  change (Fval 0) with 0 in Vy.
  split.
  - apply (mul_bracket x y c1); try assumption.
    apply Z.le_trans with (Fval a1 * Fval b2); [ assumption | ].
    destruct (Z.le_gt_cases 0 (Fval x)) as [Hp | Hn].
    + apply Z.le_trans with 0; [ | apply Z.mul_nonneg_nonneg; lia ].
      apply Z.mul_nonpos_nonneg; lia.
    + apply Z.le_trans with (Fval x * Fval b2).
      * apply Z.mul_le_mono_nonneg_r; lia.
      * apply Z.mul_le_mono_nonpos_l; lia.
  - apply (mul_bracket x y c2); try assumption.
    apply Z.le_trans with (Fval a2 * Fval b2); [ | assumption ].
    destruct (Z.le_gt_cases 0 (Fval x)) as [Hp | Hn].
    + apply Z.mul_le_mono_nonneg; lia.
    + apply Z.le_trans with 0; [ | apply Z.mul_nonneg_nonneg; lia ].
      apply Z.mul_nonpos_nonneg; lia.
Qed.

Lemma opp_within (lo hi x : float) :
  all_finite [lo; hi] = true ->
  within lo hi x -> within (- hi) (- lo) (- x)%float.
Proof.
  intros F Hx. finites F.
  destruct (within_val _ _ _ Fin Fin0 Hx) as [Fx Vx].
  split; apply leb_val; rewrite ?opp_finite, ?opp_val; try assumption; lia.
Qed.

Lemma draw_half : draw 0.5.
Proof. split; reflexivity. Qed.

Lemma draw_unit (u : float) : draw u -> unit_interval u.
Proof.
  intros H. destruct (draw_within u H) as [H0 H1]. split; [ exact H0 | ].
  destruct (within_val 0 below_one u eq_refl eq_refl (conj H0 H1)) as [Fu Vu].
  apply leb_val; [ assumption | reflexivity | ].
  eapply Z.le_trans; [ apply Vu | ]. closed.
Qed.

(** ** The ranges of the generated datasets *)

(** [Math.floor(x) + 1] for a non-negative [x] below an integer. *)
Lemma Math_floor_plus_one (hi x : float) (b : Z) :
  PrimFloat.is_finite hi = true ->
  0 <= b < 2 ^ 52 - 1 -> Fval hi < (b + 1) * ulp1 ->
  within 0 hi x ->
  exists k : Z, 1 <= k <= b + 1 /\ (JS.Math_floor x + 1)%float = JS.of_int k.
Proof.
  intros Fhi Hb Hhi Hx.
  destruct (within_val 0 hi x eq_refl Fhi Hx) as [Fx Vx]. change (Fval 0) with 0 in Vx.
  pose proof ulp1_pos as HS.
  assert (H52 : Fval x < 2 ^ 52 * ulp1).
  { apply Z.lt_le_trans with ((b + 1) * ulp1); [ lia | ].
    apply Z.mul_le_mono_nonneg_r; lia. }
  destruct (Math_floor_val x Fx ltac:(lia)) as [Ff Vf].
  set (k := Fval x / ulp1) in *.
  assert (Hk : 0 <= k <= b).
  { split; [ apply Z.div_pos; lia | ].
    assert (k < b + 1); [ | lia ]. apply Z.div_lt_upper_bound; [ lia | ].
    rewrite Z.mul_comm. lia. }
  exists (k + 1). split; [ lia | ].
  destruct (of_int_val (k + 1) ltac:(lia)) as [Fk Vk].
  destruct (exact_result (JS.Math_floor x + 1)%float (JS.of_int (k + 1)) Fk) as [Fr Vr].
  - apply (add_bracket _ 1%float _ Ff eq_refl Fk). change (Fval 1) with ulp1. lia.
  - apply (add_bracket _ 1%float _ Ff eq_refl Fk). change (Fval 1) with ulp1. lia.
  - apply Fval_inj; try assumption.
    rewrite Vr, Vk. assert (0 < (k + 1) * ulp1) by (apply Z.mul_pos_pos; lia). lia.
Qed.

Lemma of_int_within (a b k : Z) :
  0 <= a -> a <= k <= b -> b <= 2 ^ 53 ->
  within (JS.of_int a) (JS.of_int b) (JS.of_int k).
Proof. intros Ha Hk Hb. split; apply of_int_le; lia. Qed.

(** A positive number is truthy. *)
Lemma truthy_within (lo hi t : float) :
  all_finite [lo; hi] = true -> 0 < Fval lo -> within lo hi t -> JS.truthy t = true.
Proof.
  intros F Hlo Ht. finites F.
  destruct (within_val _ _ _ Fin Fin0 Ht) as [Ft Vt].
  unfold JS.truthy. rewrite (finite_not_nan t Ft), orb_false_r.
  apply negb_true_iff. unfold PrimFloat.is_zero.
  destruct (t =? PrimFloat.zero)%float eqn:E; [ exfalso | reflexivity ].
  apply (eqb_val t PrimFloat.zero Ft eq_refl) in E. change (Fval PrimFloat.zero) with 0 in E. lia.
Qed.

Lemma cancer_ranges (u_age u_stage u_time u_censored : float) :
  draw u_age -> draw u_stage -> draw u_time ->
  let s := Cancer.sample u_age u_stage u_time u_censored in
  within 40 80 (Cancer.age s) /\
  (exists k : Z, 1 <= k <= 4 /\ Cancer.stage s = JS.of_int k) /\
  within 28 70 (Cancer.survivalTime s) /\
  Cancer.survivalTime s
  = (60 - Cancer.age s / 10 - Cancer.stage s * 6 + u_time * 20)%float.
Proof.
  intros Ha Hs Ht s. apply draw_within in Ha, Hs, Ht.
  assert (A : within 40 80 (Cancer.age s)).
  { unfold s, Cancer.sample, Cancer.age.
    apply (add_within 40 40 0 40 40 80); try closed.
    - apply within_const. reflexivity.
    - apply (mul_within 0 below_one 40 40 0 40); try closed; try assumption.
      apply within_const. reflexivity. }
  assert (S : exists k : Z, 1 <= k <= 4 /\ Cancer.stage s = JS.of_int k).
  { unfold s, Cancer.sample, Cancer.stage.
    apply (Math_floor_plus_one (below_one * 4) (u_stage * 4) 3); try closed; [ lia | ].
    apply (mul_within 0 below_one 4 4 0 (below_one * 4)); try closed; try assumption.
    apply within_const. reflexivity. }
  assert (S' : within 1 4 (Cancer.stage s)).
  { destruct S as (k & Hk & ->). apply (of_int_within 1 4 k); lia. }
  assert (T : within 28 70 (60 - Cancer.age s / 10 - Cancer.stage s * 6 + u_time * 20)%float).
  { apply (add_within 28 50 0 20 28 70); try closed.
    - apply (sub_within 52 56 6 24 28 50); try closed.
      + apply (sub_within 60 60 4 8 52 56); try closed.
        * apply within_const. reflexivity.
        * apply (div_const_within 40 80 10 4 8); try closed. exact A.
      + apply (mul_within 1 4 6 6 6 24); try closed; try assumption.
        apply within_const. reflexivity.
    - apply (mul_within 0 below_one 20 20 0 20); try closed; try assumption.
      apply within_const. reflexivity. }
  assert (E : Cancer.survivalTime s
              = (60 - Cancer.age s / 10 - Cancer.stage s * 6 + u_time * 20)%float).
  { destruct (within_val 28 70 _ eq_refl eq_refl T) as [FT VT].
    unfold s, Cancer.sample, Cancer.survivalTime. cbv zeta.
    apply Math_max_right; [ reflexivity | exact FT | ].
    eapply Z.lt_le_trans; [ | apply VT ]. closed. }
  split; [ exact A | ]. split; [ exact S | ]. split; [ rewrite E; exact T | exact E ].
Qed.

Lemma heart_failure_ranges (u_ef u_class u_time u_censored : float) :
  draw u_ef -> draw u_class -> draw u_time ->
  let s := HeartFailure.sample u_ef u_class u_time u_censored in
  within 20 60 (HeartFailure.ejectionFraction s) /\
  (exists k : Z, 1 <= k <= 4 /\ HeartFailure.nyhaClass s = JS.of_int k) /\
  within 22 69 (HeartFailure.eventTime s) /\
  HeartFailure.eventTime s
  = (48 - (40 - HeartFailure.ejectionFraction s) / 2 - HeartFailure.nyhaClass s * 4
     + u_time * 15)%float.
Proof.
  intros Ha Hs Ht s. apply draw_within in Ha, Hs, Ht.
  assert (A : within 20 60 (HeartFailure.ejectionFraction s)).
  { unfold s, HeartFailure.sample, HeartFailure.ejectionFraction.
    apply (add_within 20 20 0 40 20 60); try closed.
    - apply within_const. reflexivity.
    - apply (mul_within 0 below_one 40 40 0 40); try closed; try assumption.
      apply within_const. reflexivity. }
  assert (S : exists k : Z, 1 <= k <= 4 /\ HeartFailure.nyhaClass s = JS.of_int k).
  { unfold s, HeartFailure.sample, HeartFailure.nyhaClass.
    apply (Math_floor_plus_one (below_one * 4) (u_class * 4) 3); try closed; [ lia | ].
    apply (mul_within 0 below_one 4 4 0 (below_one * 4)); try closed; try assumption.
    apply within_const. reflexivity. }
  assert (S' : within 1 4 (HeartFailure.nyhaClass s)).
  { destruct S as (k & Hk & ->). apply (of_int_within 1 4 k); lia. }
  assert (T : within 22 69
                (48 - (40 - HeartFailure.ejectionFraction s) / 2
                 - HeartFailure.nyhaClass s * 4 + u_time * 15)%float).
  { apply (add_within 22 54 0 15 22 69); try closed.
    - apply (sub_within 38 58 4 16 22 54); try closed.
      + apply (sub_within 48 48 (-10) 10 38 58); try closed.
        * apply within_const. reflexivity.
        * apply (div_const_within (-20) 20 2 (-10) 10); try closed.
          apply (sub_within 40 40 20 60 (-20) 20); try closed; [ | exact A ].
          apply within_const. reflexivity.
      + apply (mul_within 1 4 4 4 4 16); try closed; try assumption.
        apply within_const. reflexivity.
    - apply (mul_within 0 below_one 15 15 0 15); try closed; try assumption.
      apply within_const. reflexivity. }
  assert (E : HeartFailure.eventTime s
              = (48 - (40 - HeartFailure.ejectionFraction s) / 2
                 - HeartFailure.nyhaClass s * 4 + u_time * 15)%float).
  { destruct (within_val 22 69 _ eq_refl eq_refl T) as [FT VT].
    unfold s, HeartFailure.sample, HeartFailure.eventTime. cbv zeta.
    apply Math_max_right; [ reflexivity | exact FT | ].
    eapply Z.lt_le_trans; [ | apply VT ]. closed. }
  split; [ exact A | ]. split; [ exact S | ]. split; [ rewrite E; exact T | exact E ].
Qed.

(** X3: a cancer-survival record generated from draws of [Math.random()]
    has an age from 40 to 80, a stage that is one of 1, 2, 3, 4 and a
    survival time from 28 to 70 months; [Math.max(1, ...)] never has to
    lift the time, and the estimator reads this time, which is truthy. *)
Theorem cancer_survival_ranges :
  forall u_age u_stage u_time u_censored : float,
    draw u_age -> draw u_stage -> draw u_time ->
    let s := Cancer.sample u_age u_stage u_time u_censored in
    within 40 80 (Cancer.age s) /\
    (exists k : Z, (1 <= k <= 4)%Z /\ Cancer.stage s = JS.of_int k) /\
    within 28 70 (Cancer.survivalTime s) /\
    Cancer.survivalTime s
    = (60 - Cancer.age s / 10 - Cancer.stage s * 6 + u_time * 20)%float /\
    Cox_time (Cancer.to_obs s) = Some (Cancer.survivalTime s).
Proof.
  intros u_age u_stage u_time u_censored Ha Hs Ht s.
  destruct (cancer_ranges u_age u_stage u_time u_censored Ha Hs Ht) as (A & S & T & E).
  fold s in A, S, T, E.
  repeat (split; [ assumption | ]).
  unfold Cox_time, Cancer.to_obs, JS.or. cbn [Obs.survivalTime].
  rewrite (truthy_within 28 70 _ eq_refl ltac:(closed) T). reflexivity.
Qed.

Lemma cancer_survival_ranges_witness :
  within 28 70 (Cancer.survivalTime (Cancer.sample 0.5 0.5 0.5 0.5)).
Proof.
  apply (cancer_survival_ranges 0.5 0.5 0.5 0.5 draw_half draw_half draw_half).
Defined.

(** X4: a heart-failure record generated from draws of [Math.random()] has
    an ejection fraction from 20 to 60, a class that is one of 1, 2, 3, 4
    and an event time from 22 to 69 months, never lifted by
    [Math.max(1, ...)]; having no [survivalTime], it is read by
    [calculateKaplanMeier] at its [eventTime], and by the expression of the
    home page's copy as undefined. *)
Theorem heart_failure_ranges_and_time :
  forall u_ef u_class u_time u_censored : float,
    draw u_ef -> draw u_class -> draw u_time ->
    let s := HeartFailure.sample u_ef u_class u_time u_censored in
    within 20 60 (HeartFailure.ejectionFraction s) /\
    (exists k : Z, (1 <= k <= 4)%Z /\ HeartFailure.nyhaClass s = JS.of_int k) /\
    within 22 69 (HeartFailure.eventTime s) /\
    HeartFailure.eventTime s
    = (48 - (40 - HeartFailure.ejectionFraction s) / 2 - HeartFailure.nyhaClass s * 4
       + u_time * 15)%float /\
    HeartFailure.censored s = (0.25 <? u_censored)%float /\
    Cox_time (HeartFailure.to_obs s) = Some (HeartFailure.eventTime s) /\
    Obs.survivalTime (HeartFailure.to_obs s) = None.
Proof.
  intros u_ef u_class u_time u_censored Ha Hs Ht s.
  destruct (heart_failure_ranges u_ef u_class u_time u_censored Ha Hs Ht) as (A & S & T & E).
  fold s in A, S, T, E.
  repeat (split; [ assumption | ]).
  repeat split.
Qed.

Lemma heart_failure_ranges_and_time_witness :
  within 22 69 (HeartFailure.eventTime (HeartFailure.sample 0.5 0.5 0.5 0.5)).
Proof.
  apply (heart_failure_ranges_and_time 0.5 0.5 0.5 0.5 draw_half draw_half draw_half).
Defined.

(** [Math.floor] of a non-negative double below [2^52] is an integer,
    possibly zero. *)
Lemma Math_floor_natural (hi x : float) (b : Z) :
  PrimFloat.is_finite hi = true ->
  0 <= b < 2 ^ 52 -> Fval hi < (b + 1) * ulp1 ->
  within 0 hi x ->
  exists k : Z, 0 <= k <= b /\ (JS.Math_floor x =? JS.of_int k)%float = true /\
                within 0 (JS.of_int b) (JS.Math_floor x).
Proof.
  intros Fhi Hb Hhi Hx.
  destruct (within_val 0 hi x eq_refl Fhi Hx) as [Fx Vx]. change (Fval 0) with 0 in Vx.
  pose proof ulp1_pos as HS.
  assert (H52 : Fval x < 2 ^ 52 * ulp1).
  { apply Z.lt_le_trans with ((b + 1) * ulp1); [ lia | ].
    apply Z.mul_le_mono_nonneg_r; lia. }
  destruct (Math_floor_val x Fx ltac:(lia)) as [Ff Vf].
  set (k := Fval x / ulp1) in *.
  assert (Hk : 0 <= k <= b).
  { split; [ apply Z.div_pos; lia | ].
    assert (k < b + 1); [ | lia ]. apply Z.div_lt_upper_bound; [ lia | ].
    rewrite Z.mul_comm. lia. }
  destruct (of_int_val k ltac:(lia)) as [Fk Vk].
  destruct (of_int_val b ltac:(lia)) as [Fb Vb].
  exists k. split; [ exact Hk | ]. split.
  - apply eqb_val; try assumption. rewrite Vf, Vk. reflexivity.
  - split; apply leb_val; try assumption; try reflexivity.
    + change (Fval 0) with 0. rewrite Vf. apply Z.mul_nonneg_nonneg; lia.
    + rewrite Vf, Vb. apply Z.mul_le_mono_nonneg_r; lia.
Qed.

Section HospitalRanges.
Variable random : nat -> float.
Variable i : nat.
Hypothesis draw_beds : draw (random i).
Hypothesis draw_staff : draw (random (i + 1)).

Lemma hospital_bedCount :
  exists k : Z, 10 <= k <= 99 /\ JS.Math_floor (10 + random i * 90)%float = JS.of_int k.
Proof.
  pose proof (draw_within _ draw_beds) as Hu.
  apply (Math_floor_integer 10 0x1.8ffffffffffffp+6 _ 10 99); try closed; try lia.
  apply (add_within 10 10 0 0x1.67fffffffffffp+6 10 0x1.8ffffffffffffp+6); try closed.
  - apply within_const. reflexivity.
  - eapply (mul_within_near below_one 90 0x1.67fffffffffffp+6); try closed; try assumption.
    apply (within_weaken 90 90 0 90); try closed. apply within_const. reflexivity.
Qed.

Lemma hospital_staffRatio : within 0.2 0.7 (0.2 + random (i + 1) * 0.5)%float.
Proof.
  pose proof (draw_within _ draw_staff) as Hu.
  apply (add_within 0.2 0.2 0 (below_one * 0.5) 0.2 0.7); try closed.
  - apply within_const. reflexivity.
  - apply (mul_within 0 below_one 0.5 0.5 0 (below_one * 0.5)); try closed; try assumption.
    apply within_const. reflexivity.
Qed.

Lemma hospital_rate :
  within 0.15 3.97
    (Hospital.rate (JS.Math_floor (10 + random i * 90)) (0.2 + random (i + 1) * 0.5))%float.
Proof.
  destruct hospital_bedCount as (k & Hk & ->). pose proof hospital_staffRatio as Hs.
  unfold Hospital.rate.
  apply (mul_within 0.5 4.95 0.3 0.8 0.15 3.97); try closed.
  - apply (div_const_within 10 99 20 0.5 4.95); try closed.
    apply (of_int_within 10 99 k); lia.
  - apply (sub_within 1 1 0.2 0.7 0.3 0.8); try closed; [ | exact Hs ].
    apply within_const. reflexivity.
Qed.
End HospitalRanges.

(** X5: a hospital record of the Poisson page, generated from draws of
    [Math.random()], has a whole number of beds from 10 to 99 and a staff
    ratio from 0.2 to 0.7, so the rate handed to the sampler lies between
    0.15 and 4: it is positive. *)
Theorem hospital_infections_ranges :
  forall (Math_exp : float -> float) (random : nat -> float) (fuel i : nat)
         (s : Hospital.t) (i' : nat),
    draw (random i) -> draw (random (i + 1)%nat) ->
    Hospital.sample Math_exp random fuel i = Some (s, i') ->
    (exists k : Z, (10 <= k <= 99)%Z /\ Hospital.bedCount s = JS.of_int k) /\
    within 0.2 0.7 (Hospital.staffRatio s) /\
    within 0.15 4 (Hospital.rate (Hospital.bedCount s) (Hospital.staffRatio s)).
Proof.
  intros Math_exp random fuel i s i' Hb Hs. unfold Hospital.sample.
  destruct (Poisson.poissonSample _ _ _ _ _) as [[infections i1] | ]; [ | discriminate ].
  intros H. injection H as <- <-. cbn [Hospital.bedCount Hospital.staffRatio].
  split; [ apply hospital_bedCount; assumption | ].
  split; [ apply hospital_staffRatio; assumption | ].
  apply (within_weaken 0.15 3.97 0.15 4); try closed.
  apply hospital_rate; assumption.
Qed.

Lemma hospital_infections_ranges_witness :
  within 0.15 4 (Hospital.rate 55 0.45).
Proof.
  apply (hospital_infections_ranges Poisson.exp_model (fun _ => 0.5%float) 100 0
           {| Hospital.bedCount := 55; Hospital.staffRatio := 0.45;
              Hospital.infections := 2 |} 5 draw_half draw_half).
  reflexivity.
Defined.

(** X6: the home page's hospital record has the same beds and staff ratio,
    and its count, the floor of one draw times ten times the rate, is a
    whole number from 0 to 39. *)
Theorem home_infections_ranges :
  forall (random : nat -> float) (i : nat),
    draw (random i) -> draw (random (i + 1)%nat) -> draw (random (i + 2)%nat) ->
    exists s : Hospital.t,
      Hospital.Home_sample random i = Some (s, (i + 3)%nat) /\
      (exists k : Z, (10 <= k <= 99)%Z /\ Hospital.bedCount s = JS.of_int k) /\
      within 0.2 0.7 (Hospital.staffRatio s) /\
      (exists k : Z, (0 <= k <= 39)%Z /\
         (Hospital.infections s =? JS.of_int k)%float = true).
Proof.
  intros random i Hb Hs Hu. eexists. split; [ reflexivity | ].
  cbn [Hospital.bedCount Hospital.staffRatio Hospital.infections].
  split; [ apply hospital_bedCount; assumption | ].
  split; [ apply hospital_staffRatio; assumption | ].
  pose proof (hospital_rate random i Hb Hs) as Hr.
  pose proof (draw_within _ Hu) as Hw.
  destruct (Math_floor_natural 39.7
              (random (i + 2)%nat
               * Hospital.rate (JS.Math_floor (10 + random i * 90))
                   (0.2 + random (i + 1)%nat * 0.5) * 10)%float 39)
    as (k & Hk & E & _); try closed; try lia.
  - apply (mul_within 0 3.97 10 10 0 39.7); try closed.
    + apply (mul_within 0 below_one 0 3.97 0 3.97); try closed; try assumption.
      apply (within_weaken 0.15 3.97 0 3.97); try closed. exact Hr.
    + apply within_const. reflexivity.
  - exists k. split; assumption.
Qed.

Lemma home_infections_ranges_witness :
  exists s : Hospital.t,
    Hospital.Home_sample (fun _ => 0.5%float) 0 = Some (s, 3%nat) /\
    (exists k : Z, (10 <= k <= 99)%Z /\ Hospital.bedCount s = JS.of_int k) /\
    within 0.2 0.7 (Hospital.staffRatio s) /\
    (exists k : Z, (0 <= k <= 39)%Z /\
       (Hospital.infections s =? JS.of_int k)%float = true).
Proof.
  apply (home_infections_ranges (fun _ => 0.5%float) 0 draw_half draw_half draw_half).
Defined.

(** X7: an adverse-events record generated from draws of [Math.random()]
    has a whole number of patients from 50 to 199 and a whole number of
    medications from 2 to 10, the 10 being reached on the largest draw,
    where [2 + u * 8] is rounded up to 10; the rate handed to the sampler
    lies between 1 and 20. *)
Theorem adverse_events_ranges :
  forall (Math_exp : float -> float) (random : nat -> float) (fuel i : nat)
         (s : AdverseEvents.t) (i' : nat),
    draw (random i) -> draw (random (i + 1)%nat) ->
    AdverseEvents.sample Math_exp random fuel i = Some (s, i') ->
    (exists k : Z, (50 <= k <= 199)%Z /\ AdverseEvents.patientCount s = JS.of_int k) /\
    (exists k : Z, (2 <= k <= 10)%Z /\ AdverseEvents.medicationCount s = JS.of_int k) /\
    within 1 20
      (AdverseEvents.rate (AdverseEvents.patientCount s) (AdverseEvents.medicationCount s)) /\
    draw below_one /\ JS.Math_floor (2 + below_one * 8)%float = 10%float.
Proof.
  intros Math_exp random fuel i s i' Hp Hm. unfold AdverseEvents.sample.
  destruct (Poisson.poissonSample _ _ _ _ _) as [[events i1] | ]; [ | discriminate ].
  intros H. injection H as <- <-.
  cbn [AdverseEvents.patientCount AdverseEvents.medicationCount].
  pose proof (draw_within _ Hp) as Hu. pose proof (draw_within _ Hm) as Hv.
  assert (P : exists k : Z, 50 <= k <= 199 /\
                JS.Math_floor (50 + random i * 150)%float = JS.of_int k).
  { apply (Math_floor_integer 50 0x1.8ffffffffffffp+7 _ 50 199); try closed; try lia.
    apply (add_within 50 50 0 0x1.2bfffffffffffp+7 50 0x1.8ffffffffffffp+7); try closed.
    - apply within_const. reflexivity.
    - eapply (mul_within_near below_one 150 0x1.2bfffffffffffp+7); try closed; try assumption.
      apply (within_weaken 150 150 0 150); try closed. apply within_const. reflexivity. }
  assert (M : exists k : Z, 2 <= k <= 10 /\
                JS.Math_floor (2 + random (i + 1)%nat * 8)%float = JS.of_int k).
  { apply (Math_floor_integer 2 10 _ 2 10); try closed; try lia.
    apply (add_within 2 2 0 (below_one * 8) 2 10); try closed.
    - apply within_const. reflexivity.
    - apply (mul_within 0 below_one 8 8 0 (below_one * 8)); try closed; try assumption.
      apply within_const. reflexivity. }
  split; [ exact P | ]. split; [ exact M | ]. split.
  - destruct P as (k & Hk & ->). destruct M as (k' & Hk' & ->). unfold AdverseEvents.rate.
    apply (mul_within 1 4 1 5 1 20); try closed.
    + apply (div_const_within 50 199 50 1 4); try closed.
      apply (of_int_within 50 199 k); lia.
    + apply (div_const_within 2 10 2 1 5); try closed.
      apply (of_int_within 2 10 k'); lia.
  - split; [ split; reflexivity | reflexivity ].
Qed.

Lemma adverse_events_ranges_witness :
  within 1 20 (AdverseEvents.rate 125 6).
Proof.
  apply (adverse_events_ranges Poisson.exp_model (fun _ => 0.5%float) 100 0
           {| AdverseEvents.patientCount := 125; AdverseEvents.medicationCount := 6;
              AdverseEvents.events := 10 |} 13 draw_half draw_half).
  vm_compute. reflexivity.
Defined.

Lemma index_within (i : nat) :
  (i < 50)%nat -> within 0 49 (JS.of_int (Z.of_nat i)).
Proof. intros Hi. apply (of_int_within 0 49 (Z.of_nat i)); lia. Qed.

(** X8: the points of the two datasets of the linear page, generated at
    an index below 50 from draws of [Math.random()]: ages from 20 to 80
    with pressures from 90 to 144.5, heights from 150 to 190 with weights
    from 50 to 86.5. *)
Theorem linear_data_ranges :
  forall (i : nat) (u_x u_y : float),
    (i < 50)%nat -> draw u_x -> draw u_y ->
    within 20 80 (Datum.x (Linear.bpAge i u_x u_y)) /\
    within 90 144.5 (Datum.y (Linear.bpAge i u_x u_y)) /\
    within 150 190 (Datum.x (Linear.heightWeight i u_x u_y)) /\
    within 50 86.5 (Datum.y (Linear.heightWeight i u_x u_y)).
Proof.
  intros i u_x u_y Hi Hx Hy. apply draw_within in Hx, Hy.
  pose proof (index_within i Hi) as Hidx.
  unfold Linear.bpAge, Linear.heightWeight. cbn [Datum.x Datum.y].
  repeat split.
  - apply (add_within 20 20 0 60 20 80); try closed; [ apply within_const; reflexivity | ].
    apply (mul_within 0 below_one 60 60 0 60); try closed; try assumption.
    apply within_const. reflexivity.
  - apply (add_within 20 20 0 60 20 80); try closed; [ apply within_const; reflexivity | ].
    apply (mul_within 0 below_one 60 60 0 60); try closed; try assumption.
    apply within_const. reflexivity.
  - apply (add_within 90 114.5 0 30 90 144.5); try closed.
    + apply (add_within 90 90 0 24.5 90 114.5); try closed;
        [ apply within_const; reflexivity | ].
      apply (div_const_within 0 49 2 0 24.5); try closed. exact Hidx.
    + apply (mul_within 0 below_one 30 30 0 30); try closed; try assumption.
      apply within_const. reflexivity.
  - apply (add_within 90 114.5 0 30 90 144.5); try closed.
    + apply (add_within 90 90 0 24.5 90 114.5); try closed;
        [ apply within_const; reflexivity | ].
      apply (div_const_within 0 49 2 0 24.5); try closed. exact Hidx.
    + apply (mul_within 0 below_one 30 30 0 30); try closed; try assumption.
      apply within_const. reflexivity.
  - apply (add_within 150 150 0 40 150 190); try closed; [ apply within_const; reflexivity | ].
    apply (mul_within 0 below_one 40 40 0 40); try closed; try assumption.
    apply within_const. reflexivity.
  - apply (add_within 150 150 0 40 150 190); try closed; [ apply within_const; reflexivity | ].
    apply (mul_within 0 below_one 40 40 0 40); try closed; try assumption.
    apply within_const. reflexivity.
  - apply (add_within 50 66.5 0 20 50 86.5); try closed.
    + apply (add_within 50 50 0 16.5 50 66.5); try closed;
        [ apply within_const; reflexivity | ].
      apply (div_const_within 0 49 3 0 16.5); try closed. exact Hidx.
    + apply (mul_within 0 below_one 20 20 0 20); try closed; try assumption.
      apply within_const. reflexivity.
  - apply (add_within 50 66.5 0 20 50 86.5); try closed.
    + apply (add_within 50 50 0 16.5 50 66.5); try closed;
        [ apply within_const; reflexivity | ].
      apply (div_const_within 0 49 3 0 16.5); try closed. exact Hidx.
    + apply (mul_within 0 below_one 20 20 0 20); try closed; try assumption.
      apply within_const. reflexivity.
Qed.

Lemma linear_data_ranges_witness :
  within 90 144.5 (Datum.y (Linear.bpAge 10 0.5 0.5)).
Proof.
  apply (linear_data_ranges 10 0.5 0.5 ltac:(lia) draw_half draw_half).
Defined.

(** The noise term [(u - 0.5) * noiseLevel * 20] of the linear page. *)
Lemma noise_term_bounds (noiseLevel u : float) :
  draw u -> within 0 2 noiseLevel ->
  within (-20) 20 ((u - 0.5) * noiseLevel * 20)%float.
Proof.
  intros Hu Hn. apply draw_within in Hu.
  apply (mul_within_mixed (-1) 1 20 (-20) 20); try closed.
  - apply (mul_within_mixed (-0.5) 0.5 2 (-1) 1); try closed; [ | exact Hn ].
    apply (sub_within 0 below_one 0.5 0.5 (-0.5) 0.5); try closed; try assumption.
    apply within_const. reflexivity.
  - apply (within_weaken 20 20 0 20); try closed. apply within_const. reflexivity.
Qed.

Lemma noise_term_zero (u : float) :
  draw u -> within 0 0 ((u - 0.5) * 0 * 20)%float.
Proof.
  intros Hu. apply draw_within in Hu.
  apply (mul_within_mixed 0 0 20 0 0); try closed.
  - apply (mul_within_mixed (-0.5) 0.5 0 0 0); try closed.
    + apply (sub_within 0 below_one 0.5 0.5 (-0.5) 0.5); try closed; try assumption.
      apply within_const. reflexivity.
    + apply within_const. reflexivity.
  - apply (within_weaken 20 20 0 20); try closed. apply within_const. reflexivity.
Qed.

(** X9: the noise of the linear page moves a point by at most 20 up or
    down for every position of its slider, from 0 to 2, and never
    sideways; with the slider at 0 the plotted point is the generated
    one. *)
Theorem linear_noise_bounds :
  forall (noiseLevel : float) (d : Datum.t) (u : float),
    draw u -> within 0 2 noiseLevel ->
    Datum.x (Linear.noisy noiseLevel d u) = Datum.x d /\
    (within 90 144.5 (Datum.y d) ->
     within 70 164.5 (Datum.y (Linear.noisy noiseLevel d u))) /\
    (within 50 86.5 (Datum.y d) ->
     within 30 106.5 (Datum.y (Linear.noisy noiseLevel d u))) /\
    (PrimFloat.is_finite (Datum.y d) = true -> (0 <? Datum.y d)%float = true ->
     Linear.noisy 0 d u = d).
Proof.
  intros noiseLevel d u Hu Hn. pose proof (noise_term_bounds noiseLevel u Hu Hn) as Hz.
  unfold Linear.noisy. cbn [Datum.x Datum.y].
  split; [ reflexivity | ]. split; [ | split ].
  - intros Hy. apply (add_within 90 144.5 (-20) 20 70 164.5); try closed; assumption.
  - intros Hy. apply (add_within 50 86.5 (-20) 20 30 106.5); try closed; assumption.
  - intros Fy Hpos. destruct d as [x y]. cbn [Datum.x Datum.y] in *. f_equal.
    apply (ltb_val 0 y eq_refl Fy) in Hpos. change (Fval 0) with 0 in Hpos.
    destruct (within_val 0 0 _ eq_refl eq_refl (noise_term_zero u Hu)) as [Fz Vz].
    change (Fval 0) with 0 in Vz.
    destruct (exact_result (y + (u - 0.5) * 0 * 20)%float y Fy) as [Fr Vr].
    + apply (add_bracket _ _ y Fy Fz Fy). lia.
    + apply (add_bracket _ _ y Fy Fz Fy). lia.
    + apply Fval_inj; try assumption. lia.
Qed.

Lemma linear_noise_bounds_witness :
  Datum.x (Linear.noisy 1 (Linear.bpAge 10 0.5 0.5) 0.5)
  = Datum.x (Linear.bpAge 10 0.5 0.5).
Proof.
  apply (linear_noise_bounds 1 (Linear.bpAge 10 0.5 0.5) 0.5 draw_half).
  split; reflexivity.
Defined.

(** X10: a record of the BMI dataset generated from draws of
    [Math.random()]: a height from 150 to 190, a weight from 50 to 100, an
    age from 20 to 80, and a body-mass index, computed from the first two
    alone, between 13.6 and 44.5. *)
Theorem bmi_factors_ranges :
  forall u_height u_weight u_age : float,
    draw u_height -> draw u_weight -> draw u_age ->
    let s := BmiFactors.sample u_height u_weight u_age in
    within 150 190 (BmiFactors.height s) /\
    within 50 100 (BmiFactors.weight s) /\
    within 20 80 (BmiFactors.age s) /\
    within 13.6 44.5 (BmiFactors.bmi s) /\
    BmiFactors.bmi s
    = (BmiFactors.weight s
       / (BmiFactors.height s / 100 * (BmiFactors.height s / 100)))%float.
Proof.
  intros u_height u_weight u_age Hh Hw Ha s. apply draw_within in Hh, Hw, Ha.
  assert (H : within 150 190 (BmiFactors.height s)).
  { unfold s, BmiFactors.sample, BmiFactors.height.
    apply (add_within 150 150 0 40 150 190); try closed;
      [ apply within_const; reflexivity | ].
    apply (mul_within 0 below_one 40 40 0 40); try closed; try assumption.
    apply within_const. reflexivity. }
  assert (W : within 50 100 (BmiFactors.weight s)).
  { unfold s, BmiFactors.sample, BmiFactors.weight.
    apply (add_within 50 50 0 50 50 100); try closed;
      [ apply within_const; reflexivity | ].
    apply (mul_within 0 below_one 50 50 0 50); try closed; try assumption.
    apply within_const. reflexivity. }
  assert (A : within 20 80 (BmiFactors.age s)).
  { unfold s, BmiFactors.sample, BmiFactors.age.
    apply (add_within 20 20 0 60 20 80); try closed;
      [ apply within_const; reflexivity | ].
    apply (mul_within 0 below_one 60 60 0 60); try closed; try assumption.
    apply within_const. reflexivity. }
  assert (M : within 1.5 1.91 (BmiFactors.height s / 100)%float).
  { apply (div_const_within 150 190 100 1.5 1.91); try closed. exact H. }
  split; [ exact H | ]. split; [ exact W | ]. split; [ exact A | ].
  split; [ | reflexivity ].
  change (BmiFactors.bmi s)
    with (BmiFactors.weight s
          / (BmiFactors.height s / 100 * (BmiFactors.height s / 100)))%float.
  apply (div_within 50 100 2.25 3.65 13.6 44.5); try closed; [ exact W | ].
  apply (mul_within 1.5 1.91 1.5 1.91 2.25 3.65); try closed; exact M.
Qed.

Lemma bmi_factors_ranges_witness :
  within 13.6 44.5 (BmiFactors.bmi (BmiFactors.sample 0.5 0.5 0.5)).
Proof.
  apply (bmi_factors_ranges 0.5 0.5 0.5 draw_half draw_half draw_half).
Defined.

(** X11: a record of the hospital-stay dataset generated from draws of
    [Math.random()]: an age from 20 to 80, a severity from 0 to 10, a
    whole number of comorbidities from 0 to 4, and a stay between 3 and
    34 days. *)
Theorem hospital_stay_ranges :
  forall u_age u_severity u_comorbidities u_stay : float,
    draw u_age -> draw u_severity -> draw u_comorbidities -> draw u_stay ->
    let s := HospitalStay.sample u_age u_severity u_comorbidities u_stay in
    within 20 80 (HospitalStay.age s) /\
    within 0 10 (HospitalStay.severity s) /\
    (exists k : Z, (0 <= k <= 4)%Z /\
       (HospitalStay.comorbidities s =? JS.of_int k)%float = true) /\
    within 3 34 (HospitalStay.stayDuration s).
Proof.
  intros u_age u_severity u_comorbidities u_stay Ha Hs Hc Hd s.
  apply draw_within in Ha, Hs, Hc, Hd.
  assert (A : within 20 80 (HospitalStay.age s)).
  { unfold s, HospitalStay.sample, HospitalStay.age.
    apply (add_within 20 20 0 60 20 80); try closed;
      [ apply within_const; reflexivity | ].
    apply (mul_within 0 below_one 60 60 0 60); try closed; try assumption.
    apply within_const. reflexivity. }
  assert (V : within 0 10 (HospitalStay.severity s)).
  { unfold s, HospitalStay.sample, HospitalStay.severity.
    apply (mul_within 0 below_one 10 10 0 10); try closed; try assumption.
    apply within_const. reflexivity. }
  destruct (Math_floor_natural 0x1.3ffffffffffffp+2 (u_comorbidities * 5)%float 4)
    as (k & Hk & Ek & Wk); try closed; try lia.
  { eapply (mul_within_near below_one 5 0x1.3ffffffffffffp+2); try closed; try assumption.
    apply (within_weaken 5 5 0 5); try closed. apply within_const. reflexivity. }
  split; [ exact A | ]. split; [ exact V | ].
  split; [ exists k; split; assumption | ].
  unfold s, HospitalStay.sample, HospitalStay.stayDuration. cbv zeta.
  apply (add_within 3 29 0 5 3 34); try closed.
  - apply (add_within 3 21 0 8 3 29); try closed.
    + apply (add_within 3 6 0 15 3 21); try closed.
      * apply (add_within 2 2 1 4 3 6); try closed; [ apply within_const; reflexivity | ].
        apply (div_const_within 20 80 20 1 4); try closed. exact A.
      * apply (mul_within 0 10 1.5 1.5 0 15); try closed; [ exact V | ].
        apply within_const. reflexivity.
    + apply (mul_within 0 4 2 2 0 8); try closed; [ exact Wk | ].
      apply within_const. reflexivity.
  - apply (mul_within 0 below_one 5 5 0 5); try closed; try assumption.
    apply within_const. reflexivity.
Qed.

Lemma hospital_stay_ranges_witness :
  within 3 34 (HospitalStay.stayDuration (HospitalStay.sample 0.5 0.5 0.5 0.5)).
Proof.
  apply (hospital_stay_ranges 0.5 0.5 0.5 0.5 draw_half draw_half draw_half draw_half).
Defined.

Local Close Scope Z_scope.

(** ** Sorting by a numeric key *)

(** The comparator [a - b] is positive exactly when [a] is the larger. *)
Lemma sub_sign (a b : float) :
  PrimFloat.is_finite a = true -> PrimFloat.is_finite b = true ->
  (0 <? a - b)%float = (Fval b <? Fval a)%Z.
Proof.
  intros Fa Fb. destruct (Z.ltb_spec (Fval b) (Fval a)) as [Hlt | Hge].
  - apply (ltb_leb_trans 0 0x1p-1074 (a - b)); [ reflexivity | ].
    apply (sub_bracket a b 0x1p-1074 Fa Fb eq_refl).
    change (Fval 0x1p-1074) with 1%Z. lia.
  - apply leb_not_ltb. apply (sub_bracket a b 0 Fa Fb eq_refl).
    change (Fval 0) with 0%Z. lia.
Qed.

Section SortByKey.
Context {A : Type}.
Variable key : A -> float.

Local Abbreviation compare := (fun a b : A => (key a - key b)%float).

Lemma sort_insert_perm (cmp : A -> A -> float) (a : A) (l : list A) :
  Permutation (sort_insert cmp a l) (a :: l).
Proof.
  induction l as [ | b rest IH ]; cbn [sort_insert]; [ reflexivity | ].
  destruct (0 <? cmp a b)%float; [ | reflexivity ].
  rewrite IH. apply perm_swap.
Qed.

Lemma Array_sort_perm (cmp : A -> A -> float) (l : list A) :
  Permutation (Array_sort cmp l) l.
Proof.
  unfold Array_sort. induction l as [ | a rest IH ]; cbn [fold_right]; [ reflexivity | ].
  rewrite sort_insert_perm. constructor. exact IH.
Qed.

Lemma ascending_cons (a : float) (l : list float) :
  Cancer.ascending (a :: l) = true <->
  match l with
  | [] => True
  | b :: _ => (a <=? b)%float = true
  end /\ Cancer.ascending l = true.
Proof.
  destruct l as [ | b rest ]; cbn [Cancer.ascending].
  - split; [ intros _; split; [ exact I | reflexivity ] | reflexivity ].
  - rewrite andb_true_iff. reflexivity.
Qed.

Lemma sort_insert_ascending (a : A) (l : list A) :
  PrimFloat.is_finite (key a) = true ->
  Forall (fun b => PrimFloat.is_finite (key b) = true) l ->
  Cancer.ascending (map key l) = true ->
  Cancer.ascending (map key (sort_insert compare a l)) = true.
Proof.
  intros Fa. induction l as [ | b rest IH ]; intros HF Hasc; cbn [sort_insert].
  - reflexivity.
  - inversion HF as [ | b' rest' Fb HF' ]; subst.
    rewrite (sub_sign (key a) (key b) Fa Fb).
    cbn [map] in Hasc. apply ascending_cons in Hasc. destruct Hasc as [Hhd Hrest].
    destruct (Z.ltb_spec (Fval (key b)) (Fval (key a))) as [Hlt | Hge].
    + cbn [map]. apply ascending_cons. split; [ | apply IH; assumption ].
      destruct rest as [ | c rest ]; cbn [sort_insert map].
      * apply leb_val; try assumption. lia.
      * inversion HF' as [ | c' rest' Fc _ ]; subst.
        rewrite (sub_sign (key a) (key c) Fa Fc).
        destruct (Fval (key c) <? Fval (key a))%Z; cbn [map].
        -- exact Hhd.
        -- apply leb_val; try assumption. lia.
    + cbn [map]. apply ascending_cons. split.
      * apply leb_val; assumption.
      * apply ascending_cons. split; assumption.
Qed.

(** Sorting records with finite keys by [a.key - b.key] puts them in
    ascending order of the key. *)
Lemma Array_sort_ascending (l : list A) :
  Forall (fun b => PrimFloat.is_finite (key b) = true) l ->
  Cancer.ascending (map key (Array_sort compare l)) = true.
Proof.
  unfold Array_sort. induction l as [ | a rest IH ]; intros HF; cbn [fold_right].
  - reflexivity.
  - inversion HF as [ | a' rest' Fa HF' ]; subst.
    apply sort_insert_ascending; try assumption; [ | apply IH; assumption ].
    eapply Permutation_Forall; [ | exact HF' ].
    symmetry. apply (Array_sort_perm compare rest).
Qed.
End SortByKey.

(** [Array.from] with a callback that always returns, taking [c] draws. *)
Lemma Array_from_total {A : Type} (g : nat -> A) (c : nat) (n : nat) : forall i,
  Array_from n (fun i => Some (g i, i + c)%nat) i
  = Some (map (fun j => g (i + c * j)%nat) (seq 0 n), (i + c * n)%nat).
Proof.
  induction n as [ | n IH ]; intros i; cbn [Array_from].
  - cbn [seq map]. do 2 f_equal. lia.
  - rewrite IH. cbn [seq map]. f_equal. f_equal.
    + f_equal; [ f_equal; lia | ].
      rewrite <- seq_shift, map_map. apply map_ext. intros j. f_equal. lia.
    + lia.
Qed.

(** The example source draws from the unit interval, 1 excluded. *)
Lemma example_source_draw (i : nat) : draw (Cancer.example_source i).
Proof.
  unfold Cancer.example_source.
  assert (H : forallb (fun n : nat =>
                ((0 <=? JS.of_int (Z.of_nat n) / 101) && (JS.of_int (Z.of_nat n) / 101 <? 1))%float)
              (seq 0 101) = true) by (vm_compute; reflexivity).
  rewrite forallb_forall in H.
  specialize (H ((i * 37) mod 101)%nat).
  destruct (andb_prop _ _ (H ltac:(apply in_seq; pose proof (Nat.mod_upper_bound (i * 37) 101); lia)))
    as [H0 H1].
  split; assumption.
Qed.

(** X12: for every random source, the cancer dataset and the heart-failure
    dataset are the 100 generated records, rearranged: each is a
    permutation of the records its generator draws, sorted in ascending
    order of time, every time within the range of its generator; so the
    points of the Kaplan-Meier curve of the cancer dataset carry the
    ascending survival times, and those of the heart-failure dataset the
    ascending event times. *)
Theorem survival_datasets_sorted :
  forall random : nat -> float,
    (forall i, draw (random i)) ->
    Permutation (Cancer.data random)
      (map (fun j => Cancer.sample (random (4 * j)%nat) (random (4 * j + 1)%nat)
                       (random (4 * j + 2)%nat) (random (4 * j + 3)%nat))
           (seq 0 100)) /\
    length (Cancer.data random) = 100%nat /\
    Cancer.ascending (map Cancer.survivalTime (Cancer.data random)) = true /\
    Forall (fun s => within 28 70 (Cancer.survivalTime s)) (Cancer.data random) /\
    map Point.time (calculateKaplanMeier (map Cancer.to_obs (Cancer.data random)))
    = map (fun s => Some (Cancer.survivalTime s)) (Cancer.data random) /\
    Permutation (HeartFailure.data random)
      (map (fun j => HeartFailure.sample (random (4 * j)%nat) (random (4 * j + 1)%nat)
                       (random (4 * j + 2)%nat) (random (4 * j + 3)%nat))
           (seq 0 100)) /\
    length (HeartFailure.data random) = 100%nat /\
    Cancer.ascending (map HeartFailure.eventTime (HeartFailure.data random)) = true /\
    Forall (fun s => within 22 69 (HeartFailure.eventTime s)) (HeartFailure.data random) /\
    map Point.time
        (calculateKaplanMeier (map HeartFailure.to_obs (HeartFailure.data random)))
    = map (fun s => Some (HeartFailure.eventTime s)) (HeartFailure.data random).
Proof.
  intros random Hdraw.
  set (cs := map (fun j => Cancer.sample (random (4 * j)%nat) (random (4 * j + 1)%nat)
                             (random (4 * j + 2)%nat) (random (4 * j + 3)%nat))
                 (seq 0 100)).
  set (hs := map (fun j => HeartFailure.sample (random (4 * j)%nat) (random (4 * j + 1)%nat)
                             (random (4 * j + 2)%nat) (random (4 * j + 3)%nat))
                 (seq 0 100)).
  assert (C : Cancer.data random
              = Array_sort (fun a b => (Cancer.survivalTime a - Cancer.survivalTime b)%float) cs).
  { unfold Cancer.data.
    rewrite (Array_from_total
               (fun i => Cancer.sample (random i) (random (i + 1)%nat) (random (i + 2)%nat)
                           (random (i + 3)%nat)) 4 100 0).
    reflexivity. }
  assert (H : HeartFailure.data random
              = Array_sort (fun a b => (HeartFailure.eventTime a - HeartFailure.eventTime b)%float)
                           hs).
  { unfold HeartFailure.data.
    rewrite (Array_from_total
               (fun i => HeartFailure.sample (random i) (random (i + 1)%nat)
                           (random (i + 2)%nat) (random (i + 3)%nat)) 4 100 0).
    reflexivity. }
  assert (Lc : length cs = 100%nat) by (unfold cs; rewrite length_map, length_seq; reflexivity).
  assert (Lh : length hs = 100%nat) by (unfold hs; rewrite length_map, length_seq; reflexivity).
  assert (Fc : Forall (fun s => within 28 70 (Cancer.survivalTime s)) cs).
  { apply Forall_forall. intros s Hin. apply in_map_iff in Hin. destruct Hin as (j & <- & _).
    apply cancer_ranges; apply Hdraw. }
  assert (Fh : Forall (fun s => within 22 69 (HeartFailure.eventTime s)) hs).
  { apply Forall_forall. intros s Hin. apply in_map_iff in Hin. destruct Hin as (j & <- & _).
    apply heart_failure_ranges; apply Hdraw. }
  clearbody cs hs. rewrite C, H.
  pose proof (Array_sort_perm (fun a b => (Cancer.survivalTime a - Cancer.survivalTime b)%float) cs)
    as Pc.
  pose proof (Array_sort_perm
                (fun a b => (HeartFailure.eventTime a - HeartFailure.eventTime b)%float) hs)
    as Ph.
  assert (Fc' : Forall (fun s => within 28 70 (Cancer.survivalTime s))
                  (Array_sort (fun a b => (Cancer.survivalTime a - Cancer.survivalTime b)%float) cs)).
  { eapply Permutation_Forall; [ symmetry; exact Pc | exact Fc ]. }
  assert (Fh' : Forall (fun s => within 22 69 (HeartFailure.eventTime s))
                  (Array_sort
                     (fun a b => (HeartFailure.eventTime a - HeartFailure.eventTime b)%float) hs)).
  { eapply Permutation_Forall; [ symmetry; exact Ph | exact Fh ]. }
  split; [ exact Pc | ].
  split; [ rewrite (Permutation_length Pc); exact Lc | ].
  split.
  { apply (Array_sort_ascending Cancer.survivalTime).
    eapply Forall_impl; [ | exact Fc ]. intros s Hs.
    apply (between_finite 28 70 _ eq_refl eq_refl Hs). }
  split; [ exact Fc' | ].
  split.
  { unfold calculateKaplanMeier. rewrite run_times, map_map.
    apply map_ext_in. intros s Hin. rewrite Forall_forall in Fc'.
    unfold Cox_time, Cancer.to_obs, JS.or. cbn [Obs.survivalTime].
    rewrite (truthy_within 28 70 _ eq_refl ltac:(closed) (Fc' s Hin)). reflexivity. }
  split; [ exact Ph | ].
  split; [ rewrite (Permutation_length Ph); exact Lh | ].
  split.
  { apply (Array_sort_ascending HeartFailure.eventTime).
    eapply Forall_impl; [ | exact Fh ]. intros s Hs.
    apply (between_finite 22 69 _ eq_refl eq_refl Hs). }
  split; [ exact Fh' | ].
  unfold calculateKaplanMeier. rewrite run_times, map_map. reflexivity.
Qed.

Lemma survival_datasets_sorted_witness :
  Cancer.ascending
    (map Cancer.survivalTime
       (map (fun j => Cancer.sample (Cancer.example_source (4 * j)%nat)
                        (Cancer.example_source (4 * j + 1)%nat)
                        (Cancer.example_source (4 * j + 2)%nat)
                        (Cancer.example_source (4 * j + 3)%nat))
            (seq 0 100))) = false /\
  Permutation (Cancer.data Cancer.example_source)
    (map (fun j => Cancer.sample (Cancer.example_source (4 * j)%nat)
                     (Cancer.example_source (4 * j + 1)%nat)
                     (Cancer.example_source (4 * j + 2)%nat)
                     (Cancer.example_source (4 * j + 3)%nat))
         (seq 0 100)) /\
  Cancer.ascending (map Cancer.survivalTime (Cancer.data Cancer.example_source)) = true.
Proof.
  split; [ vm_compute; reflexivity | ].
  pose proof (survival_datasets_sorted Cancer.example_source example_source_draw) as H.
  split; [ exact (proj1 H) | exact (proj1 (proj2 (proj2 H))) ].
Defined.

(** ** More on the Kaplan-Meier estimator *)

Section KaplanMeierMore.
Variable time_of : Obs.t -> option float.

(** While the records are censored the probability stays where it was. *)
Lemma fold_step_flat (data : list Obs.t) : forall st i pt,
  (forall j d, (j <= i)%nat -> nth_error data j = Some d -> Obs.censored d = true) ->
  nth_error (KM.survival (fold_left (KM.step time_of) data st))
            (length (KM.survival st) + i) = Some pt ->
  Point.probability pt = KM.currentProb st.
Proof.
  induction data as [ | d rest IH ]; intros st i pt Hc; cbn [fold_left].
  - intros H. assert (Hlt : (length (KM.survival st) + i < length (KM.survival st))%nat).
    { apply nth_error_Some. congruence. }
    lia.
  - assert (Hd : Obs.censored d = true) by (apply (Hc 0%nat); [ lia | reflexivity ]).
    assert (Est : KM.step time_of st d
                  = {| KM.n := (KM.n st - 1)%float;
                       KM.survival := KM.survival st ++
                         [ {| Point.time := time_of d;
                              Point.probability := KM.currentProb st;
                              Point.censored := true |} ];
                       KM.currentProb := KM.currentProb st |}).
    { unfold KM.step. rewrite Hd. reflexivity. }
    destruct i as [ | i ].
    + intros H.
      assert (Hpt : nth_error (KM.survival (KM.step time_of st d)) (length (KM.survival st))
                    = Some pt).
      { assert (Hpre : forall l s, (length (KM.survival st) < length (KM.survival s))%nat ->
                  nth_error (KM.survival (fold_left (KM.step time_of) l s))
                            (length (KM.survival st))
                  = nth_error (KM.survival s) (length (KM.survival st))).
        { induction l as [ | e l IHl ]; intros s Hs; cbn [fold_left]; [ reflexivity | ].
          rewrite IHl.
          - unfold KM.step. cbn [KM.survival]. apply nth_error_app1. exact Hs.
          - unfold KM.step. cbn [KM.survival]. rewrite length_app. lia. }
        rewrite <- Hpre with (l := rest); [ rewrite Nat.add_0_r in H; exact H | ].
        rewrite Est. cbn [KM.survival]. rewrite length_app. cbn [length]. lia. }
      rewrite Est in Hpt. cbn [KM.survival] in Hpt.
      rewrite nth_error_app2, Nat.sub_diag in Hpt by lia.
      cbn [nth_error] in Hpt. injection Hpt as <-. reflexivity.
    + intros H.
      rewrite (IH (KM.step time_of st d) i pt).
      * rewrite Est. reflexivity.
      * intros j e Hj He. apply (Hc (S j)); [ lia | exact He ].
      * rewrite Est at 2. cbn [KM.survival]. rewrite length_app. cbn [length].
        replace (length (KM.survival st) + 1 + i)%nat with (length (KM.survival st) + S i)%nat
          by lia. exact H.
Qed.

Lemma run_flat (data : list Obs.t) (i : nat) (pt : Point.t) :
  (forall j d, (j <= i)%nat -> nth_error data j = Some d -> Obs.censored d = true) ->
  nth_error (KM.run time_of data) i = Some pt ->
  Point.probability pt = 1%float.
Proof.
  intros Hc H. unfold KM.run in H.
  apply (fold_step_flat data (KM.init data) i pt Hc). exact H.
Qed.

(** The record that is alone at risk brings the probability to zero when
    it is an event. *)
Lemma run_last_event (init : list Obs.t) (d : Obs.t) (pt : Point.t) :
  (Z.of_nat (length (init ++ [d])) < 2 ^ 53)%Z ->
  Obs.censored d = false ->
  nth_error (KM.run time_of (init ++ [d])) (length init) = Some pt ->
  (Point.probability pt =? 0)%float = true.
Proof.
  intros Hlen Hd Hpt. rewrite run_curve in Hpt by exact Hlen.
  assert (Hnth : nth_error (init ++ [d]) (length init) = Some d).
  { rewrite nth_error_app2, Nat.sub_diag by lia. reflexivity. }
  destruct (curve_nth time_of _ (Z.of_nat (length (init ++ [d]))) 1 _ _ Hnth)
    as (prev & Hprev & Hpt').
  rewrite Hpt in Hpt'. injection Hpt' as ->.
  unfold KM.point_for. cbn [Point.probability]. rewrite Hd.
  replace (Z.of_nat (length (init ++ [d])) - Z.of_nat (length init))%Z with 1%Z
    by (rewrite length_app; cbn [length]; lia).
  change (JS.of_int (1 - 1) / JS.of_int 1)%float with 0%float.
  assert (Hunit : unit_interval prev).
  { destruct (length init) as [ | i ] eqn:Ei.
    - cbn [nth_error] in Hprev. injection Hprev as <-. exact unit_interval_one.
    - cbn [nth_error] in Hprev. rewrite nth_error_map in Hprev.
      destruct (nth_error (KM.curve time_of (Z.of_nat (length (init ++ [d]))) 1 (init ++ [d])) i)
        as [ q | ] eqn:Eq; [ | discriminate ].
      cbn [option_map] in Hprev. injection Hprev as <-.
      pose proof (curve_bounded time_of (init ++ [d]) 1 1 Hlen eq_refl eq_refl eq_refl) as HF.
      rewrite Forall_forall in HF. apply HF. eapply nth_error_In. exact Eq. }
  destruct (within_val 0 1 prev eq_refl eq_refl Hunit) as [Fp Vp].
  destruct (exact_result (prev * 0)%float 0%float eq_refl) as [F0 V0].
  - apply (mul_bracket prev 0 0 Fp eq_refl eq_refl). change (Fval 0) with 0%Z. lia.
  - apply (mul_bracket prev 0 0 Fp eq_refl eq_refl). change (Fval 0) with 0%Z. lia.
  - apply eqb_val; [ exact F0 | reflexivity | exact V0 ].
Qed.
End KaplanMeierMore.



(** X14: as long as every record so far is censored the curve stays at 1,
    in both copies of the estimator; on a dataset without events it
    never leaves 1. *)
Theorem kaplan_meier_flat_before_first_event :
  forall (data : list Obs.t) (i : nat),
    (forall j d, (j <= i)%nat -> nth_error data j = Some d -> Obs.censored d = true) ->
    (forall pt, nth_error (calculateKaplanMeier data) i = Some pt ->
                Point.probability pt = 1%float) /\
    (forall pt, nth_error (Home_kaplanMeier data) i = Some pt ->
                Point.probability pt = 1%float).
Proof.
  intros data i Hc. split; intros pt; apply run_flat; exact Hc.
Qed.

Lemma kaplan_meier_flat_before_first_event_witness :
  exists pt,
    nth_error (calculateKaplanMeier [censored_at 1; censored_at 2; uncensored_at 3]) 1
    = Some pt /\ Point.probability pt = 1%float.
Proof.
  eexists. split; [ reflexivity | ].
  apply (proj1 (kaplan_meier_flat_before_first_event
                  [censored_at 1; censored_at 2; uncensored_at 3] 1
                  ltac:(intros [ | [ | j ] ] d Hj H; try lia; injection H as <-; reflexivity))).
  reflexivity.
Defined.

(** X15: when the last record is an event, the curve ends at zero, in both
    copies of the estimator. *)
Theorem kaplan_meier_ends_at_zero :
  forall (init : list Obs.t) (d : Obs.t),
    (Z.of_nat (length (init ++ [d])) < 2 ^ 53)%Z ->
    Obs.censored d = false ->
    (exists pt, nth_error (calculateKaplanMeier (init ++ [d])) (length init) = Some pt /\
                (Point.probability pt =? 0)%float = true) /\
    (exists pt, nth_error (Home_kaplanMeier (init ++ [d])) (length init) = Some pt /\
                (Point.probability pt =? 0)%float = true).
Proof.
  intros init d Hlen Hd.
  assert (G : forall time_of,
            exists pt, nth_error (KM.run time_of (init ++ [d])) (length init) = Some pt /\
                       (Point.probability pt =? 0)%float = true).
  { intros time_of.
    destruct (nth_error (KM.run time_of (init ++ [d])) (length init)) as [ pt | ] eqn:E.
    - exists pt. split; [ reflexivity | ].
      apply (run_last_event time_of init d pt Hlen Hd E).
    - apply nth_error_None in E. rewrite run_length, length_app in E. cbn [length] in E. lia. }
  split; apply G.
Qed.

Lemma kaplan_meier_ends_at_zero_witness :
  exists pt,
    nth_error (calculateKaplanMeier ([uncensored_at 1; censored_at 2] ++ [uncensored_at 3])) 2
    = Some pt /\ (Point.probability pt =? 0)%float = true.
Proof.
  apply (kaplan_meier_ends_at_zero [uncensored_at 1; censored_at 2] (uncensored_at 3)).
  - reflexivity.
  - reflexivity.
Defined.

Local Open Scope Z_scope.

(** ** The logistic risk *)

(** A double that is not below a finite one is finite or [+infinity]. *)
Lemma above_finite (c x : float) :
  PrimFloat.is_finite c = true -> (c <=? x)%float = true ->
  PrimFloat.is_finite x = true \/ x = infinity.
Proof.
  intros Fc H. rewrite is_finite_spec in *. rewrite leb_spec in H.
  destruct (Prim2SF x) as [s | [ | ] | | s m e] eqn:E; auto.
  - destruct (Prim2SF c) as [s' | [ | ] | | [ | ] m' e']; discriminate.
  - right. apply Prim2SF_inj. rewrite E. reflexivity.
  - destruct (Prim2SF c) as [s' | [ | ] | | [ | ] m' e']; discriminate.
Qed.

Lemma leb_infinity (c : float) :
  PrimFloat.is_finite c = true -> (c <=? infinity)%float = true.
Proof.
  intros Fc. rewrite is_finite_spec in Fc. rewrite leb_spec.
  change (Prim2SF infinity) with (S754_infinity false).
  destruct (Prim2SF c) as [s' | [ | ] | | [ | ] m' e']; try discriminate; reflexivity.
Qed.

(** Lower bounds pass through sums and products, also where these
    overflow. *)
Lemma add_above (a b c x y : float) :
  all_finite [a; b; c] = true -> Fval c <= Fval a + Fval b ->
  (a <=? x)%float = true -> (b <=? y)%float = true -> (c <=? x + y)%float = true.
Proof.
  intros F Hc Hx Hy. finites F.
  destruct (above_finite a x Fin Hx) as [Fx | ->];
    destruct (above_finite b y Fin0 Hy) as [Fy | ->].
  - apply (leb_val a x Fin Fx) in Hx. apply (leb_val b y Fin0 Fy) in Hy.
    apply (add_bracket x y c Fx Fy Fin1). lia.
  - replace (x + infinity)%float with infinity; [ apply leb_infinity; assumption | ].
    apply Prim2SF_inj. rewrite add_spec. rewrite is_finite_spec in Fx.
    change (Prim2SF infinity) with (S754_infinity false).
    destruct (Prim2SF x); try discriminate; reflexivity.
  - replace (infinity + y)%float with infinity; [ apply leb_infinity; assumption | ].
    apply Prim2SF_inj. rewrite add_spec. rewrite is_finite_spec in Fy.
    change (Prim2SF infinity) with (S754_infinity false).
    destruct (Prim2SF y); try discriminate; reflexivity.
  - change (infinity + infinity)%float with infinity. apply leb_infinity; assumption.
Qed.

Lemma positive_times_infinity (x : float) :
  PrimFloat.is_finite x = true -> 0 < Fval x ->
  (x * infinity)%float = infinity /\ (infinity * x)%float = infinity.
Proof.
  intros Fx Hx. rewrite is_finite_spec in Fx. unfold Fval in Hx.
  pose proof (Prim2SF_valid x) as V.
  split; apply Prim2SF_inj; rewrite mul_spec;
    change (Prim2SF infinity) with (S754_infinity false);
    destruct (Prim2SF x) as [s | s | | s m e]; try discriminate; cbn [SFval] in Hx; try lia;
    cbn [valid_binary] in V; pose proof (SFval_pos m e (bounded_emin _ _ V));
    destruct s; cbn [cond_Zopp] in Hx; try lia; reflexivity.
Qed.

Lemma mul_above (a b c x y : float) :
  all_finite [a; b; c] = true -> 0 < Fval a -> 0 < Fval b ->
  Fval c * ulp1 <= Fval a * Fval b ->
  (a <=? x)%float = true -> (b <=? y)%float = true -> (c <=? x * y)%float = true.
Proof.
  intros F Ha Hb Hc Hx Hy. finites F.
  destruct (above_finite a x Fin Hx) as [Fx | ->];
    destruct (above_finite b y Fin0 Hy) as [Fy | ->].
  - apply (leb_val a x Fin Fx) in Hx. apply (leb_val b y Fin0 Fy) in Hy.
    apply (mul_bracket x y c Fx Fy Fin1).
    apply Z.le_trans with (Fval a * Fval b); [ assumption | ].
    apply Z.mul_le_mono_nonneg; lia.
  - apply (leb_val a x Fin Fx) in Hx.
    rewrite (proj1 (positive_times_infinity x Fx ltac:(lia))).
    apply leb_infinity; assumption.
  - apply (leb_val b y Fin0 Fy) in Hy.
    rewrite (proj2 (positive_times_infinity y Fy ltac:(lia))).
    apply leb_infinity; assumption.
  - change (infinity * infinity)%float with infinity. apply leb_infinity; assumption.
Qed.

(** The quotient by a positive finite double keeps a lower bound. *)
Lemma div_above (a c x lo hi j : float) :
  all_finite [a; c; lo; hi] = true -> 0 < Fval lo ->
  Fval c * Fval hi <= Fval a * ulp1 -> 0 <= Fval c ->
  (a <=? x)%float = true -> within lo hi j -> (c <=? x / j)%float = true.
Proof.
  intros F Hlo Hc H0 Hx Hj. finites F.
  destruct (within_val lo hi j Fin1 Fin2 Hj) as [Fj Vj].
  destruct (above_finite a x Fin Hx) as [Fx | ->].
  - apply (leb_val a x Fin Fx) in Hx.
    apply (div_bracket x j c Fx Fj Fin0); [ lia | ].
    apply Z.le_trans with (Fval c * Fval hi); [ apply Z.mul_le_mono_nonneg_l; lia | ].
    apply Z.le_trans with (Fval a * ulp1); [ assumption | ].
    apply Z.mul_le_mono_nonneg_r; [ pose proof ulp1_pos; lia | lia ].
  - replace (infinity / j)%float with infinity; [ apply leb_infinity; assumption | ].
    apply Prim2SF_inj. rewrite div_spec. rewrite is_finite_spec in Fj. unfold Fval in *.
    pose proof (Prim2SF_valid j) as V.
    change (Prim2SF infinity) with (S754_infinity false).
    destruct (Prim2SF j) as [s | s | | s m e]; try discriminate; cbn [SFval] in Vj; try lia.
    cbn [valid_binary] in V. pose proof (SFval_pos m e (bounded_emin _ _ V)).
    destruct s; cbn [cond_Zopp] in Vj; try lia. reflexivity.
Qed.

(** The test of the decision boundary fails wherever the exponential is
    2 or more. *)
Lemma boundary_test (E : float) :
  (2 <=? E)%float = true ->
  (PrimFloat.abs (1 / (1 + E) - 0.5) <? 0.01)%float = false.
Proof.
  intros HE.
  assert (Hs : (3 <=? 1 + E)%float = true).
  { apply (add_above 1 2 3); try closed. exact HE. }
  destruct (above_finite 3 _ eq_refl Hs) as [Fs | ->]; [ | reflexivity ].
  apply (leb_val 3 _ eq_refl Fs) in Hs.
  assert (Hp : within 0 0.34 (1 / (1 + E))%float).
  { split.
    - apply (div_bracket 1 (1 + E) 0 eq_refl Fs eq_refl).
      + eapply Z.lt_le_trans; [ | exact Hs ]. closed.
      + change (Fval 0) with 0. rewrite Z.mul_0_l. closed.
    - apply (div_bracket 1 (1 + E) 0.34 eq_refl Fs eq_refl).
      + eapply Z.lt_le_trans; [ | exact Hs ]. closed.
      + apply Z.le_trans with (Fval 0.34 * Fval 3); [ closed | ].
        apply Z.mul_le_mono_nonneg_l; [ closed | exact Hs ]. }
  assert (Hd : within (-0.5) (-0.15) (1 / (1 + E) - 0.5)%float).
  { apply (sub_within 0 0.34 0.5 0.5 (-0.5) (-0.15)); try closed; [ exact Hp | ].
    apply within_const. reflexivity. }
  destruct (within_val (-0.5) (-0.15) _ eq_refl eq_refl Hd) as [Fd Vd].
  apply ltb_val_false; [ rewrite abs_finite; exact Fd | reflexivity | ].
  rewrite abs_val.
  apply Z.le_trans with (- Fval (-0.15)); [ closed | lia ].
Qed.

(** The exponent [-(age/20 + cholesterol/100 - 15)] over the ranges of
    the dataset. *)
Lemma heart_exponent_range (age cholesterol : float) :
  within 30 80 age -> within 150 300 cholesterol ->
  within 8 12 (Logistic.heart_exponent age cholesterol).
Proof.
  intros Ha Hc. unfold Logistic.heart_exponent.
  apply (opp_within (-12) (-8)); [ reflexivity | ].
  apply (sub_within 3 7 15 15 (-12) (-8)); try closed.
  - apply (add_within 1.5 4 1.5 3 3 7); try closed.
    + apply (div_const_within 30 80 20 1.5 4); try closed. exact Ha.
    + apply (div_const_within 150 300 100 1.5 3); try closed. exact Hc.
  - apply within_const. reflexivity.
Qed.

Lemma diabetes_exponent_range (bmi glucoseLevel : float) :
  within 18 40 bmi -> within 70 200 glucoseLevel ->
  within 0 4.875 (Logistic.diabetes_exponent bmi glucoseLevel).
Proof.
  intros Hb Hg. unfold Logistic.diabetes_exponent.
  apply (within_weaken (- 0) (- (-4.875)) 0 4.875); try closed.
  apply (opp_within (-4.875) 0); [ reflexivity | ].
  apply (sub_within 3.125 8 8 8 (-4.875) 0); try closed.
  - apply (add_within 1.75 4 1.375 4 3.125 8); try closed.
    + apply (div_const_within 18 40 10 1.75 4); try closed. exact Hb.
    + apply (div_const_within 70 200 50 1.375 4); try closed. exact Hg.
  - apply within_const. reflexivity.
Qed.

(** X16: a heart-disease record generated from draws of [Math.random()]
    has an age from 30 to 80 and a cholesterol level from 150 to 300, so
    the exponent handed to [Math.exp] lies between 8 and 12; where
    [Math.exp] returns a value between 2980 and 162760 there, as the
    exponential does, the risk is at most 0.00034 and the outcome is 1
    only on a draw below 0.00034.  The outcome is 0 or 1. *)
Theorem heart_disease_risk_is_small :
  forall (Math_exp : float -> float) (u_age u_cholesterol u_outcome : float),
    draw u_age -> draw u_cholesterol ->
    let s := Logistic.heartDisease Math_exp u_age u_cholesterol u_outcome in
    let exponent := Logistic.heart_exponent (Logistic.age s) (Logistic.cholesterol s) in
    within 30 80 (Logistic.age s) /\
    within 150 300 (Logistic.cholesterol s) /\
    within 8 12 exponent /\
    (Logistic.outcome s = 0%float \/ Logistic.outcome s = 1%float) /\
    (within 2980 162760 (Math_exp exponent) ->
     within 0.000006 0.00034
       (Logistic.heart_risk Math_exp (Logistic.age s) (Logistic.cholesterol s)) /\
     (Logistic.outcome s = 1%float -> (u_outcome <? 0.00034)%float = true)).
Proof.
  intros Math_exp u_age u_cholesterol u_outcome Ha Hc s exponent.
  apply draw_within in Ha, Hc.
  assert (A : within 30 80 (Logistic.age s)).
  { unfold s, Logistic.heartDisease, Logistic.age.
    apply (add_within 30 30 0 50 30 80); try closed; [ apply within_const; reflexivity | ].
    apply (mul_within 0 below_one 50 50 0 50); try closed; try assumption.
    apply within_const. reflexivity. }
  assert (C : within 150 300 (Logistic.cholesterol s)).
  { unfold s, Logistic.heartDisease, Logistic.cholesterol.
    apply (add_within 150 150 0 150 150 300); try closed;
      [ apply within_const; reflexivity | ].
    apply (mul_within 0 below_one 150 150 0 150); try closed; try assumption.
    apply within_const. reflexivity. }
  split; [ exact A | ]. split; [ exact C | ].
  split; [ apply heart_exponent_range; assumption | ].
  split.
  { unfold s, Logistic.heartDisease, Logistic.outcome.
    destruct (u_outcome <? _)%float; [ right | left ]; reflexivity. }
  intros HE.
  assert (R : within 0.000006 0.00034
                (Logistic.heart_risk Math_exp (Logistic.age s) (Logistic.cholesterol s))).
  { unfold Logistic.heart_risk. fold exponent.
    apply (div_within 1 1 2981 162761 0.000006 0.00034); try closed.
    - apply within_const. reflexivity.
    - apply (add_within 1 1 2980 162760 2981 162761); try closed; [ | exact HE ].
      apply within_const. reflexivity. }
  split; [ exact R | ].
  unfold s at 1. unfold Logistic.heartDisease, Logistic.outcome.
  change (30 + u_age * 50)%float with (Logistic.age s).
  change (150 + u_cholesterol * 150)%float with (Logistic.cholesterol s).
  destruct (u_outcome <? Logistic.heart_risk Math_exp (Logistic.age s) (Logistic.cholesterol s))%float
    eqn:E; [ intros _ | intros H; discriminate (f_equal Prim2SF H) ].
  apply (ltb_leb_trans _ _ _ E). apply R.
Qed.

Lemma heart_disease_risk_is_small_witness :
  within 0.000006 0.00034 (Logistic.heart_risk Poisson.exp_model 55 225).
Proof.
  apply (heart_disease_risk_is_small Poisson.exp_model 0.5 0.5 0.5 draw_half draw_half).
  split; vm_compute; reflexivity.
Defined.

(** X17: a diabetes record generated from draws of [Math.random()] has a
    BMI from 18 to 40 and a glucose level from 70 to 200, so the exponent
    handed to [Math.exp] lies between 0 and 4.875; where [Math.exp] returns
    a value between 1 and 131 there, as the exponential does, the risk
    lies between 0.0075 and one half. *)
Theorem diabetes_risk_at_most_half :
  forall (Math_exp : float -> float) (u_bmi u_glucose u_outcome : float),
    draw u_bmi -> draw u_glucose ->
    let s := Logistic.diabetesRisk Math_exp u_bmi u_glucose u_outcome in
    let exponent := Logistic.diabetes_exponent (Logistic.bmi s) (Logistic.glucoseLevel s) in
    within 18 40 (Logistic.bmi s) /\
    within 70 200 (Logistic.glucoseLevel s) /\
    within 0 4.875 exponent /\
    (Logistic.diabetes_outcome s = 0%float \/ Logistic.diabetes_outcome s = 1%float) /\
    (within 1 131 (Math_exp exponent) ->
     within 0.0075 0.5
       (Logistic.diabetes_risk Math_exp (Logistic.bmi s) (Logistic.glucoseLevel s))).
Proof.
  intros Math_exp u_bmi u_glucose u_outcome Hb Hg s exponent.
  apply draw_within in Hb, Hg.
  assert (B : within 18 40 (Logistic.bmi s)).
  { unfold s, Logistic.diabetesRisk, Logistic.bmi.
    apply (add_within 18 18 0 22 18 40); try closed; [ apply within_const; reflexivity | ].
    apply (mul_within 0 below_one 22 22 0 22); try closed; try assumption.
    apply within_const. reflexivity. }
  assert (G : within 70 200 (Logistic.glucoseLevel s)).
  { unfold s, Logistic.diabetesRisk, Logistic.glucoseLevel.
    apply (add_within 70 70 0 130 70 200); try closed; [ apply within_const; reflexivity | ].
    apply (mul_within 0 below_one 130 130 0 130); try closed; try assumption.
    apply within_const. reflexivity. }
  split; [ exact B | ]. split; [ exact G | ].
  split; [ apply diabetes_exponent_range; assumption | ].
  split.
  { unfold s, Logistic.diabetesRisk, Logistic.diabetes_outcome.
    destruct (u_outcome <? _)%float; [ right | left ]; reflexivity. }
  intros HE. unfold Logistic.diabetes_risk. fold exponent.
  apply (div_within 1 1 2 132 0.0075 0.5); try closed.
  - apply within_const. reflexivity.
  - apply (add_within 1 1 1 131 2 132); try closed; [ | exact HE ].
    apply within_const. reflexivity.
Qed.

Lemma diabetes_risk_at_most_half_witness :
  within 0.0075 0.5 (Logistic.diabetes_risk Poisson.exp_model 29 135).
Proof.
  apply (diabetes_risk_at_most_half Poisson.exp_model 0.5 0.5 0.5 draw_half draw_half).
  split; vm_compute; reflexivity.
Defined.

(** ** The decision boundary *)

(** The stand-in for [Math.exp] is above 2652 from 8 on. *)
Lemma series_above (n : nat) :
  forall (k : Z) (x j : float),
    Z.of_nat n + k <= 32 -> 1 <= k ->
    (0x1p-7 <=? x)%float = true -> within 1 (JS.of_int k) j ->
    (1 <=? Poisson.exp_series n x j)%float = true.
Proof.
  induction n as [ | n IH ]; intros k x j Hn Hk Hx Hj; cbn [Poisson.exp_series].
  - reflexivity.
  - destruct (of_int_val k ltac:(lia)) as [Fk Vk].
    destruct (of_int_val (k + 1) ltac:(lia)) as [Fk1 Vk1].
    destruct (within_val 1 _ j eq_refl Fk Hj) as [Fj Vj].
    change (Fval 1) with ulp1 in Vj.
    assert (Hj32 : within 1 32 j).
    { split; [ apply Hj | ]. apply (leb_val j 32 Fj eq_refl).
      change (Fval 32) with (32 * ulp1). pose proof ulp1_pos. nia. }
    assert (Hj1 : within 1 (JS.of_int (k + 1)) (j + 1)%float).
    { split.
      - apply (add_bracket j 1 1 Fj eq_refl eq_refl). change (Fval 1) with ulp1.
        pose proof ulp1_pos. lia.
      - apply (add_bracket j 1 _ Fj eq_refl Fk1). change (Fval 1) with ulp1. lia. }
    apply (add_above 1 0 1); [ closed | closed | reflexivity | ].
    apply (mul_above 0x1p-12 1 0); [ closed | closed | closed | closed | | ].
    + apply (div_above 0x1p-7 0x1p-12 x 1 32 j); [ closed | closed | closed | closed | | ];
        assumption.
    + apply (IH (k + 1)); try assumption; lia.
Qed.

Lemma squarings_above (a b v : float) (n : nat) :
  (forall w, (b <=? w)%float = true -> (a <=? Poisson.squarings n w)%float = true) ->
  forall c, all_finite [c; c; b] = true -> 0 < Fval c -> Fval b * ulp1 <= Fval c * Fval c ->
  (c <=? v)%float = true -> (a <=? Poisson.squarings (S n) v)%float = true.
Proof.
  intros H c F Hc Hb Hv. cbn [Poisson.squarings]. apply H.
  apply (mul_above c c b); assumption.
Qed.

Lemma exp_model_large (x : float) :
  (8 <=? x)%float = true -> (2 <=? Poisson.exp_model x)%float = true.
Proof.
  intros Hx. unfold Poisson.exp_model.
  assert (Hy : (0x1p-7 <=? x / 1024)%float = true).
  { apply (div_above 8 0x1p-7 x 1024 1024 1024); [ closed | closed | closed | closed | | ].
    - exact Hx.
    - apply within_const. reflexivity. }
  set (y := (x / 1024)%float) in *.
  assert (Hs : (1.0078125 <=? Poisson.exp_series 20 y 1)%float = true).
  { change 20%nat with (S 19). cbn [Poisson.exp_series].
    apply (add_above 1 0x1p-7 1.0078125); [ closed | closed | reflexivity | ].
    apply (mul_above 0x1p-7 1 0x1p-7); [ closed | closed | closed | closed | | ].
    - apply (div_above 0x1p-7 0x1p-7 y 1 1 1); [ closed | closed | closed | closed | | ].
      + exact Hy.
      + apply within_const. reflexivity.
    - apply (series_above 19 2); try lia; [ exact Hy | ].
      split; reflexivity. }
  revert Hs. generalize (Poisson.exp_series 20 y 1). intros v Hv.
  apply (squarings_above 2 1.0156 v 9) with (c := 1.0078125%float);
    [ | closed | closed | closed | exact Hv ].
  intros v1 Hv1.
  apply (squarings_above 2 1.0314 v1 8) with (c := 1.0156%float);
    [ | closed | closed | closed | exact Hv1 ].
  intros v2 Hv2.
  apply (squarings_above 2 1.0637 v2 7) with (c := 1.0314%float);
    [ | closed | closed | closed | exact Hv2 ].
  intros v3 Hv3.
  apply (squarings_above 2 1.1314 v3 6) with (c := 1.0637%float);
    [ | closed | closed | closed | exact Hv3 ].
  intros v4 Hv4.
  apply (squarings_above 2 1.28 v4 5) with (c := 1.1314%float);
    [ | closed | closed | closed | exact Hv4 ].
  intros v5 Hv5.
  apply (squarings_above 2 1.638 v5 4) with (c := 1.28%float);
    [ | closed | closed | closed | exact Hv5 ].
  intros v6 Hv6.
  apply (squarings_above 2 2.68 v6 3) with (c := 1.638%float);
    [ | closed | closed | closed | exact Hv6 ].
  intros v7 Hv7.
  apply (squarings_above 2 7.18 v7 2) with (c := 2.68%float);
    [ | closed | closed | closed | exact Hv7 ].
  intros v8 Hv8.
  apply (squarings_above 2 51.5 v8 1) with (c := 7.18%float);
    [ | closed | closed | closed | exact Hv8 ].
  intros v9 Hv9.
  apply (squarings_above 2 2652 v9 0) with (c := 51.5%float);
    [ | closed | closed | closed | exact Hv9 ].
  intros v10 Hv10. cbn [Poisson.squarings].
  apply (leb_trans 2 2652 v10); [ reflexivity | exact Hv10 ].
Qed.

(** The halves of the integers up to 200 are doubles. *)
Lemma half_val (n : Z) :
  0 <= n <= 200 ->
  PrimFloat.is_finite (JS.of_int n / 2) = true /\
  Fval (JS.of_int n / 2) = n * 2 ^ 1073.
Proof.
  intros Hn.
  assert (H : forallb (fun m : nat =>
                PrimFloat.is_finite (JS.of_int (Z.of_nat m) / 2)
                && (Fval (JS.of_int (Z.of_nat m) / 2) =? Z.of_nat m * 2 ^ 1073))
              (seq 0 201) = true) by (vm_compute; reflexivity).
  rewrite forallb_forall in H. specialize (H (Z.to_nat n)).
  rewrite Z2Nat.id in H by lia.
  destruct (andb_prop _ _ (H ltac:(apply in_seq; lia))) as [H1 H2].
  split; [ exact H1 | apply Z.eqb_eq; exact H2 ].
Qed.

Section Boundary.
Variable Math_exp : float -> float.
Hypothesis exp_large : forall x, (8 <=? x)%float = true -> (2 <=? Math_exp x)%float = true.

Lemma test_fails (age chol : float) :
  within 30 80 age -> within 150 300 chol ->
  (PrimFloat.abs (Logistic.heart_risk Math_exp age chol - 0.5) <? 0.01)%float = false.
Proof.
  intros Ha Hc. unfold Logistic.heart_risk. apply boundary_test, exp_large.
  apply (heart_exponent_range age chol Ha Hc).
Qed.

Lemma chol_loop_spec (age cholMax : float) (pts : list (float * float)) :
  within 30 80 age -> (cholMax <=? 300)%float = true ->
  forall (fuel : nat) (chol : float) (k : Z),
    0 <= k <= 151 -> (JS.of_int (150 + k) <=? chol)%float = true ->
    (forall r, Logistic.chol_loop Math_exp fuel age chol cholMax pts = Some r -> r = pts) /\
    (Z.max 0 (151 - k) < Z.of_nat fuel ->
     Logistic.chol_loop Math_exp fuel age chol cholMax pts = Some pts).
Proof.
  intros Ha Hmax. induction fuel as [ | fuel IH ]; intros chol k Hk Hlo.
  - cbn [Logistic.chol_loop]. split; [ discriminate | lia ].
  - cbn [Logistic.chol_loop].
    destruct (chol <=? cholMax)%float eqn:T.
    + pose proof (leb_trans _ _ _ T Hmax) as Hhi.
      destruct (of_int_val (150 + k) ltac:(lia)) as [Fk Vk].
      destruct (within_val _ 300 chol Fk eq_refl (conj Hlo Hhi)) as [Fc Vc].
      change (Fval 300) with (300 * ulp1) in Vc. rewrite Vk in Vc.
      pose proof ulp1_pos as HS.
      assert (Hk' : k <= 150) by nia.
      assert (Hc : within 150 300 chol).
      { split; [ | exact Hhi ]. apply (leb_val 150 chol eq_refl Fc).
        change (Fval 150) with (150 * ulp1). nia. }
      rewrite (test_fails age chol Ha Hc).
      destruct (of_int_val (150 + (k + 1)) ltac:(lia)) as [Fk1 Vk1].
      assert (Hnext : (JS.of_int (150 + (k + 1)) <=? chol + 1)%float = true).
      { apply (add_bracket chol 1 _ Fc eq_refl Fk1). rewrite Vk1.
        change (Fval 1) with ulp1. nia. }
      destruct (IH (chol + 1)%float (k + 1) ltac:(lia) Hnext) as [IH1 IH2].
      split; [ exact IH1 | ]. intros Hf. apply IH2. lia.
    + split; [ intros r [= <-]; reflexivity | reflexivity ].
Qed.

Lemma age_loop_spec (inner : nat) (ageMax cholMin cholMax : float) :
  (ageMax <=? 80)%float = true -> within 150 300 cholMin -> (cholMax <=? 300)%float = true ->
  forall (fuel : nat) (age : float) (k : Z) (pts : list (float * float)),
    0 <= k <= 101 -> (JS.of_int (60 + k) / 2 <=? age)%float = true ->
    (forall r, Logistic.age_loop Math_exp inner fuel age ageMax cholMin cholMax pts = Some r ->
               r = pts) /\
    ((152 <= inner)%nat -> Z.max 0 (101 - k) < Z.of_nat fuel ->
     Logistic.age_loop Math_exp inner fuel age ageMax cholMin cholMax pts = Some pts).
Proof.
  intros Hmax Hmin HcMax.
  induction fuel as [ | fuel IH ]; intros age k pts Hk Hlo.
  - cbn [Logistic.age_loop]. split; [ discriminate | lia ].
  - cbn [Logistic.age_loop].
    destruct (age <=? ageMax)%float eqn:T.
    + pose proof (leb_trans _ _ _ T Hmax) as Hhi.
      destruct (half_val (60 + k) ltac:(lia)) as [Fk Vk].
      destruct (within_val _ 80 age Fk eq_refl (conj Hlo Hhi)) as [Fa Va].
      change (Fval 80) with (160 * 2 ^ 1073) in Va. rewrite Vk in Va.
      assert (HS : 0 < 2 ^ 1073) by (apply Z.pow_pos_nonneg; lia).
      assert (Hk' : k <= 100) by nia.
      assert (Hage : within 30 80 age).
      { split; [ | exact Hhi ]. apply (leb_val 30 age eq_refl Fa).
        change (Fval 30) with (60 * 2 ^ 1073). nia. }
      destruct (chol_loop_spec age cholMax pts Hage HcMax inner cholMin 0 ltac:(lia)
                  (proj1 Hmin)) as [C1 C2].
      destruct (half_val (60 + (k + 1)) ltac:(lia)) as [Fk1 Vk1].
      assert (Hnext : (JS.of_int (60 + (k + 1)) / 2 <=? age + 0.5)%float = true).
      { apply (add_bracket age 0.5 _ Fa eq_refl Fk1). rewrite Vk1.
        change (Fval 0.5) with (2 ^ 1073). nia. }
      destruct (IH (age + 0.5)%float (k + 1) pts ltac:(lia) Hnext) as [IH1 IH2].
      destruct (Logistic.chol_loop Math_exp inner age cholMin cholMax pts) as [ r | ] eqn:E.
      * rewrite (C1 r eq_refl). split; [ exact IH1 | ].
        intros Hi Hf. apply IH2; [ exact Hi | lia ].
      * split; [ discriminate | ]. intros Hi Hf.
        specialize (C2 ltac:(lia)). discriminate C2.
    + split; [ intros r [= <-]; reflexivity | reflexivity ].
Qed.
End Boundary.

(** X18: the decision boundary drawn over the heart-disease data is empty.
    For ages from 30 to 80 and cholesterol levels from 150 to 300, which
    is where the generated records lie, and a [Math.exp] that returns 2
    or more from 8 on, no point of the grid passes the test
    [|p - 0.5| < 0.01]: the two loops end, after at most 102 and 152
    passes, with no point pushed. *)
Theorem decision_boundary_is_empty :
  forall (Math_exp : float -> float) (ageMin ageMax cholMin cholMax : float),
    (forall x, (8 <=? x)%float = true -> (2 <=? Math_exp x)%float = true) ->
    within 30 80 ageMin -> within 30 80 ageMax ->
    within 150 300 cholMin -> within 150 300 cholMax ->
    (forall fuel r,
        Logistic.decision_boundary Math_exp fuel ageMin ageMax cholMin cholMax = Some r ->
        r = []) /\
    (forall fuel, (152 <= fuel)%nat ->
        Logistic.decision_boundary Math_exp fuel ageMin ageMax cholMin cholMax = Some []).
Proof.
  intros Math_exp ageMin ageMax cholMin cholMax Hexp Ha1 Ha2 Hc1 Hc2.
  unfold Logistic.decision_boundary.
  split; intros fuel.
  - intros r.
    apply (age_loop_spec Math_exp Hexp fuel ageMax cholMin cholMax (proj2 Ha2) Hc1 (proj2 Hc2)
             fuel ageMin 0 [] ltac:(lia) (proj1 Ha1)).
  - intros Hf.
    apply (age_loop_spec Math_exp Hexp fuel ageMax cholMin cholMax (proj2 Ha2) Hc1 (proj2 Hc2)
             fuel ageMin 0 [] ltac:(lia) (proj1 Ha1)); lia.
Qed.

Lemma decision_boundary_is_empty_witness :
  Logistic.decision_boundary Poisson.exp_model 152 30 80 150 300 = Some [].
Proof.
  apply (decision_boundary_is_empty Poisson.exp_model 30 80 150 300 exp_model_large);
    try (split; reflexivity).
  apply le_n.
Defined.

(** ** The running product of draws below 1 *)

Lemma bounded_intro (m : positive) (e : Z) :
  Z.max (Zpos (digits2_pos m) + e - 53) (-1074) = e -> e <= 971 ->
  bounded prec emax m e = true.
Proof.
  intros Hc He. unfold bounded, canonical_mantissa. rewrite fexp_eq.
  apply andb_true_intro. split; [ apply Z.eqb_eq; exact Hc | apply Z.leb_le; exact He ].
Qed.

(** Below a double above the smallest normal one there is another, and
    the midpoint between the two is above the double times any number
    below 1. *)
Lemma SFpred_exists (m : positive) (e : Z) :
  bounded prec emax m e = true -> 2 ^ 52 < Zpos m * 2 ^ (e + 1074) ->
  exists (mP : positive) (eP : Z),
    bounded prec emax mP eP = true /\
    Zpos mP * 2 ^ (eP + 1074) < Zpos m * 2 ^ (e + 1074) /\
    2 * (Zpos m * 2 ^ (e + 1074)) * (2 ^ 53 - 1)
    < (2 * Zpos mP + 1) * 2 ^ (eP + 1074) * 2 ^ 53.
Proof.
  intros HB Hbig.
  destruct (bounded_digits m e HB) as ([He1 He2] & Hm & Hnormal).
  destruct (Z.lt_ge_cases (2 ^ 52) (Zpos m)) as [Hgt | Hle].
  - (* the mantissa can be decremented *)
    exists (Pos.pred m), e.
    assert (Em : Zpos (Pos.pred m) = Zpos m - 1).
    { rewrite Pos2Z.inj_pred; [ lia | ]. intros ->. cbn in Hgt. lia. }
    assert (HX : 0 < 2 ^ (e + 1074)) by (apply pow2_pos; lia).
    split; [ | split ].
    + apply bounded_intro; [ | exact He2 ].
      rewrite (digits2_pos_unique (Pos.pred m) 53); [ lia | ].
      rewrite Em. change (53 - 1) with 52. lia.
    + rewrite Em. apply Z.mul_lt_mono_pos_r; [ exact HX | lia ].
    + rewrite Em. generalize dependent (2 ^ (e + 1074)). intros X _ HX.
      replace (2 * (Zpos m * X) * (2 ^ 53 - 1)) with ((2 * Zpos m * (2 ^ 53 - 1)) * X) by ring.
      replace ((2 * (Zpos m - 1) + 1) * X * 2 ^ 53)
        with (((2 * (Zpos m - 1) + 1) * 2 ^ 53) * X) by ring.
      apply Z.mul_lt_mono_pos_r; [ exact HX | ]. lia.
  - (* a power of two above the smallest normal double *)
    assert (He : -1074 < e).
    { destruct (Z.eq_dec e (-1074)) as [-> | ]; [ | lia ].
      change (-1074 + 1074) with 0 in Hbig. rewrite Z.pow_0_r, Z.mul_1_r in Hbig. lia. }
    assert (Em : Zpos m = 2 ^ 52) by (specialize (Hnormal He); lia).
    exists 9007199254740991%positive, (e - 1).
    assert (HY : 0 < 2 ^ (e + 1073)) by (apply pow2_pos; lia).
    assert (EX : 2 ^ (e + 1074) = 2 * 2 ^ (e + 1073)).
    { replace (e + 1074) with (1 + (e + 1073)) by lia. rewrite pow2_split by lia. reflexivity. }
    replace (e - 1 + 1074) with (e + 1073) by lia. rewrite EX, Em.
    split; [ | split ].
    + apply bounded_intro; [ | lia ].
      change (Zpos (digits2_pos 9007199254740991)) with 53. lia.
    + generalize dependent (2 ^ (e + 1073)). intros Y _ HY. lia.
    + generalize dependent (2 ^ (e + 1073)). intros Y _ HY. lia.
Qed.

(** A double above [2^-1022] times a double from 0 to the largest one
    below 1 is a smaller double. *)
Lemma mul_shrinks (p u : float) :
  PrimFloat.is_finite p = true -> PrimFloat.is_finite u = true ->
  2 ^ 52 < Fval p -> 0 <= Fval u <= Fval below_one ->
  PrimFloat.is_finite (p * u) = true /\ Fval (p * u) < Fval p.
Proof.
  intros Fp Fu Hp [Hu0 Hu1].
  pose proof (finite_valid p Fp) as Vp. pose proof (finite_valid u Fu) as Vu.
  unfold Fval in Hp.
  destruct (Prim2SF p) as [sp | sp | | sp m e] eqn:Ep; cbn [SFval] in Hp; try lia.
  destruct Vp as [Vp _]. cbn [valid_binary] in Vp.
  pose proof (bounded_emin _ _ Vp) as Hemin.
  pose proof (SFval_pos m e Hemin) as Hpos.
  destruct sp; cbn [cond_Zopp] in Hp; [ lia | ].
  destruct (SFpred_exists m e Vp Hp) as (mP & eP & BP & Hlt & Hmid).
  assert (HP : SFfinite_valid (S754_finite false mP eP)) by (split; [ exact BP | reflexivity ]).
  assert (Hx : SFfinite_valid (S754_finite false m e)) by (split; [ exact Vp | reflexivity ]).
  assert (Hle : SFleb (SF64mul (S754_finite false m e) (Prim2SF u)) (S754_finite false mP eP)
                = true).
  { apply SFmul_le_near; try assumption; cbn [SFval cond_Zopp]; try lia.
    fold (Fval u). change (Fval below_one) with ((2 ^ 53 - 1) * 2 ^ 1021) in Hu1.
    pose proof (bounded_emin _ _ BP) as HeP.
    pose proof (SFval_pos mP eP HeP) as HposP.
    remember (Zpos m * 2 ^ (e + 1074)) as X eqn:EX. clear EX.
    remember (2 ^ (eP + 1074)) as E eqn:EE. clear EE.
    apply Z.le_lt_trans with (2 * (X * ((2 ^ 53 - 1) * 2 ^ 1021))).
    - apply Z.mul_le_mono_nonneg_l; [ lia | ]. apply Z.mul_le_mono_nonneg_l; lia.
    - replace (2 * (X * ((2 ^ 53 - 1) * 2 ^ 1021))) with ((2 * X * (2 ^ 53 - 1)) * 2 ^ 1021)
        by ring.
      replace ((2 * Zpos mP + 1) * E * 2 ^ 1074)
        with (((2 * Zpos mP + 1) * E * 2 ^ 53) * 2 ^ 1021).
      + apply Z.mul_lt_mono_pos_r; [ apply pow2_pos; lia | exact Hmid ].
      + change (2 ^ 1074) with (2 ^ 53 * 2 ^ 1021). ring. }
  assert (H0 : SFleb SFzero (SF64mul (S754_finite false m e) (Prim2SF u)) = true).
  { apply (SFmul_bracket _ _ (S754_zero false) Hx Vu (SFzero_valid false)).
    cbn [SFval cond_Zopp]. fold (Fval u). apply Z.mul_nonneg_nonneg; lia. }
  assert (Fr : PrimFloat.is_finite (p * u) = true).
  { apply (between_finite 0 (SF2Prim (S754_finite false mP eP))).
    - reflexivity.
    - rewrite is_finite_spec, Prim2SF_SF2Prim by exact BP. reflexivity.
    - split; rewrite leb_spec, mul_spec, Ep, ?Prim2SF_SF2Prim by exact BP;
        [ exact H0 | exact Hle ]. }
  split; [ exact Fr | ].
  pose proof (finite_valid _ Fr) as Vr. rewrite mul_spec, Ep in Vr.
  unfold Fval. rewrite mul_spec, Ep.
  apply (SFleb_val _ _ Vr HP) in Hle. cbn [SFval cond_Zopp] in Hle |- *. lia.
Qed.

Lemma ltb_infinity (x : float) : (infinity <? x)%float = false.
Proof.
  rewrite ltb_spec. change (Prim2SF infinity) with (S754_infinity false).
  destruct (Prim2SF x) as [s | [ | ] | | [ | ] m e]; reflexivity.
Qed.

Section Shrinking.
Variable random : nat -> float.
Variable L : float.
Hypothesis L_normal : (0x1p-1022 <=? L)%float = true.
Hypothesis draws : forall j, draw (random j).

(** The product comes down to [L] after some pass: it is a smaller double
    at every pass. *)
Lemma product_exit_bounded (n : nat) : forall (p : float) (i : nat),
  PrimFloat.is_finite p = true -> 2 ^ 52 < Fval p -> Fval p <= 2 ^ 52 + Z.of_nat n ->
  exists j : nat, (L <? Poisson.product random p i (S j))%float = false.
Proof.
  induction n as [ | n IH ]; intros p i Fp Hlo Hhi.
  - lia.
  - destruct (within_val 0 below_one (random i) eq_refl eq_refl (draw_within _ (draws i)))
      as [Fu Vu].
    change (Fval 0) with 0 in Vu.
    destruct (mul_shrinks p (random i) Fp Fu Hlo Vu) as [Fr Hr].
    destruct (L <? p * random i)%float eqn:E.
    + destruct (above_finite 0x1p-1022 L eq_refl L_normal) as [FL | EL].
      * apply (leb_val 0x1p-1022 L eq_refl FL) in L_normal.
        change (Fval 0x1p-1022) with (2 ^ 52) in L_normal.
        apply (ltb_val L _ FL Fr) in E.
        destruct (IH (p * random i)%float (S i) Fr ltac:(lia) ltac:(lia)) as [j Hj].
        exists (S j). exact Hj.
      * rewrite EL, ltb_infinity in E. discriminate.
    + exists 0%nat. exact E.
Qed.

Lemma product_exit (i : nat) :
  exists j : nat, (L <? Poisson.product random 1 i (S j))%float = false.
Proof.
  apply (product_exit_bounded (Z.to_nat (Fval 1 - 2 ^ 52)) 1%float i eq_refl).
  - reflexivity.
  - rewrite Z2Nat.id; [ lia | ]. apply Z.le_0_sub. apply Z.lt_le_incl. reflexivity.
Qed.
End Shrinking.

Local Close Scope Z_scope.

(** C6, amended.  At a rate whose threshold [L = Math.exp(-lambda)] is at
    least [2^-1022], the smallest normal double, and on draws from 0 up
    to but not including 1, which is what [Math.random()] returns, the
    sampler terminates: with enough fuel it returns the number [k] of
    passes that came before the first pass at which the running product
    is at [L] or below, a non-negative integer (capped at [2^53 - 1],
    where a counter in doubles stops advancing), having made one call to
    the random source per pass. *)
Theorem poissonSample_terminates :
  forall (Math_exp : float -> float) (random : nat -> float) (lambda : float) (i : nat),
    (0x1p-1022 <=? Math_exp (- lambda))%float = true ->
    (forall j, draw (random j)) ->
    exists k : nat,
      (0 <= Z.min (Z.of_nat k) (2 ^ 53 - 1))%Z /\
      (forall fuel, (k < fuel)%nat ->
         Poisson.poissonSample Math_exp random fuel lambda i
         = Some (JS.of_int (Z.min (Z.of_nat k) (2 ^ 53 - 1)), (i + k + 1)%nat)) /\
      (Math_exp (- lambda) <? Poisson.product random 1 i (S k))%float = false /\
      (forall k', (k' < k)%nat ->
         (Math_exp (- lambda) <? Poisson.product random 1 i (S k'))%float = true).
Proof.
  intros Math_exp random lambda i HL Hdraws.
  destruct (product_exit random (Math_exp (- lambda)%float) HL Hdraws i) as [j Hj].
  destruct (poissonSample_first_exit Math_exp random lambda i j Hj)
    as (k & _ & Hk & Hexit & Hbefore).
  exists k. split; [ lia | ]. split; [ exact Hk | ]. split; [ exact Hexit | exact Hbefore ].
Qed.

Lemma poissonSample_terminates_witness :
  exists k : nat,
    (0 <= Z.min (Z.of_nat k) (2 ^ 53 - 1))%Z /\
    (forall fuel, (k < fuel)%nat ->
       Poisson.poissonSample Poisson.exp_model (fun _ => 0.5%float) fuel 1.5125 0
       = Some (JS.of_int (Z.min (Z.of_nat k) (2 ^ 53 - 1)), (0 + k + 1)%nat)) /\
    (Poisson.exp_model (- 1.5125)
       <? Poisson.product (fun _ => 0.5%float) 1 0 (S k))%float = false /\
    (forall k', (k' < k)%nat ->
       (Poisson.exp_model (- 1.5125)
          <? Poisson.product (fun _ => 0.5%float) 1 0 (S k'))%float = true).
Proof.
  apply (poissonSample_terminates Poisson.exp_model (fun _ => 0.5%float) 1.5125 0).
  - vm_compute. reflexivity.
  - intros j. exact draw_half.
Defined.

Local Open Scope Z_scope.

(** ** The relative error of a rounding *)

(** The first 53 bits of an integer of 53 bits or more are the mantissa
    of a double of the format. *)
Lemma truncation (V e0 : Z) :
  2 ^ 52 <= V ->
  -1074 <= Zdigits2 V - 53 + e0 <= 971 ->
  exists mP : positive,
    bounded prec emax mP (Zdigits2 V - 53 + e0) = true /\
    2 ^ 52 <= Zpos mP /\
    Zpos mP * 2 ^ (Zdigits2 V - 53) <= V < (Zpos mP + 1) * 2 ^ (Zdigits2 V - 53).
Proof.
  intros HV He.
  assert (Hd : 53 <= Zdigits2 V) by (apply (Zdigits2_ge V 52); lia).
  destruct (Zdigits2_bounds V ltac:(lia)) as [Hlo Hhi].
  set (s := Zdigits2 V - 53) in *.
  assert (Hs : 0 < 2 ^ s) by (apply pow2_pos; lia).
  assert (E1 : 2 ^ (Zdigits2 V - 1) = 2 ^ s * 2 ^ 52).
  { rewrite <- pow2_split by lia. f_equal. lia. }
  assert (E2 : 2 ^ Zdigits2 V = 2 ^ s * 2 ^ 53).
  { rewrite <- pow2_split by lia. f_equal. lia. }
  rewrite E1 in Hlo. rewrite E2 in Hhi.
  assert (Hq1 : 2 ^ 52 <= V / 2 ^ s) by (apply Z.div_le_lower_bound; assumption).
  assert (Hq2 : V / 2 ^ s < 2 ^ 53) by (apply Z.div_lt_upper_bound; assumption).
  pose proof (Z.mul_div_le V (2 ^ s) Hs) as Hf1.
  pose proof (Z.mul_succ_div_gt V (2 ^ s) Hs) as Hf2.
  destruct (V / 2 ^ s) as [ | q | q ] eqn:Eq; try lia.
  exists q. split; [ | split; [ exact Hq1 | ] ].
  - apply bounded_intro; [ | lia ].
    rewrite (digits2_pos_unique q 53); [ lia | ]. change (53 - 1) with 52. lia.
  - split; [ lia | ]. rewrite (Z.mul_comm _ (2 ^ s)). unfold Z.succ in Hf2. exact Hf2.
Qed.

Lemma Zdigits2_le (V d : Z) : 0 < V -> 0 <= d -> V < 2 ^ d -> Zdigits2 V <= d.
Proof.
  intros HV Hd H. destruct (Zdigits2_bounds V HV) as [Hlo _].
  destruct (Z.le_gt_cases (Zdigits2 V) d) as [ | Hgt ]; [ assumption | exfalso ].
  assert (2 ^ d <= 2 ^ (Zdigits2 V - 1)) by (apply pow2_le; lia). lia.
Qed.

(** The rounded product of two doubles, when it is a normal number not
    above 1, is above the exact product divided by [1 + 2^-52]. *)
Lemma mul_rel (x y : float) :
  PrimFloat.is_finite x = true -> PrimFloat.is_finite y = true ->
  2 ^ 1126 <= Fval x * Fval y -> Fval x * Fval y <= ulp1 * ulp1 ->
  PrimFloat.is_finite (x * y) = true /\
  2 ^ 52 * (Fval x * Fval y) < (2 ^ 52 + 1) * (Fval (x * y) * ulp1).
Proof.
  intros Fx Fy Hlo Hhi.
  set (V := Fval x * Fval y) in *.
  assert (HV : 0 < V) by (assert (0 < 2 ^ 1126) by (apply pow2_pos; lia); lia).
  assert (Hd1 : 1127 <= Zdigits2 V) by (apply (Zdigits2_ge V 1126); lia).
  assert (Hd2 : Zdigits2 V <= 2149).
  { apply Zdigits2_le; [ exact HV | lia | ].
    apply Z.le_lt_trans with (ulp1 * ulp1); [ exact Hhi | ].
    unfold ulp1. rewrite <- pow2_split by lia. apply Z.pow_lt_mono_r; lia. }
  destruct (truncation V (-2148)) as (mP & BP & HmP & Ht1 & Ht2); [ | lia | ].
  { apply Z.le_trans with (2 ^ 1126); [ apply pow2_le; lia | exact Hlo ]. }
  set (e := Zdigits2 V - 53 + -2148) in *.
  set (P := S754_finite false mP e).
  assert (HP : SFfinite_valid P) by (split; [ exact BP | reflexivity ]).
  assert (EP : SFval P * 2 ^ 1074 = Zpos mP * 2 ^ (Zdigits2 V - 53)).
  { unfold P. cbn [SFval cond_Zopp]. rewrite <- Z.mul_assoc, <- pow2_split by (unfold e; lia).
    do 2 f_equal. unfold e. lia. }
  assert (Hge : SFleb P (SF64mul (Prim2SF x) (Prim2SF y)) = true).
  { apply (SFmul_bracket _ _ P (finite_valid x Fx) (finite_valid y Fy) HP).
    rewrite EP. exact Ht1. }
  assert (Hle : (x * y <=? 1)%float = true).
  { apply (mul_bracket x y 1 Fx Fy eq_refl). change (Fval 1) with ulp1. exact Hhi. }
  assert (Fr : PrimFloat.is_finite (x * y) = true).
  { apply (between_finite (SF2Prim P) 1).
    - rewrite is_finite_spec, Prim2SF_SF2Prim by exact BP. reflexivity.
    - reflexivity.
    - split; [ | exact Hle ]. rewrite leb_spec, mul_spec, Prim2SF_SF2Prim by exact BP.
      exact Hge. }
  split; [ exact Fr | ].
  pose proof (finite_valid _ Fr) as Vr. rewrite mul_spec in Vr.
  apply (SFleb_val _ _ HP Vr) in Hge.
  change (Fval (x * y)) with (SFval (Prim2SF (x * y))). rewrite mul_spec.
  assert (HS : 0 < 2 ^ (Zdigits2 V - 53)) by (apply pow2_pos; lia).
  remember (SFval (SF64mul (Prim2SF x) (Prim2SF y))) as R eqn:ER. clear ER.
  assert (HR : Zpos mP * 2 ^ (Zdigits2 V - 53) <= R * ulp1).
  { rewrite <- EP. unfold ulp1. apply Z.mul_le_mono_nonneg_r; [ lia | exact Hge ]. }
  remember (2 ^ (Zdigits2 V - 53)) as S eqn:ES. clear ES.
  remember (R * ulp1) as RU eqn:ERU. clear ERU.
  apply Z.lt_le_trans with (2 ^ 52 * ((Zpos mP + 1) * S)).
  - apply Z.mul_lt_mono_pos_l; [ lia | exact Ht2 ].
  - apply Z.le_trans with ((2 ^ 52 + 1) * (Zpos mP * S)).
    + replace (2 ^ 52 * ((Zpos mP + 1) * S)) with ((2 ^ 52 * (Zpos mP + 1)) * S) by ring.
      replace ((2 ^ 52 + 1) * (Zpos mP * S)) with (((2 ^ 52 + 1) * Zpos mP) * S) by ring.
      apply Z.mul_le_mono_nonneg_r; lia.
    + apply Z.mul_le_mono_nonneg_l; [ lia | exact HR ].
Qed.

(** The rounded quotient of two doubles, when it is a normal number not
    above 1, is above the exact quotient divided by [1 + 2^-52]. *)
Lemma div_rel (x y : float) :
  PrimFloat.is_finite x = true -> PrimFloat.is_finite y = true ->
  0 < Fval y -> 2 ^ 52 * Fval y <= Fval x * ulp1 -> Fval x <= Fval y ->
  PrimFloat.is_finite (x / y) = true /\
  2 ^ 52 * (Fval x * ulp1) < (2 ^ 52 + 1) * (Fval (x / y) * Fval y).
Proof.
  intros Fx Fy Hy Hlo Hhi.
  pose proof ulp1_pos as HU.
  set (V := (Fval x * ulp1) / Fval y).
  assert (HV1 : 2 ^ 52 <= V).
  { unfold V. apply Z.div_le_lower_bound; [ exact Hy | ]. rewrite Z.mul_comm. exact Hlo. }
  assert (HV2 : V <= ulp1).
  { unfold V. apply Z.div_le_upper_bound; [ exact Hy | ].
    apply Z.mul_le_mono_nonneg_r; lia. }
  pose proof (Z.mul_div_le (Fval x * ulp1) (Fval y) Hy) as Hf1. fold V in Hf1.
  pose proof (Z.mul_succ_div_gt (Fval x * ulp1) (Fval y) Hy) as Hf2. fold V in Hf2.
  assert (Hd1 : 53 <= Zdigits2 V) by (apply (Zdigits2_ge V 52); lia).
  assert (Hd2 : Zdigits2 V <= 1075).
  { apply Zdigits2_le; [ lia | lia | ].
    apply Z.le_lt_trans with ulp1; [ exact HV2 | ]. unfold ulp1. apply Z.pow_lt_mono_r; lia. }
  destruct (truncation V (-1074) HV1 ltac:(lia)) as (mP & BP & HmP & Ht1 & Ht2).
  set (e := Zdigits2 V - 53 + -1074) in *.
  set (P := S754_finite false mP e).
  assert (HP : SFfinite_valid P) by (split; [ exact BP | reflexivity ]).
  assert (EP : SFval P = Zpos mP * 2 ^ (Zdigits2 V - 53)).
  { unfold P. cbn [SFval cond_Zopp]. do 2 f_equal. unfold e. lia. }
  assert (HSy : 0 < SFval (Prim2SF y)) by exact Hy.
  assert (Hge : SFleb P (SF64div (Prim2SF x) (Prim2SF y)) = true).
  { apply (SFdiv_bracket _ _ P (finite_valid x Fx) (finite_valid y Fy) HP HSy).
    rewrite EP. fold (Fval x) (Fval y). change (2 ^ 1074) with ulp1.
    apply Z.le_trans with (V * Fval y); [ | lia ].
    apply Z.mul_le_mono_nonneg_r; lia. }
  assert (Hle : (x / y <=? 1)%float = true).
  { apply (div_bracket x y 1 Fx Fy eq_refl Hy). change (Fval 1) with ulp1.
    rewrite (Z.mul_comm ulp1). apply Z.mul_le_mono_nonneg_r; lia. }
  assert (Fr : PrimFloat.is_finite (x / y) = true).
  { apply (between_finite (SF2Prim P) 1).
    - rewrite is_finite_spec, Prim2SF_SF2Prim by exact BP. reflexivity.
    - reflexivity.
    - split; [ | exact Hle ]. rewrite leb_spec, div_spec, Prim2SF_SF2Prim by exact BP.
      exact Hge. }
  split; [ exact Fr | ].
  pose proof (finite_valid _ Fr) as Vr. rewrite div_spec in Vr.
  apply (SFleb_val _ _ HP Vr) in Hge. rewrite EP in Hge.
  change (Fval (x / y)) with (SFval (Prim2SF (x / y))). rewrite div_spec.
  assert (HS : 0 < 2 ^ (Zdigits2 V - 53)) by (apply pow2_pos; lia).
  remember (SFval (SF64div (Prim2SF x) (Prim2SF y))) as R eqn:ER. clear ER.
  remember (2 ^ (Zdigits2 V - 53)) as S eqn:ES. clear ES.
  remember (Fval x * ulp1) as XU eqn:EXU. clear EXU.
  remember (Fval y) as Y eqn:EY. clear EY.
  (* XU < Y * (V + 1) <= Y * ((mP + 1) * S) *)
  assert (H1 : XU < ((Zpos mP + 1) * S) * Y).
  { apply Z.lt_le_trans with (Y * Z.succ V); [ exact Hf2 | ].
    rewrite Z.mul_comm. apply Z.mul_le_mono_nonneg_r; lia. }
  apply Z.lt_le_trans with (2 ^ 52 * (((Zpos mP + 1) * S) * Y)).
  - apply Z.mul_lt_mono_pos_l; [ lia | exact H1 ].
  - apply Z.le_trans with ((2 ^ 52 + 1) * ((Zpos mP * S) * Y)).
    + replace (2 ^ 52 * ((Zpos mP + 1) * S * Y)) with ((2 ^ 52 * (Zpos mP + 1)) * (S * Y))
        by ring.
      replace ((2 ^ 52 + 1) * (Zpos mP * S * Y)) with (((2 ^ 52 + 1) * Zpos mP) * (S * Y))
        by ring.
      apply Z.mul_le_mono_nonneg_r; [ apply Z.mul_nonneg_nonneg; lia | lia ].
    + apply Z.mul_le_mono_nonneg_l; [ lia | ].
      apply Z.mul_le_mono_nonneg_r; [ lia | exact Hge ].
Qed.

(** ** The probabilities stay above zero *)

(** One uncensored record: from [p >= (n / M) (1 - i / A)] to
    [p' >= ((n - 1) / M) (1 - (i + 1) / A)], for the rounded ratio [f] and
    the rounded product [p']. *)
Lemma invariant_step (B A U M n i Pv Fv P' : Z) :
  0 < B -> 0 < A -> 0 < U -> 0 < M -> 2 <= n -> 0 <= i -> i + 1 <= A ->
  (B + 1) * (B + 1) * (A - i - 1) <= B * B * (A - i) ->
  n * (A - i) * U <= Pv * M * A ->
  B * ((n - 1) * U) < (B + 1) * (Fv * n) ->
  B * (Pv * Fv) < (B + 1) * (P' * U) ->
  (n - 1) * (A - i - 1) * U <= P' * M * A.
Proof.
  intros HB HA HU HM Hn Hi HiA Key H1 H2 H3.
  assert (HPMA : 0 < Pv * M * A).
  { apply Z.lt_le_trans with (n * (A - i) * U); [ | exact H1 ].
    apply Z.mul_pos_pos; [ apply Z.mul_pos_pos; lia | lia ]. }
  (* E1 : B (n-1) (A-i) U U < (B+1) M A (Pv Fv) *)
  assert (E0 : (B * ((n - 1) * U)) * (n * (A - i) * U) < ((B + 1) * (Fv * n)) * (Pv * M * A)).
  { apply Z.le_lt_trans with ((B * ((n - 1) * U)) * (Pv * M * A)).
    - apply Z.mul_le_mono_nonneg_l; [ | exact H1 ].
      apply Z.mul_nonneg_nonneg; [ lia | apply Z.mul_nonneg_nonneg; lia ].
    - apply Z.mul_lt_mono_pos_r; assumption. }
  assert (E1 : B * (n - 1) * (A - i) * U * U < (B + 1) * M * A * (Pv * Fv)).
  { apply (Z.mul_lt_mono_pos_r n); [ lia | ].
    replace (B * (n - 1) * (A - i) * U * U * n)
      with ((B * ((n - 1) * U)) * (n * (A - i) * U)) by ring.
    replace ((B + 1) * M * A * (Pv * Fv) * n)
      with (((B + 1) * (Fv * n)) * (Pv * M * A)) by ring.
    exact E0. }
  assert (E2 : (B + 1) * M * A * (B * (Pv * Fv)) < (B + 1) * M * A * ((B + 1) * (P' * U))).
  { apply Z.mul_lt_mono_pos_l; [ | exact H3 ].
    apply Z.mul_pos_pos; [ apply Z.mul_pos_pos; lia | lia ]. }
  assert (E3 : B * B * (A - i) * (n - 1) * U < (B + 1) * (B + 1) * (P' * M * A)).
  { apply (Z.mul_lt_mono_pos_r U); [ exact HU | ].
    apply Z.lt_trans with ((B + 1) * M * A * (B * (Pv * Fv))).
    - replace (B * B * (A - i) * (n - 1) * U * U)
        with (B * (B * (n - 1) * (A - i) * U * U)) by ring.
      replace ((B + 1) * M * A * (B * (Pv * Fv)))
        with (B * ((B + 1) * M * A * (Pv * Fv))) by ring.
      apply Z.mul_lt_mono_pos_l; assumption.
    - replace ((B + 1) * (B + 1) * (P' * M * A) * U)
        with ((B + 1) * M * A * ((B + 1) * (P' * U))) by ring.
      exact E2. }
  assert (E4 : (B + 1) * (B + 1) * ((n - 1) * (A - i - 1) * U)
               <= B * B * (A - i) * (n - 1) * U).
  { replace ((B + 1) * (B + 1) * ((n - 1) * (A - i - 1) * U))
      with (((B + 1) * (B + 1) * (A - i - 1)) * ((n - 1) * U)) by ring.
    replace (B * B * (A - i) * (n - 1) * U) with ((B * B * (A - i)) * ((n - 1) * U)) by ring.
    apply Z.mul_le_mono_nonneg_r; [ apply Z.mul_nonneg_nonneg; lia | exact Key ]. }
  apply (Z.mul_le_mono_pos_l _ _ ((B + 1) * (B + 1))); [ apply Z.mul_pos_pos; lia | ].
  lia.
Qed.

(** The ratio [(n - 1) / n] in doubles. *)
Lemma at_risk_ratio_rel (n : Z) :
  2 <= n < 2 ^ 53 ->
  PrimFloat.is_finite (JS.of_int (n - 1) / JS.of_int n) = true /\
  2 ^ 1072 <= Fval (JS.of_int (n - 1) / JS.of_int n) /\
  2 ^ 52 * ((n - 1) * ulp1) < (2 ^ 52 + 1) * (Fval (JS.of_int (n - 1) / JS.of_int n) * n).
Proof.
  intros Hn. pose proof ulp1_pos as HU.
  destruct (of_int_val (n - 1) ltac:(lia)) as [Fx Vx].
  destruct (of_int_val n ltac:(lia)) as [Fy Vy].
  assert (Hy : 0 < Fval (JS.of_int n)) by (rewrite Vy; apply Z.mul_pos_pos; lia).
  destruct (div_rel (JS.of_int (n - 1)) (JS.of_int n) Fx Fy Hy) as [Fr Hr].
  { rewrite Vx, Vy. unfold ulp1. lia. }
  { rewrite Vx, Vy. apply Z.mul_le_mono_nonneg_r; lia. }
  split; [ exact Fr | ]. split.
  - change (2 ^ 1072) with (Fval 0.25).
    apply (leb_val 0.25 _ eq_refl Fr).
    apply (div_bracket _ _ 0.25 Fx Fy eq_refl Hy).
    rewrite Vx, Vy. change (Fval 0.25) with (2 ^ 1072). unfold ulp1. lia.
  - rewrite Vx, Vy in Hr.
    apply (Z.mul_lt_mono_pos_r ulp1); [ exact HU | ].
    replace (2 ^ 52 * ((n - 1) * ulp1) * ulp1) with (2 ^ 52 * ((n - 1) * ulp1 * ulp1)) by ring.
    replace ((2 ^ 52 + 1) * (Fval (JS.of_int (n - 1) / JS.of_int n) * n) * ulp1)
      with ((2 ^ 52 + 1) * (Fval (JS.of_int (n - 1) / JS.of_int n) * (n * ulp1))) by ring.
    exact Hr.
Qed.

Section Positive.
Variable time_of : Obs.t -> option float.

(** Along the curve the probability stays above [n / M] up to a factor
    [1 - i / 2^51], for [n] records left of [M] and [i] records read: it
    is above zero as long as a record is left. *)
Lemma curve_positive (data : list Obs.t) : forall (p : float) (i M : Z),
  M = Z.of_nat (length data) + i -> M <= 2 ^ 51 -> 0 <= i ->
  unit_interval p ->
  Z.of_nat (length data) * (2 ^ 51 - i) * ulp1 <= Fval p * M * 2 ^ 51 ->
  forall (j : nat) (pt : Point.t),
    nth_error (KM.curve time_of (Z.of_nat (length data)) p data) j = Some pt ->
    (S j < length data)%nat \/ Point.censored pt = true ->
    (0 <? Point.probability pt)%float = true.
Proof.
  induction data as [ | d rest IH ]; intros p i M HM HM51 Hi [Hp0 Hp1] Hinv j pt.
  - destruct j; discriminate.
  - pose proof ulp1_pos as HU.
    assert (Fp : PrimFloat.is_finite p = true)
      by (apply (between_finite 0 1 p eq_refl eq_refl); split; assumption).
    pose proof (proj1 (leb_val 0 p eq_refl Fp) Hp0) as Vp0. change (Fval 0) with 0 in Vp0.
    pose proof (proj1 (leb_val p 1 Fp eq_refl) Hp1) as Vp1. change (Fval 1) with ulp1 in Vp1.
    set (n := Z.of_nat (length (d :: rest))) in *.
    assert (Hn : n = Z.of_nat (length rest) + 1) by (unfold n; cbn [length]; lia).
    assert (Hn1 : 1 <= n) by lia.
    assert (HiA : i + 1 <= 2 ^ 51) by lia.
    assert (HM0 : 0 < M) by lia.
    assert (Hpos : 0 < Fval p).
    { destruct (Z.le_gt_cases (Fval p) 0) as [Hle | ]; [ exfalso | assumption ].
      assert (E : Fval p = 0) by lia. rewrite E in Hinv. cbn [Z.mul] in Hinv.
      assert (0 < n * (2 ^ 51 - i) * ulp1)
        by (apply Z.mul_pos_pos; [ apply Z.mul_pos_pos; lia | exact HU ]).
      lia. }
    cbn [KM.curve].
    set (p' := if Obs.censored d then p
               else (p * (JS.of_int (n - 1) / JS.of_int n))%float).
    assert (Hunit : unit_interval p').
    { unfold p'. destruct (Obs.censored d); [ split; assumption | ].
      destruct (at_risk_ratio_unit n) as [F0 F1]; [ lia | ].
      apply mul_unit_le; try assumption. reflexivity. }
    assert (Hstep : Obs.censored d = true \/ 2 <= n ->
              (0 <? p')%float = true /\
              Z.of_nat (length rest) * (2 ^ 51 - (i + 1)) * ulp1 <= Fval p' * M * 2 ^ 51).
    { intros Hcase. unfold p'. destruct (Obs.censored d) eqn:Ec.
      - split; [ apply (ltb_val 0 p eq_refl Fp); exact Hpos | ].
        apply Z.le_trans with (n * (2 ^ 51 - i) * ulp1); [ | exact Hinv ].
        apply Z.mul_le_mono_nonneg_r; [ lia | ].
        apply Z.mul_le_mono_nonneg; lia.
      - destruct Hcase as [ | Hn2 ]; [ discriminate | ].
        destruct (at_risk_ratio_rel n ltac:(lia)) as (Ff & Hf1 & Hfrel).
        destruct (at_risk_ratio_unit n ltac:(lia)) as [_ Hfle].
        set (f := (JS.of_int (n - 1) / JS.of_int n)%float) in *.
        pose proof (proj1 (leb_val f 1 Ff eq_refl) Hfle) as Vf1.
        change (Fval 1) with ulp1 in Vf1.
        assert (HPv : 2 ^ 972 <= Fval p).
        { assert (H1 : ulp1 <= Fval p * M * 2 ^ 51).
          { apply Z.le_trans with (n * (2 ^ 51 - i) * ulp1); [ | exact Hinv ].
            rewrite <- (Z.mul_1_l ulp1) at 1.
            apply Z.mul_le_mono_nonneg_r; [ lia | ].
            change 1 with (1 * 1). apply Z.mul_le_mono_nonneg; lia. }
          assert (H2 : Fval p * M * 2 ^ 51 <= Fval p * (2 ^ 51 * 2 ^ 51)).
          { rewrite <- Z.mul_assoc. apply Z.mul_le_mono_nonneg_l; [ lia | ].
            apply Z.mul_le_mono_nonneg_r; lia. }
          unfold ulp1 in H1. lia. }
        destruct (mul_rel p f Fp Ff) as [Fr Hr].
        { apply Z.le_trans with (2 ^ 972 * 2 ^ 1072); [ rewrite <- pow2_split by lia; apply pow2_le; lia | ].
          apply Z.mul_le_mono_nonneg; try assumption; apply Z.lt_le_incl, pow2_pos; lia. }
        { apply Z.mul_le_mono_nonneg; try assumption; lia. }
        assert (HP' : 0 < Fval (p * f)).
        { destruct (Z.le_gt_cases (Fval (p * f)) 0) as [Hle | ]; [ exfalso | assumption ].
          assert (Fval (p * f) * ulp1 <= 0) by (apply Z.mul_nonpos_nonneg; lia).
          assert (0 < Fval p * Fval f)
            by (apply Z.mul_pos_pos; [ lia | assert (0 < 2 ^ 1072) by (apply pow2_pos; lia); lia ]).
          lia. }
        split; [ apply (ltb_val 0 _ eq_refl Fr); exact HP' | ].
        replace (Z.of_nat (length rest)) with (n - 1) by lia.
        replace (2 ^ 51 - (i + 1)) with (2 ^ 51 - i - 1) by lia.
        apply (invariant_step (2 ^ 52) (2 ^ 51) ulp1 M n i (Fval p) (Fval f) (Fval (p * f)));
          try assumption; try lia. }
    destruct j as [ | j ]; cbn [nth_error].
    + intros H Hcond. injection H as <-. cbn [Point.probability Point.censored] in *.
      apply Hstep. destruct Hcond as [Hlt | Hc]; [ right | left; exact Hc ].
      cbn [length] in Hlt. lia.
    + intros H Hcond.
      replace (n - 1) with (Z.of_nat (length rest)) in H by lia.
      assert (Hrest : (j < length rest)%nat).
      { rewrite <- (length_curve time_of rest (Z.of_nat (length rest)) p').
        apply nth_error_Some. congruence. }
      destruct Hstep as [_ Hinv']; [ right; lia | ].
      apply (IH p' (i + 1) M ltac:(lia) HM51 ltac:(lia) Hunit Hinv' j pt H).
      destruct Hcond as [Hlt | Hc]; [ left | right; exact Hc ].
      cbn [length] in Hlt. lia.
Qed.
End Positive.

Local Close Scope Z_scope.

(** C9, amended.  Every point emitted by the estimator has a probability
    from 0 to 1.  The probability is above 0 at every point but the last
    one, and at the last one too when the last record is censored; when
    the last record is an event, the last point has the probability 0.
    (The length bound holds of every JavaScript array, which has fewer
    than [2^32] elements.) *)
Theorem kaplan_meier_probability_range :
  forall data : list Obs.t,
    (Z.of_nat (length data) <= 2 ^ 51)%Z ->
    Forall (fun pt => unit_interval (Point.probability pt)) (calculateKaplanMeier data) /\
    (forall (i : nat) (pt : Point.t),
       nth_error (calculateKaplanMeier data) i = Some pt ->
       (S i < length data)%nat \/ Point.censored pt = true ->
       (0 <? Point.probability pt)%float = true) /\
    (forall pt : Point.t,
       nth_error (calculateKaplanMeier data) (Nat.pred (length data)) = Some pt ->
       Point.censored pt = false ->
       (Point.probability pt =? 0)%float = true).
Proof.
  intros data Hlen.
  assert (Hlen53 : (Z.of_nat (length data) < 2 ^ 53)%Z) by lia.
  unfold calculateKaplanMeier.
  split; [ | split ].
  - rewrite run_curve by exact Hlen53.
    apply (curve_bounded Cox_time data 1 1 Hlen53); reflexivity.
  - intros i pt. rewrite run_curve by exact Hlen53.
    apply (curve_positive Cox_time data 1 0 (Z.of_nat (length data))).
    + lia.
    + exact Hlen.
    + lia.
    + exact unit_interval_one.
    + change (Fval 1) with ulp1. lia.
  - intros pt Hpt Hc.
    destruct data as [ | d init _ ] using rev_ind; [ discriminate | ].
    rewrite length_app in Hpt. cbn [length] in Hpt.
    replace (Nat.pred (length init + 1)) with (length init) in Hpt by lia.
    apply (run_last_event Cox_time init d pt Hlen53); [ | exact Hpt ].
    pose proof (curve_censored Cox_time (init ++ [d]) (Z.of_nat (length (init ++ [d]))) 1) as E.
    rewrite <- run_curve in E by exact Hlen53.
    apply (f_equal (fun l => nth_error l (length init))) in E.
    rewrite !nth_error_map, Hpt in E.
    rewrite nth_error_app2, Nat.sub_diag in E by lia.
    cbn [nth_error option_map] in E. congruence.
Qed.

Lemma kaplan_meier_probability_range_witness :
  Forall (fun pt => unit_interval (Point.probability pt))
         (calculateKaplanMeier [uncensored_at 1; censored_at 2; uncensored_at 3]) /\
  (exists pt,
     nth_error (calculateKaplanMeier [uncensored_at 1; censored_at 2; uncensored_at 3]) 1
     = Some pt /\
     (0 <? Point.probability pt)%float = true) /\
  (exists pt,
     nth_error (calculateKaplanMeier [uncensored_at 1; censored_at 2; uncensored_at 3]) 2
     = Some pt /\
     (Point.probability pt =? 0)%float = true).
Proof.
  pose proof (kaplan_meier_probability_range
                [uncensored_at 1; censored_at 2; uncensored_at 3]) as H.
  destruct H as (A & B & C); [ vm_compute; discriminate | ].
  split; [ exact A | ].
  split; eexists; (split; [ reflexivity | ]).
  - apply (B 1%nat); [ reflexivity | right; reflexivity ].
  - apply C; reflexivity.
Defined.
